(** * Jaggilines: fixed-point terrain renderer (src/Jaggilines/default.js)

    A shallow embedding of the core of [default.js]: the JavaScript
    integer operators the code relies on, the trigonometric tables and
    their inverse lookup, the toroidal elevation map with its
    diamond-square generator, the two interpolation laws, the column
    compositing of the viewport and the integration step of the ship.

    JavaScript numbers that the code keeps integral are modelled as [Z];
    the operators [<<], [>>] and [&] go through the 32-bit conversion the
    language prescribes.  The few real-valued quantities (the random
    draws of the generator) are modelled as [Q]. *)

From Stdlib Require Import ZArith QArith Qround Lia List Bool Sorted.
From stdpp Require Import base list.

Local Open Scope Z_scope.

(** ** JavaScript integer operators *)

Module JS.

(** [ToInt32]: reduction modulo 2^32 into the signed range. *)
Definition to_int32 (z : Z) : Z := (z + 2 ^ 31) mod 2 ^ 32 - 2 ^ 31.

(** [a << n]: both operands are converted, the count is taken modulo 32
    and the result is again a signed 32-bit integer. *)
Definition shl (a n : Z) : Z := to_int32 (Z.shiftl (to_int32 a) (n mod 32)).

(** [a >> n]: sign-propagating right shift of the converted operand. *)
Definition sar (a n : Z) : Z := Z.shiftr (to_int32 a) (n mod 32).

(** [a & b]. *)
Definition and (a b : Z) : Z := Z.land (to_int32 a) (to_int32 b).

(** [a % b]: the remainder has the sign of the dividend.  JavaScript
    yields NaN for [b = 0]; every use below has a non-zero divisor or
    guards the zero case itself. *)
Definition rem (a b : Z) : Z := Z.rem a b.

(** A value read from an array or returned by a function that may
    produce [undefined]; [NaN] arises from arithmetic on [undefined]. *)
Inductive value : Type :=
| Undefined
| NaN
| Num (z : Z).

(** [table[i]]: [undefined] ([None]) outside the array. *)
Definition index {A : Type} (table : list A) (i : Z) : option A :=
  if i <? 0 then None else table !! Z.to_nat i.

(** Unary minus on a possibly undefined operand. *)
Definition neg (v : option Z) : value :=
  match v with
  | Some z => Num (- z)
  | None => NaN
  end.

Definition of_option (v : option Z) : value :=
  match v with
  | Some z => Num z
  | None => Undefined
  end.

(** [v >> n] where [v] may be NaN: [ToInt32(NaN)] is 0. *)
Definition sar_nan (v : option Z) (n : Z) : Z :=
  match v with
  | Some z => sar z n
  | None => 0
  end.

End JS.

(** ** Constants (default.js, lines 15-82) *)

Definition mapCoordinateBits : Z := 4.
Definition bitsBetweenTops : Z := 12.
Definition coordinateBits : Z := mapCoordinateBits + bitsBetweenTops.
Definition mapSize : Z := JS.shl 1 mapCoordinateBits.
Definition viewportScalePowerOfTwo : Z := 2.
Definition viewportWidth : Z := 640 / JS.shl 1 viewportScalePowerOfTwo.
Definition viewportHeight : Z := 192 / JS.shl 1 viewportScalePowerOfTwo.
Definition viewportVerticalOffset : Z := 200 / JS.shl 1 viewportScalePowerOfTwo.
Definition viewPortScreenPixelPowerOfTwo : Z := 1.
Definition maxHeightBits : Z := 12.
Definition maxHeight : Z := JS.shl 1 maxHeightBits.
Definition maxVariation : Z := JS.sar maxHeight 4.
Definition viewDistance : Z := 5.
Definition defaultThrust : Z := JS.shl 1 5.
Definition angleUnitPowerOfTwo : Z := 2.
Definition north : Z := JS.shl 90 angleUnitPowerOfTwo.
Definition east : Z := 0.
Definition west : Z := JS.shl 180 angleUnitPowerOfTwo.
Definition south : Z := JS.shl 270 angleUnitPowerOfTwo.
Definition quarterCircle : Z := JS.shl 90 angleUnitPowerOfTwo.
Definition halfCircle : Z := JS.shl 180 angleUnitPowerOfTwo.
Definition fullCircle : Z := JS.shl 360 angleUnitPowerOfTwo.

(** Positive modulo (line 204): [((n % m) + m) % m]. *)
Definition mod_ (n m : Z) : Z := JS.rem (JS.rem n m + m) m.

(** ** Trigonometric tables (lines 120-157)

    The three tables are filled once at start-up from [Math.cos],
    [Math.sin] and [Math.tan].  They are kept abstract here; the
    instance [reference_tables] further down lists their values. *)

Class TrigTables : Type := {
  cosTable : list Z;
  sinTable : list Z;
  tanTable : list Z
}.

(** What the construction of the tables guarantees independently of how
    the engine approximates the trigonometric functions: [new
    Array(n).keys()] fixes the lengths, and [Math.cos(0) = 1],
    [Math.sin(0) = 0] are exact. *)
Record TablesBuilt `{TrigTables} : Prop := {
  cosTable_length : Z.of_nat (length cosTable) = fullCircle;
  sinTable_length : Z.of_nat (length sinTable) = fullCircle;
  tanTable_length : Z.of_nat (length tanTable) = JS.sar fullCircle 2;
  cosTable_east : JS.index cosTable 0 = Some (JS.shl 1 bitsBetweenTops);
  sinTable_east : JS.index sinTable 0 = Some 0
}.

Definition cos `{TrigTables} (angle : Z) : option Z :=
  JS.index cosTable (mod_ angle fullCircle).

Definition sin `{TrigTables} (angle : Z) : option Z :=
  JS.index sinTable (mod_ angle fullCircle).

Definition tan `{TrigTables} (angle : Z) : JS.value :=
  if JS.rem (angle - quarterCircle) halfCircle =? 0 then JS.Undefined
  else
    let clampedAngle := mod_ angle halfCircle in
    let tableIndex :=
      if clampedAngle >? quarterCircle then halfCircle - clampedAngle
      else clampedAngle in
    let absResult := JS.index tanTable tableIndex in
    if clampedAngle >? quarterCircle then JS.neg absResult
    else JS.of_option absResult.

(** ** Inverse lookup (lines 186-198)

    The [while (true)] loop is unrolled [fuel] times; [None] means the
    loop is still running.  A comparison with [undefined] is false, so a
    read outside the table falls through to [low = mid]. *)

Fixpoint findIndexOf_loop (fuel : nat) (val : Z) (table : list Z)
    (low high : Z) : option Z :=
  match fuel with
  | O => None
  | S fuel' =>
    if high - low =? 1 then
      match JS.index table high with
      | Some t => Some (if t <=? val then high else low)
      | None => Some low
      end
    else
      let mid := JS.sar (low + high) 1 in
      match JS.index table mid with
      | Some t =>
        if t =? val then Some mid
        else if val <? t then findIndexOf_loop fuel' val table low mid
        else findIndexOf_loop fuel' val table mid high
      | None => findIndexOf_loop fuel' val table mid high
      end
  end.

Definition findIndexOf_fuel (fuel : nat) (val : Z) (table : list Z) : option Z :=
  findIndexOf_loop fuel val table 0 (Z.of_nat (length table) - 1).

(** One iteration per entry is enough whenever the loop terminates at
    all (see [findIndexOf_loop_terminates]). *)
Definition findIndexOf (val : Z) (table : list Z) : option Z :=
  findIndexOf_fuel (length table) val table.

(** The table and the expected results of the regression test
    (lines 915-919). *)
Definition regressionTable : list Z := [3; 7; 15; 15; 16; 18].

Definition regressionExpected : list Z :=
  [0; 0; 0; 0; 0; 0; 0; 1; 1; 1; 1; 1; 1; 1; 1; 2; 4; 4; 5; 5; 5; 5].

(** An ordered table of 2^30 + 2 equal entries, two more than the
    midpoint [(low + high) >> 1] can address. *)
Definition longTable : list Z := replicate (Z.to_nat (2 ^ 30 + 2)) 0.

(** [[...Array(n).keys()]]. *)
Definition keys (n : nat) : list Z := List.map Z.of_nat (List.seq 0 n).

(** ** Interpolation laws (lines 428-449) *)

Definition InterpolationAlgorithm : Type :=
  Z -> Z -> Z -> Z -> Z -> Z -> Z -> Z * Z.

Definition linearInterpolation : InterpolationAlgorithm :=
  fun yMountain1 yMountain2 xScreen1 xScreen2 yScreen1 yScreen2 bisections =>
    (JS.sar (yMountain1 + yMountain2) 1, JS.sar (yScreen1 + yScreen2) 1).

Definition displacementAttenuationPower : Z := 2.

(** The sum of the low bytes of the two elevations. *)
Definition byteSum (yMountain1 yMountain2 : Z) : Z :=
  JS.and yMountain1 255 + JS.and yMountain2 255.

Definition absoluteDisplacement (bisections : Z) : Z :=
  JS.shl 1 (bitsBetweenTops - bisections - displacementAttenuationPower).

Definition screenDisplacement (xScreen1 xScreen2 bisections : Z) : Z :=
  JS.sar (if xScreen2 >? xScreen1 then xScreen2 - xScreen1 else xScreen1 - xScreen2)
         (bisections + displacementAttenuationPower).

Definition fractalInterpolation : InterpolationAlgorithm :=
  fun yMountain1 yMountain2 xScreen1 xScreen2 yScreen1 yScreen2 bisections =>
    let sum := byteSum yMountain1 yMountain2 in
    if sum >? 255 then
      (JS.sar (yMountain1 + yMountain2) 1, JS.sar (yScreen1 + yScreen2) 1)
    else
      if negb (JS.and sum 128 =? 0) then
        (JS.sar (yMountain1 + yMountain2) 1 - absoluteDisplacement bisections,
         JS.sar (yScreen1 + yScreen2) 1
           - screenDisplacement xScreen1 xScreen2 bisections)
      else
        (JS.sar (yMountain1 + yMountain2) 1 + absoluteDisplacement bisections,
         JS.sar (yScreen1 + yScreen2) 1
           + screenDisplacement xScreen1 xScreen2 bisections).

(** The signed displacement the fractal law adds to the midpoint
    elevation: the first component of its result minus the first
    component of the linear law. *)
Definition fractalDisplacement (yMountain1 yMountain2 bisections : Z) : Z :=
  fst (fractalInterpolation yMountain1 yMountain2 0 0 0 0 bisections)
  - fst (linearInterpolation yMountain1 yMountain2 0 0 0 0 bisections).

(** The sign the specification reads off the low byte of the sum of the two
    elevations: positive when bit 7 of that byte is clear. *)
Definition lowByteSign (yMountain1 yMountain2 : Z) : Z :=
  if (yMountain1 + yMountain2) mod 256 <? 128 then 1 else -1.

(** ** Viewport (lines 460-613)

    The canvas is modelled by the list of [drawImage] calls it receives,
    oldest first.  Each call stretches one of the three prepared
    one-pixel images over a rectangle. *)

Inductive pixel : Type :=
| skyPixel
| mountainPixel
| mountainEdgePixel.

Record drawImage : Type := {
  image : pixel;
  dx : Z;
  dy : Z;
  dWidth : Z;
  dHeight : Z
}.

Record Viewport : Type := {
  width : Z;
  height : Z;
  scalePowerOfTwo : Z;
  interpolation : InterpolationAlgorithm;
  topHeights : list Z;
  context : list drawImage
}.

(** The sentinel stored in [topHeights] for a column nothing was drawn on. *)
Definition undrawn : Z := -1.

(** [this.#topHeights = new Array(this.width).fill(-1)] (line 578). *)
Definition resetTopHeights (vp : Viewport) : Viewport :=
  {| width := width vp; height := height vp;
     scalePowerOfTwo := scalePowerOfTwo vp;
     interpolation := interpolation vp;
     topHeights := replicate (Z.to_nat (width vp)) undrawn;
     context := context vp |}.

(** The state after the body of one drawing branch: the calls are
    appended to the canvas and the column's height is overwritten. *)
Definition paintColumn (vp : Viewport) (xScreen mountainTop : Z)
    (calls : list drawImage) : Viewport :=
  {| width := width vp; height := height vp;
     scalePowerOfTwo := scalePowerOfTwo vp;
     interpolation := interpolation vp;
     topHeights := <[Z.to_nat xScreen := mountainTop]> (topHeights vp);
     context := context vp ++ calls |}.

(** [#drawMountainColumn] (lines 519-533).  The guard keeps [xScreen]
    inside [topHeights], so the write never extends the array; a read
    that yields [undefined] fails both tests and nothing happens. *)
Definition drawMountainColumn (vp : Viewport) (xScreen mountainTop : Z) : Viewport :=
  if (xScreen <? 0) || (xScreen >=? width vp) then vp
  else
    match JS.index (topHeights vp) xScreen with
    | None => vp
    | Some topHeight =>
      let s := scalePowerOfTwo vp in
      if topHeight =? undrawn then
        paintColumn vp xScreen mountainTop
          [ {| image := skyPixel; dx := JS.shl xScreen s; dy := 0;
               dWidth := JS.shl 1 s;
               dHeight := JS.shl (height vp - mountainTop) s |};
            {| image := mountainPixel; dx := JS.shl xScreen s;
               dy := JS.shl (height vp - mountainTop) s;
               dWidth := JS.shl 1 s;
               dHeight := JS.shl mountainTop s |} ]
      else if mountainTop >? topHeight then
        paintColumn vp xScreen mountainTop
          [ {| image := mountainEdgePixel; dx := JS.shl xScreen s;
               dy := JS.shl (height vp - topHeight) s;
               dWidth := JS.shl 1 s;
               dHeight := JS.shl 1 s |};
            {| image := mountainPixel; dx := JS.shl xScreen s;
               dy := JS.shl (height vp - mountainTop) s;
               dWidth := JS.shl 1 s;
               dHeight := JS.shl (mountainTop - topHeight) s |} ]
      else vp
    end.

(** Successive candidates for one column. *)
Definition drawMountainColumns (vp : Viewport) (xScreen : Z)
    (mountainTops : list Z) : Viewport :=
  fold_left (fun v top => drawMountainColumn v xScreen top) mountainTops vp.

(** The height recorded for a column, if one has been drawn there. *)
Definition recordedHeight (vp : Viewport) (xScreen : Z) : option Z :=
  match JS.index (topHeights vp) xScreen with
  | Some h => if h =? undrawn then None else Some h
  | None => None
  end.

(** The mountain fills among the calls: one per first paint of a column
    and one per extension. *)
Definition mountainFills (calls : list drawImage) : list drawImage :=
  List.filter
    (fun c => match image c with mountainPixel => true | _ => false end) calls.

(** [#interpolate] (lines 548-560); [None] when the recursion is deeper
    than [fuel]. *)
Fixpoint interpolate (fuel : nat) (vp : Viewport)
    (yMountain1 yMountain2 x1 x2 y1 y2 bisections : Z) : option Viewport :=
  match fuel with
  | O => None
  | S fuel' =>
    if ((x1 <? 0) || (x1 >=? width vp)) && ((x2 <? 0) || (y2 >=? width vp))
    then Some vp
    else
      let midX := JS.sar (x1 + x2) 1 in
      if negb (midX =? x1) && negb (midX =? x2) then
        let '(midMountainY, midScreenY) :=
          interpolation vp yMountain1 yMountain2 x1 x2 y1 y2 bisections in
        let vp1 := drawMountainColumn vp midX midScreenY in
        match interpolate fuel' vp1 yMountain1 midMountainY x1 midX y1
                midScreenY (bisections + 1) with
        | Some vp2 =>
          interpolate fuel' vp2 midMountainY yMountain2 midX x2 midScreenY
            y2 (bisections + 1)
        | None => None
        end
      else Some vp
  end.

(** The viewport built by the page (line 899), before its first frame. *)
Definition pageViewport : Viewport :=
  {| width := viewportWidth; height := viewportHeight;
     scalePowerOfTwo := viewportScalePowerOfTwo;
     interpolation := fractalInterpolation;
     topHeights := [];
     context := [] |}.

(** ** Real-valued arithmetic of the generator (lines 102-118)

    [Math.random] and the double-precision operations on its results are
    supplied by the engine: [random n] is the [n]-th draw and [fl] the
    rounding applied to the exact result of an operation.  Nothing is
    assumed of [fl].  Scaling by a power of two ([* 2], [* maxHeight]) is
    exact in binary floating point and carries no rounding. *)

Class Engine : Type := {
  random : nat -> Q;
  fl : Q -> Q
}.

(** [val < 0 ? 0 : val > max ? max : Math.floor(val)]. *)
Definition clamp (val : Q) (max : Z) : Z :=
  if negb (Qle_bool 0 val) then 0
  else if negb (Qle_bool val (inject_Z max)) then max
  else Qfloor val.

(** [clamp(val + Math.random() * 2 * varyBy - varyBy, max)], with [r] the
    value returned by [Math.random()]. *)
Definition vary `{Engine} (r : Q) (val : Q) (varyBy max : Z) : Z :=
  clamp (fl (fl (val + fl (r * 2 * inject_Z varyBy)) - inject_Z varyBy)) max.

(** [vals.reduce((acc, val) => acc + val, 0)]. *)
Definition reduceSum (vals : list Z) : Z := fold_left Z.add vals 0.

(** Only ever called with four values; the quotient of an empty list,
    NaN in JavaScript, is outside the model. *)
Definition varyFromAverage `{Engine} (r : Q) (vals : list Z) (varyBy : Z) : Z :=
  vary r (fl (inject_Z (reduceSum vals) / inject_Z (Z.of_nat (length vals))))
       varyBy maxHeight.

(** ** Elevation map (lines 240-345) *)

Module Map.

(** [changes] is what a registered change handler has been called with,
    oldest call first. *)
Record t : Type := {
  size : Z;
  map : list (list Z);
  changes : list (Z * Z * Z)
}.

(** [new Map(size)]: a [size] by [size] grid of zeros, for a size that
    [Array(size)] accepts (a non-negative integer). *)
Definition new (size : Z) : t :=
  {| size := size;
     map := replicate (Z.to_nat size) (replicate (Z.to_nat size) 0);
     changes := [] |}.

(** [get] (line 278).  [None] stands for a read that leaves the grid: a
    missing row (a TypeError in JavaScript) or a missing cell
    ([undefined]).  With [size = 0] both indices are NaN. *)
Definition get (m : t) (row col : Z) : option Z :=
  if size m =? 0 then None
  else
    match JS.index (map m) (mod_ row (size m)) with
    | Some cells => JS.index cells (mod_ col (size m))
    | None => None
    end.

(** [set] (lines 286-292).  [None] stands for a write that leaves the
    grid: a missing row (a TypeError), or a cell that is not there yet
    (JavaScript would add it to the row). *)
Definition set (m : t) (row col : Z) (val : Q) : option t :=
  let val := Qfloor val in
  let row := mod_ row (size m) in
  let col := mod_ col (size m) in
  if size m =? 0 then None
  else
    match JS.index (map m) row with
    | Some cells =>
      match JS.index cells col with
      | Some _ =>
        Some {| size := size m;
                map := <[Z.to_nat row := <[Z.to_nat col := val]> cells]> (map m);
                changes := changes m ++ [(row, col, val)] |}
      | None => None
      end
    | None => None
    end.

(** A grid as the constructor builds it and [set] keeps it. *)
Definition square_grid (m : t) : Prop :=
  length (map m) = Z.to_nat (size m) /\
  Forall (fun cells => length cells = Z.to_nat (size m)) (map m).

(** Every cell and every notified value lies within [lo .. hi]. *)
Definition within (lo hi : Z) (m : t) : Prop :=
  Forall (Forall (fun v => lo <= v <= hi)) (map m) /\
  Forall (fun c => lo <= snd c <= hi) (changes m).

End Map.

(** *** Generation (lines 295-301 and 321-344)

    The generator threads the map and the number of random draws made so
    far.  [None] is a failed access to the grid or exhausted fuel. *)

Definition Gen (A : Type) : Type := Map.t * nat -> option (A * (Map.t * nat)).

Definition ret {A : Type} (a : A) : Gen A := fun s => Some (a, s).

Definition bind {A B : Type} (c : Gen A) (k : A -> Gen B) : Gen B :=
  fun s =>
    match c s with
    | Some (a, s') => k a s'
    | None => None
    end.

Notation "x <~ c ;; k" := (bind c (fun x => k))
  (at level 100, c at next level, right associativity).
Notation "c ;;; k" := (bind c (fun _ => k))
  (at level 100, right associativity).

Definition this_get (row col : Z) : Gen Z :=
  fun '(m, n) =>
    match Map.get m row col with
    | Some v => Some (v, (m, n))
    | None => None
    end.

Definition this_set (row col : Z) (val : Q) : Gen unit :=
  fun '(m, n) =>
    match Map.set m row col val with
    | Some m' => Some (tt, (m', n))
    | None => None
    end.

Definition this_size : Gen Z := fun '(m, n) => Some (Map.size m, (m, n)).

(** [Math.random()]. *)
Definition nextRandom `{Engine} : Gen Q :=
  fun '(m, n) => Some (random n, (m, S n)).

(** [#square] (lines 321-331), with the recursive calls to [#diamond]
    passed in. *)
Definition square_with `{Engine} (diamond : Z -> Z -> Z -> Gen unit)
    (row col size : Z) : Gen unit :=
  if size <=? 1 then ret tt
  else
    let halfSize := JS.sar size 1 in
    a <~ this_get (row - halfSize) col ;;
    b <~ this_get (row + halfSize) col ;;
    c <~ this_get row (col + halfSize) ;;
    d <~ this_get row (col - halfSize) ;;
    r <~ nextRandom ;;
    this_set (row + halfSize) (col + halfSize)
        (inject_Z (varyFromAverage r [a; b; c; d] (maxVariation * size))) ;;;
    diamond row col halfSize ;;;
    diamond (row - halfSize) col halfSize.

(** [#diamond] (lines 333-344). *)
Fixpoint diamond `{Engine} (fuel : nat) (row col size : Z) : Gen unit :=
  match fuel with
  | O => fun _ => None
  | S fuel' =>
    if size <=? 1 then ret tt
    else
      let halfSize := JS.sar size 1 in
      let halfSizex2 := JS.shl halfSize 1 in
      a <~ this_get row col ;;
      b <~ this_get row (col + halfSizex2) ;;
      c <~ this_get (row + halfSizex2) col ;;
      d <~ this_get (row + halfSizex2) (col + halfSizex2) ;;
      r <~ nextRandom ;;
      this_set (row + halfSize) (col + halfSize)
          (inject_Z (varyFromAverage r [a; b; c; d] (maxVariation * size))) ;;;
      square_with (diamond fuel') (row + halfSizex2) (col + halfSize) size ;;;
      square_with (diamond fuel') (row + halfSize) (col + halfSizex2) size
  end.

Definition square `{Engine} (fuel : nat) : Z -> Z -> Z -> Gen unit :=
  square_with (diamond fuel).

(** [generate] (lines 295-301). *)
Definition generate `{Engine} (fuel : nat) : Gen unit :=
  r <~ nextRandom ;;
  this_set 0 0 (r * inject_Z maxHeight) ;;;
  n <~ this_size ;;
  diamond fuel 0 0 n.

(** The state of a map of size [N] that generation maintains: a square
    grid whose cells and notified values are elevations. *)
Definition generated (N : Z) (m : Map.t) : Prop :=
  Map.size m = N /\ Map.square_grid m /\ Map.within 0 maxHeight m.

(** A step that, started on such a map, runs to completion and leaves
    such a map. *)
Definition keeps (N : Z) {A : Type} (c : Gen A) : Prop :=
  forall (m : Map.t) (n : nat),
    generated N m ->
    exists a m' n', c (m, n) = Some (a, (m', n')) /\ generated N m'.

(** [c'] completes wherever [c] does, with the same outcome. *)
Definition refines {A : Type} (c c' : Gen A) : Prop :=
  forall s r, c s = Some r -> c' s = Some r.

(** *** What the steps write

    The value the specification describes: the average of four cells plus a
    random perturbation, clamped into [0, maxHeight]; [r] is the draw. *)
Definition variedAverage `{Engine} (r : Q) (a b c d varyBy : Z) : Z :=
  clamp (fl (fl (fl (inject_Z (a + b + c + d) / inject_Z 4)
                 + fl (r * 2 * inject_Z varyBy))
             - inject_Z varyBy)) maxHeight.

(** The cells a diamond step called with [(row, col, size)] reads: the
    corners of the square whose centre it writes. *)
Definition corners (row col size : Z) : list (Z * Z) :=
  let halfSizex2 := JS.shl (JS.sar size 1) 1 in
  [(row, col); (row, col + halfSizex2); (row + halfSizex2, col);
   (row + halfSizex2, col + halfSizex2)].

(** The cells a square step called with [(row, col, size)] reads: those
    above, below, right and left of [(row, col)]. *)
Definition cross (row col size : Z) : list (Z * Z) :=
  let halfSize := JS.sar size 1 in
  [(row - halfSize, col); (row + halfSize, col); (row, col + halfSize);
   (row, col - halfSize)].

(** The notification [change] is that of a diamond or square step run
    on the map [m] with the draw number [n]: some call [(row, col, size)]
    reads its four cells and stores their varied average at
    [(row + halfSize, col + halfSize)]. *)
Definition averagedWrite `{Engine} (n : nat) (m : Map.t) (change : Z * Z * Z) : Prop :=
  exists row col size a b c d,
    1 < size <= Map.size m /\
    (List.map (fun cell => Map.get m (fst cell) (snd cell)) (corners row col size)
     = [Some a; Some b; Some c; Some d] \/
     List.map (fun cell => Map.get m (fst cell) (snd cell)) (cross row col size)
     = [Some a; Some b; Some c; Some d]) /\
    change = (mod_ (row + JS.sar size 1) (Map.size m),
              mod_ (col + JS.sar size 1) (Map.size m),
              variedAverage (random n) a b c d (maxVariation * size)).

(** From the map [m] and the draw number [n], the writes of [log] are
    made in order, each a varied average computed on the map as the
    writes before it left it, each with the next draw; [m'] is the map
    they leave. *)
Inductive averagedWrites `{Engine} :
    nat -> Map.t -> list (Z * Z * Z) -> Map.t -> Prop :=
| averagedWrites_nil (n : nat) (m : Map.t) : averagedWrites n m [] m
| averagedWrites_cons (n : nat) (m m1 m' : Map.t) (row col val : Z)
    (log : list (Z * Z * Z)) :
    averagedWrite n m (row, col, val) ->
    Map.set m row col (inject_Z val) = Some m1 ->
    averagedWrites (S n) m1 log m' ->
    averagedWrites n m ((row, col, val) :: log) m'.

(** A step that only writes such averages, one draw each, whenever it
    completes. *)
Definition traced `{Engine} (N : Z) (c : Gen unit) : Prop :=
  forall (m m' : Map.t) (n n' : nat),
    Map.size m = N ->
    c (m, n) = Some (tt, (m', n')) ->
    exists log,
      Map.size m' = N /\
      Map.changes m' = Map.changes m ++ log /\
      n' = (n + length log)%nat /\
      averagedWrites n m log m'.

(** ** The ship (lines 631-681) *)

Module Valkyrie.

Record t : Type := {
  x : Z;
  y : Z;
  z : Z;
  thrust : Z;
  heading : Z;
  pitch : Z;
  roll : Z;
  rollToAngle : Z
}.

(** [a * b] where either factor may be [undefined]. *)
Definition times (a b : option Z) : option Z :=
  match a, b with
  | Some a, Some b => Some (a * b)
  | _, _ => None
  end.

(** The two tables [move] reads, and a computation that records every
    table read it makes: the table and the index, in program order. *)
Inductive tableName : Type := CosTable | SinTable.

Definition tableOf `{TrigTables} (name : tableName) : list Z :=
  match name with
  | CosTable => cosTable
  | SinTable => sinTable
  end.

Definition Reads (A : Type) : Type := list (tableName * Z) * A.

Definition done {A : Type} (a : A) : Reads A := ([], a).

Definition andThen {A B : Type} (c : Reads A) (k : A -> Reads B) : Reads B :=
  (fst c ++ fst (k (snd c)), snd (k (snd c))).

(** [cosTable[i]] or [sinTable[i]]. *)
Definition read `{TrigTables} (name : tableName) (i : Z) : Reads (option Z) :=
  ([(name, i)], JS.index (tableOf name) i).

(** [move] (lines 673-678).  The tables are indexed directly: by the
    freshly normalised heading and by the pitch as stored.  A product
    with [undefined] is NaN, which [>>] turns into 0.  Products and sums
    are those of the integers; the doubles of the code agree with them
    as long as they stay within 2^53 in absolute value, beyond which
    the code rounds. *)
Definition moveLogged `{TrigTables} (ship : t) : Reads t :=
  let heading := mod_ (heading ship + roll ship * rollToAngle ship) fullCircle in
  andThen (read CosTable heading) (fun cosHeading =>
  andThen (read CosTable (pitch ship)) (fun cosPitch =>
  let x :=
    mod_ (x ship
          + JS.sar (JS.sar_nan (times (times (Some (thrust ship)) cosHeading)
                                      cosPitch)
                               bitsBetweenTops) bitsBetweenTops)
         (JS.shl 1 coordinateBits) in
  andThen (read SinTable heading) (fun sinHeading =>
  andThen (read CosTable (pitch ship)) (fun cosPitch' =>
  let y :=
    mod_ (y ship
          - JS.sar (JS.sar_nan (times (times (Some (thrust ship)) sinHeading)
                                      cosPitch')
                               bitsBetweenTops) bitsBetweenTops)
         (JS.shl 1 coordinateBits) in
  andThen (read SinTable (pitch ship)) (fun sinPitch =>
  let z :=
    clamp (inject_Z (z ship
                     + JS.sar_nan (times (Some (thrust ship)) sinPitch)
                                  bitsBetweenTops))
          (JS.shl 1 coordinateBits) in
  done {| x := x; y := y; z := z; thrust := thrust ship; heading := heading;
          pitch := pitch ship; roll := roll ship;
          rollToAngle := rollToAngle ship |}))))).

Definition move `{TrigTables} (ship : t) : t := snd (moveLogged ship).

Definition moveReads `{TrigTables} (ship : t) : list (tableName * Z) :=
  fst (moveLogged ship).

(** A read that falls inside its table. *)
Definition inBounds `{TrigTables} (access : tableName * Z) : Prop :=
  0 <= snd access < Z.of_nat (length (tableOf (fst access))).

End Valkyrie.

(** The ship built by the page (line 886). *)
Definition pageShip : Valkyrie.t := {|
  Valkyrie.x := JS.sar (JS.shl 1 coordinateBits) 1;
  Valkyrie.y := JS.sar (JS.shl 1 coordinateBits) 1;
  Valkyrie.z := maxHeight;
  Valkyrie.thrust := defaultThrust;
  Valkyrie.heading := north;
  Valkyrie.pitch := 0;
  Valkyrie.roll := 0;
  Valkyrie.rollToAngle := 1
|}.

(** ** Reference tables

    The values of the three generating expressions under correctly
    rounded double-precision [cos], [sin] and [tan].  An engine whose
    approximations differ in the last place may produce a neighbouring
    integer at the few angles where the scaled value is within rounding
    distance of an integer; the results below depend on [TablesBuilt]
    only. *)

(** [Math.floor(Math.cos(angle * Math.PI / halfCircle) * (1 << bitsBetweenTops))]
    for [angle = 0 .. fullCircle - 1] (line 121). *)
Definition cosTable_values : list Z :=
  [4096; 4095; 4095; 4095; 4095; 4095; 4094; 4094; 4093; 4092; 4092; 4091;
   4090; 4089; 4088; 4087; 4086; 4084; 4083; 4081; 4080; 4078; 4077; 4075;
   4073; 4071; 4069; 4067; 4065; 4063; 4060; 4058; 4056; 4053; 4051; 4048;
   4045; 4042; 4039; 4036; 4033; 4030; 4027; 4024; 4020; 4017; 4013; 4010;
   4006; 4002; 3998; 3995; 3991; 3986; 3982; 3978; 3974; 3969; 3965; 3961;
   3956; 3951; 3947; 3942; 3937; 3932; 3927; 3922; 3917; 3911; 3906; 3901;
   3895; 3889; 3884; 3878; 3872; 3866; 3861; 3855; 3848; 3842; 3836; 3830;
   3823; 3817; 3810; 3804; 3797; 3791; 3784; 3777; 3770; 3763; 3756; 3749;
   3741; 3734; 3727; 3719; 3712; 3704; 3696; 3689; 3681; 3673; 3665; 3657;
   3649; 3641; 3633; 3624; 3616; 3608; 3599; 3591; 3582; 3573; 3564; 3556;
   3547; 3538; 3529; 3520; 3510; 3501; 3492; 3483; 3473; 3464; 3454; 3444;
   3435; 3425; 3415; 3405; 3395; 3385; 3375; 3365; 3355; 3344; 3334; 3324;
   3313; 3303; 3292; 3281; 3271; 3260; 3249; 3238; 3227; 3216; 3205; 3194;
   3183; 3171; 3160; 3149; 3137; 3126; 3114; 3102; 3091; 3079; 3067; 3055;
   3043; 3031; 3019; 3007; 2995; 2983; 2971; 2958; 2946; 2933; 2921; 2908;
   2896; 2883; 2870; 2858; 2845; 2832; 2819; 2806; 2793; 2780; 2767; 2754;
   2740; 2727; 2714; 2700; 2687; 2673; 2660; 2646; 2632; 2619; 2605; 2591;
   2577; 2563; 2549; 2535; 2521; 2507; 2493; 2479; 2465; 2450; 2436; 2422;
   2407; 2393; 2378; 2363; 2349; 2334; 2319; 2305; 2290; 2275; 2260; 2245;
   2230; 2215; 2200; 2185; 2170; 2155; 2140; 2124; 2109; 2094; 2078; 2063;
   2048; 2032; 2016; 2001; 1985; 1970; 1954; 1938; 1922; 1907; 1891; 1875;
   1859; 1843; 1827; 1811; 1795; 1779; 1763; 1747; 1731; 1714; 1698; 1682;
   1665; 1649; 1633; 1616; 1600; 1583; 1567; 1550; 1534; 1517; 1501; 1484;
   1467; 1451; 1434; 1417; 1400; 1384; 1367; 1350; 1333; 1316; 1299; 1282;
   1265; 1248; 1231; 1214; 1197; 1180; 1163; 1146; 1129; 1111; 1094; 1077;
   1060; 1042; 1025; 1008; 990; 973; 956; 938; 921; 903; 886; 869; 851; 834;
   816; 799; 781; 764; 746; 728; 711; 693; 676; 658; 640; 623; 605; 587; 570;
   552; 534; 516; 499; 481; 463; 445; 428; 410; 392; 374; 356; 339; 321; 303;
   285; 267; 250; 232; 214; 196; 178; 160; 142; 125; 107; 89; 71; 53; 35; 17;
   0; (-18); (-36); (-54); (-72); (-90); (-108); (-126); (-143); (-161);
   (-179); (-197); (-215); (-233); (-251); (-268); (-286); (-304); (-322);
   (-340); (-357); (-375); (-393); (-411); (-429); (-446); (-464); (-482);
   (-500); (-517); (-535); (-553); (-571); (-588); (-606); (-624); (-641);
   (-659); (-677); (-694); (-712); (-729); (-747); (-765); (-782); (-800);
   (-817); (-835); (-852); (-870); (-887); (-904); (-922); (-939); (-957);
   (-974); (-991); (-1009); (-1026); (-1043); (-1061); (-1078); (-1095);
   (-1112); (-1130); (-1147); (-1164); (-1181); (-1198); (-1215); (-1232);
   (-1249); (-1266); (-1283); (-1300); (-1317); (-1334); (-1351); (-1368);
   (-1385); (-1401); (-1418); (-1435); (-1452); (-1468); (-1485); (-1502);
   (-1518); (-1535); (-1551); (-1568); (-1584); (-1601); (-1617); (-1634);
   (-1650); (-1666); (-1683); (-1699); (-1715); (-1732); (-1748); (-1764);
   (-1780); (-1796); (-1812); (-1828); (-1844); (-1860); (-1876); (-1892);
   (-1908); (-1923); (-1939); (-1955); (-1971); (-1986); (-2002); (-2017);
   (-2033); (-2048); (-2064); (-2079); (-2095); (-2110); (-2125); (-2141);
   (-2156); (-2171); (-2186); (-2201); (-2216); (-2231); (-2246); (-2261);
   (-2276); (-2291); (-2306); (-2320); (-2335); (-2350); (-2364); (-2379);
   (-2394); (-2408); (-2423); (-2437); (-2451); (-2466); (-2480); (-2494);
   (-2508); (-2522); (-2536); (-2550); (-2564); (-2578); (-2592); (-2606);
   (-2620); (-2633); (-2647); (-2661); (-2674); (-2688); (-2701); (-2715);
   (-2728); (-2741); (-2755); (-2768); (-2781); (-2794); (-2807); (-2820);
   (-2833); (-2846); (-2859); (-2871); (-2884); (-2897); (-2909); (-2922);
   (-2934); (-2947); (-2959); (-2972); (-2984); (-2996); (-3008); (-3020);
   (-3032); (-3044); (-3056); (-3068); (-3080); (-3092); (-3103); (-3115);
   (-3127); (-3138); (-3150); (-3161); (-3172); (-3184); (-3195); (-3206);
   (-3217); (-3228); (-3239); (-3250); (-3261); (-3272); (-3282); (-3293);
   (-3304); (-3314); (-3325); (-3335); (-3345); (-3356); (-3366); (-3376);
   (-3386); (-3396); (-3406); (-3416); (-3426); (-3436); (-3445); (-3455);
   (-3465); (-3474); (-3484); (-3493); (-3502); (-3511); (-3521); (-3530);
   (-3539); (-3548); (-3557); (-3565); (-3574); (-3583); (-3592); (-3600);
   (-3609); (-3617); (-3625); (-3634); (-3642); (-3650); (-3658); (-3666);
   (-3674); (-3682); (-3690); (-3697); (-3705); (-3713); (-3720); (-3728);
   (-3735); (-3742); (-3750); (-3757); (-3764); (-3771); (-3778); (-3785);
   (-3792); (-3798); (-3805); (-3811); (-3818); (-3824); (-3831); (-3837);
   (-3843); (-3849); (-3856); (-3862); (-3867); (-3873); (-3879); (-3885);
   (-3890); (-3896); (-3902); (-3907); (-3912); (-3918); (-3923); (-3928);
   (-3933); (-3938); (-3943); (-3948); (-3952); (-3957); (-3962); (-3966);
   (-3970); (-3975); (-3979); (-3983); (-3987); (-3992); (-3996); (-3999);
   (-4003); (-4007); (-4011); (-4014); (-4018); (-4021); (-4025); (-4028);
   (-4031); (-4034); (-4037); (-4040); (-4043); (-4046); (-4049); (-4052);
   (-4054); (-4057); (-4059); (-4061); (-4064); (-4066); (-4068); (-4070);
   (-4072); (-4074); (-4076); (-4078); (-4079); (-4081); (-4082); (-4084);
   (-4085); (-4087); (-4088); (-4089); (-4090); (-4091); (-4092); (-4093);
   (-4093); (-4094); (-4095); (-4095); (-4096); (-4096); (-4096); (-4096);
   (-4096); (-4096); (-4096); (-4096); (-4096); (-4096); (-4096); (-4095);
   (-4095); (-4094); (-4093); (-4093); (-4092); (-4091); (-4090); (-4089);
   (-4088); (-4087); (-4085); (-4084); (-4082); (-4081); (-4079); (-4078);
   (-4076); (-4074); (-4072); (-4070); (-4068); (-4066); (-4064); (-4061);
   (-4059); (-4057); (-4054); (-4052); (-4049); (-4046); (-4043); (-4040);
   (-4037); (-4034); (-4031); (-4028); (-4025); (-4021); (-4018); (-4014);
   (-4011); (-4007); (-4003); (-3999); (-3996); (-3992); (-3987); (-3983);
   (-3979); (-3975); (-3970); (-3966); (-3962); (-3957); (-3952); (-3948);
   (-3943); (-3938); (-3933); (-3928); (-3923); (-3918); (-3912); (-3907);
   (-3902); (-3896); (-3890); (-3885); (-3879); (-3873); (-3867); (-3862);
   (-3856); (-3849); (-3843); (-3837); (-3831); (-3824); (-3818); (-3811);
   (-3805); (-3798); (-3792); (-3785); (-3778); (-3771); (-3764); (-3757);
   (-3750); (-3742); (-3735); (-3728); (-3720); (-3713); (-3705); (-3697);
   (-3690); (-3682); (-3674); (-3666); (-3658); (-3650); (-3642); (-3634);
   (-3625); (-3617); (-3609); (-3600); (-3592); (-3583); (-3574); (-3565);
   (-3557); (-3548); (-3539); (-3530); (-3521); (-3511); (-3502); (-3493);
   (-3484); (-3474); (-3465); (-3455); (-3445); (-3436); (-3426); (-3416);
   (-3406); (-3396); (-3386); (-3376); (-3366); (-3356); (-3345); (-3335);
   (-3325); (-3314); (-3304); (-3293); (-3282); (-3272); (-3261); (-3250);
   (-3239); (-3228); (-3217); (-3206); (-3195); (-3184); (-3172); (-3161);
   (-3150); (-3138); (-3127); (-3115); (-3103); (-3092); (-3080); (-3068);
   (-3056); (-3044); (-3032); (-3020); (-3008); (-2996); (-2984); (-2972);
   (-2959); (-2947); (-2934); (-2922); (-2909); (-2897); (-2884); (-2871);
   (-2859); (-2846); (-2833); (-2820); (-2807); (-2794); (-2781); (-2768);
   (-2755); (-2741); (-2728); (-2715); (-2701); (-2688); (-2674); (-2661);
   (-2647); (-2633); (-2620); (-2606); (-2592); (-2578); (-2564); (-2550);
   (-2536); (-2522); (-2508); (-2494); (-2480); (-2466); (-2451); (-2437);
   (-2423); (-2408); (-2394); (-2379); (-2364); (-2350); (-2335); (-2320);
   (-2306); (-2291); (-2276); (-2261); (-2246); (-2231); (-2216); (-2201);
   (-2186); (-2171); (-2156); (-2141); (-2125); (-2110); (-2095); (-2079);
   (-2064); (-2049); (-2033); (-2017); (-2002); (-1986); (-1971); (-1955);
   (-1939); (-1923); (-1908); (-1892); (-1876); (-1860); (-1844); (-1828);
   (-1812); (-1796); (-1780); (-1764); (-1748); (-1732); (-1715); (-1699);
   (-1683); (-1666); (-1650); (-1634); (-1617); (-1601); (-1584); (-1568);
   (-1551); (-1535); (-1518); (-1502); (-1485); (-1468); (-1452); (-1435);
   (-1418); (-1401); (-1385); (-1368); (-1351); (-1334); (-1317); (-1300);
   (-1283); (-1266); (-1249); (-1232); (-1215); (-1198); (-1181); (-1164);
   (-1147); (-1130); (-1112); (-1095); (-1078); (-1061); (-1043); (-1026);
   (-1009); (-991); (-974); (-957); (-939); (-922); (-904); (-887); (-870);
   (-852); (-835); (-817); (-800); (-782); (-765); (-747); (-729); (-712);
   (-694); (-677); (-659); (-641); (-624); (-606); (-588); (-571); (-553);
   (-535); (-517); (-500); (-482); (-464); (-446); (-429); (-411); (-393);
   (-375); (-357); (-340); (-322); (-304); (-286); (-268); (-251); (-233);
   (-215); (-197); (-179); (-161); (-143); (-126); (-108); (-90); (-72);
   (-54); (-36); (-18); (-1); 17; 35; 53; 71; 89; 107; 125; 142; 160; 178;
   196; 214; 232; 250; 267; 285; 303; 321; 339; 356; 374; 392; 410; 428; 445;
   463; 481; 499; 516; 534; 552; 570; 587; 605; 623; 640; 658; 676; 693; 711;
   728; 746; 764; 781; 799; 816; 834; 851; 869; 886; 903; 921; 938; 956; 973;
   990; 1008; 1025; 1042; 1060; 1077; 1094; 1111; 1129; 1146; 1163; 1180;
   1197; 1214; 1231; 1248; 1265; 1282; 1299; 1316; 1333; 1350; 1367; 1384;
   1400; 1417; 1434; 1451; 1467; 1484; 1501; 1517; 1534; 1550; 1567; 1583;
   1600; 1616; 1633; 1649; 1665; 1682; 1698; 1714; 1731; 1747; 1763; 1779;
   1795; 1811; 1827; 1843; 1859; 1875; 1891; 1907; 1922; 1938; 1954; 1970;
   1985; 2001; 2016; 2032; 2048; 2063; 2078; 2094; 2109; 2124; 2140; 2155;
   2170; 2185; 2200; 2215; 2230; 2245; 2260; 2275; 2290; 2305; 2319; 2334;
   2349; 2363; 2378; 2393; 2407; 2422; 2436; 2450; 2465; 2479; 2493; 2507;
   2521; 2535; 2549; 2563; 2577; 2591; 2605; 2619; 2632; 2646; 2660; 2673;
   2687; 2700; 2714; 2727; 2740; 2754; 2767; 2780; 2793; 2806; 2819; 2832;
   2845; 2858; 2870; 2883; 2896; 2908; 2921; 2933; 2946; 2958; 2971; 2983;
   2995; 3007; 3019; 3031; 3043; 3055; 3067; 3079; 3091; 3102; 3114; 3126;
   3137; 3149; 3160; 3171; 3183; 3194; 3205; 3216; 3227; 3238; 3249; 3260;
   3271; 3281; 3292; 3303; 3313; 3324; 3334; 3344; 3355; 3365; 3375; 3385;
   3395; 3405; 3415; 3425; 3435; 3444; 3454; 3464; 3473; 3483; 3492; 3501;
   3510; 3520; 3529; 3538; 3547; 3556; 3564; 3573; 3582; 3591; 3599; 3608;
   3616; 3624; 3633; 3641; 3649; 3657; 3665; 3673; 3681; 3689; 3696; 3704;
   3712; 3719; 3727; 3734; 3741; 3749; 3756; 3763; 3770; 3777; 3784; 3791;
   3797; 3804; 3810; 3817; 3823; 3830; 3836; 3842; 3848; 3855; 3861; 3866;
   3872; 3878; 3884; 3889; 3895; 3901; 3906; 3911; 3917; 3922; 3927; 3932;
   3937; 3942; 3947; 3951; 3956; 3961; 3965; 3969; 3974; 3978; 3982; 3986;
   3991; 3995; 3998; 4002; 4006; 4010; 4013; 4017; 4020; 4024; 4027; 4030;
   4033; 4036; 4039; 4042; 4045; 4048; 4051; 4053; 4056; 4058; 4060; 4063;
   4065; 4067; 4069; 4071; 4073; 4075; 4077; 4078; 4080; 4081; 4083; 4084;
   4086; 4087; 4088; 4089; 4090; 4091; 4092; 4092; 4093; 4094; 4094; 4095;
   4095; 4095; 4095; 4095].

(** [Math.floor(Math.sin(angle * Math.PI / halfCircle) * (1 << bitsBetweenTops))]
    for [angle = 0 .. fullCircle - 1] (line 129). *)
Definition sinTable_values : list Z :=
  [0; 17; 35; 53; 71; 89; 107; 125; 142; 160; 178; 196; 214; 232; 250; 267;
   285; 303; 321; 339; 356; 374; 392; 410; 428; 445; 463; 481; 499; 516; 534;
   552; 570; 587; 605; 623; 640; 658; 676; 693; 711; 728; 746; 764; 781; 799;
   816; 834; 851; 869; 886; 903; 921; 938; 956; 973; 990; 1008; 1025; 1042;
   1060; 1077; 1094; 1111; 1129; 1146; 1163; 1180; 1197; 1214; 1231; 1248;
   1265; 1282; 1299; 1316; 1333; 1350; 1367; 1384; 1400; 1417; 1434; 1451;
   1467; 1484; 1501; 1517; 1534; 1550; 1567; 1583; 1600; 1616; 1633; 1649;
   1665; 1682; 1698; 1714; 1731; 1747; 1763; 1779; 1795; 1811; 1827; 1843;
   1859; 1875; 1891; 1907; 1922; 1938; 1954; 1970; 1985; 2001; 2016; 2032;
   2047; 2063; 2078; 2094; 2109; 2124; 2140; 2155; 2170; 2185; 2200; 2215;
   2230; 2245; 2260; 2275; 2290; 2305; 2319; 2334; 2349; 2363; 2378; 2393;
   2407; 2422; 2436; 2450; 2465; 2479; 2493; 2507; 2521; 2535; 2549; 2563;
   2577; 2591; 2605; 2619; 2632; 2646; 2660; 2673; 2687; 2700; 2714; 2727;
   2740; 2754; 2767; 2780; 2793; 2806; 2819; 2832; 2845; 2858; 2870; 2883;
   2896; 2908; 2921; 2933; 2946; 2958; 2971; 2983; 2995; 3007; 3019; 3031;
   3043; 3055; 3067; 3079; 3091; 3102; 3114; 3126; 3137; 3149; 3160; 3171;
   3183; 3194; 3205; 3216; 3227; 3238; 3249; 3260; 3271; 3281; 3292; 3303;
   3313; 3324; 3334; 3344; 3355; 3365; 3375; 3385; 3395; 3405; 3415; 3425;
   3435; 3444; 3454; 3464; 3473; 3483; 3492; 3501; 3510; 3520; 3529; 3538;
   3547; 3556; 3564; 3573; 3582; 3591; 3599; 3608; 3616; 3624; 3633; 3641;
   3649; 3657; 3665; 3673; 3681; 3689; 3696; 3704; 3712; 3719; 3727; 3734;
   3741; 3749; 3756; 3763; 3770; 3777; 3784; 3791; 3797; 3804; 3810; 3817;
   3823; 3830; 3836; 3842; 3848; 3855; 3861; 3866; 3872; 3878; 3884; 3889;
   3895; 3901; 3906; 3911; 3917; 3922; 3927; 3932; 3937; 3942; 3947; 3951;
   3956; 3961; 3965; 3969; 3974; 3978; 3982; 3986; 3991; 3995; 3998; 4002;
   4006; 4010; 4013; 4017; 4020; 4024; 4027; 4030; 4033; 4036; 4039; 4042;
   4045; 4048; 4051; 4053; 4056; 4058; 4060; 4063; 4065; 4067; 4069; 4071;
   4073; 4075; 4077; 4078; 4080; 4081; 4083; 4084; 4086; 4087; 4088; 4089;
   4090; 4091; 4092; 4092; 4093; 4094; 4094; 4095; 4095; 4095; 4095; 4095;
   4096; 4095; 4095; 4095; 4095; 4095; 4094; 4094; 4093; 4092; 4092; 4091;
   4090; 4089; 4088; 4087; 4086; 4084; 4083; 4081; 4080; 4078; 4077; 4075;
   4073; 4071; 4069; 4067; 4065; 4063; 4060; 4058; 4056; 4053; 4051; 4048;
   4045; 4042; 4039; 4036; 4033; 4030; 4027; 4024; 4020; 4017; 4013; 4010;
   4006; 4002; 3998; 3995; 3991; 3986; 3982; 3978; 3974; 3969; 3965; 3961;
   3956; 3951; 3947; 3942; 3937; 3932; 3927; 3922; 3917; 3911; 3906; 3901;
   3895; 3889; 3884; 3878; 3872; 3866; 3861; 3855; 3848; 3842; 3836; 3830;
   3823; 3817; 3810; 3804; 3797; 3791; 3784; 3777; 3770; 3763; 3756; 3749;
   3741; 3734; 3727; 3719; 3712; 3704; 3696; 3689; 3681; 3673; 3665; 3657;
   3649; 3641; 3633; 3624; 3616; 3608; 3599; 3591; 3582; 3573; 3564; 3556;
   3547; 3538; 3529; 3520; 3510; 3501; 3492; 3483; 3473; 3464; 3454; 3444;
   3435; 3425; 3415; 3405; 3395; 3385; 3375; 3365; 3355; 3344; 3334; 3324;
   3313; 3303; 3292; 3281; 3271; 3260; 3249; 3238; 3227; 3216; 3205; 3194;
   3183; 3171; 3160; 3149; 3137; 3126; 3114; 3102; 3091; 3079; 3067; 3055;
   3043; 3031; 3019; 3007; 2995; 2983; 2971; 2958; 2946; 2933; 2921; 2908;
   2896; 2883; 2870; 2858; 2845; 2832; 2819; 2806; 2793; 2780; 2767; 2754;
   2740; 2727; 2714; 2700; 2687; 2673; 2660; 2646; 2632; 2619; 2605; 2591;
   2577; 2563; 2549; 2535; 2521; 2507; 2493; 2479; 2465; 2450; 2436; 2422;
   2407; 2393; 2378; 2363; 2349; 2334; 2319; 2305; 2290; 2275; 2260; 2245;
   2230; 2215; 2200; 2185; 2170; 2155; 2140; 2124; 2109; 2094; 2078; 2063;
   2047; 2032; 2016; 2001; 1985; 1970; 1954; 1938; 1922; 1907; 1891; 1875;
   1859; 1843; 1827; 1811; 1795; 1779; 1763; 1747; 1731; 1714; 1698; 1682;
   1665; 1649; 1633; 1616; 1600; 1583; 1567; 1550; 1534; 1517; 1501; 1484;
   1467; 1451; 1434; 1417; 1400; 1384; 1367; 1350; 1333; 1316; 1299; 1282;
   1265; 1248; 1231; 1214; 1197; 1180; 1163; 1146; 1129; 1111; 1094; 1077;
   1060; 1042; 1025; 1008; 990; 973; 956; 938; 921; 903; 886; 869; 851; 834;
   816; 799; 781; 764; 746; 728; 711; 693; 676; 658; 640; 623; 605; 587; 570;
   552; 534; 516; 499; 481; 463; 445; 428; 410; 392; 374; 356; 339; 321; 303;
   285; 267; 250; 232; 214; 196; 178; 160; 142; 125; 107; 89; 71; 53; 35; 17;
   0; (-18); (-36); (-54); (-72); (-90); (-108); (-126); (-143); (-161);
   (-179); (-197); (-215); (-233); (-251); (-268); (-286); (-304); (-322);
   (-340); (-357); (-375); (-393); (-411); (-429); (-446); (-464); (-482);
   (-500); (-517); (-535); (-553); (-571); (-588); (-606); (-624); (-641);
   (-659); (-677); (-694); (-712); (-729); (-747); (-765); (-782); (-800);
   (-817); (-835); (-852); (-870); (-887); (-904); (-922); (-939); (-957);
   (-974); (-991); (-1009); (-1026); (-1043); (-1061); (-1078); (-1095);
   (-1112); (-1130); (-1147); (-1164); (-1181); (-1198); (-1215); (-1232);
   (-1249); (-1266); (-1283); (-1300); (-1317); (-1334); (-1351); (-1368);
   (-1385); (-1401); (-1418); (-1435); (-1452); (-1468); (-1485); (-1502);
   (-1518); (-1535); (-1551); (-1568); (-1584); (-1601); (-1617); (-1634);
   (-1650); (-1666); (-1683); (-1699); (-1715); (-1732); (-1748); (-1764);
   (-1780); (-1796); (-1812); (-1828); (-1844); (-1860); (-1876); (-1892);
   (-1908); (-1923); (-1939); (-1955); (-1971); (-1986); (-2002); (-2017);
   (-2033); (-2049); (-2064); (-2079); (-2095); (-2110); (-2125); (-2141);
   (-2156); (-2171); (-2186); (-2201); (-2216); (-2231); (-2246); (-2261);
   (-2276); (-2291); (-2306); (-2320); (-2335); (-2350); (-2364); (-2379);
   (-2394); (-2408); (-2423); (-2437); (-2451); (-2466); (-2480); (-2494);
   (-2508); (-2522); (-2536); (-2550); (-2564); (-2578); (-2592); (-2606);
   (-2620); (-2633); (-2647); (-2661); (-2674); (-2688); (-2701); (-2715);
   (-2728); (-2741); (-2755); (-2768); (-2781); (-2794); (-2807); (-2820);
   (-2833); (-2846); (-2859); (-2871); (-2884); (-2897); (-2909); (-2922);
   (-2934); (-2947); (-2959); (-2972); (-2984); (-2996); (-3008); (-3020);
   (-3032); (-3044); (-3056); (-3068); (-3080); (-3092); (-3103); (-3115);
   (-3127); (-3138); (-3150); (-3161); (-3172); (-3184); (-3195); (-3206);
   (-3217); (-3228); (-3239); (-3250); (-3261); (-3272); (-3282); (-3293);
   (-3304); (-3314); (-3325); (-3335); (-3345); (-3356); (-3366); (-3376);
   (-3386); (-3396); (-3406); (-3416); (-3426); (-3436); (-3445); (-3455);
   (-3465); (-3474); (-3484); (-3493); (-3502); (-3511); (-3521); (-3530);
   (-3539); (-3548); (-3557); (-3565); (-3574); (-3583); (-3592); (-3600);
   (-3609); (-3617); (-3625); (-3634); (-3642); (-3650); (-3658); (-3666);
   (-3674); (-3682); (-3690); (-3697); (-3705); (-3713); (-3720); (-3728);
   (-3735); (-3742); (-3750); (-3757); (-3764); (-3771); (-3778); (-3785);
   (-3792); (-3798); (-3805); (-3811); (-3818); (-3824); (-3831); (-3837);
   (-3843); (-3849); (-3856); (-3862); (-3867); (-3873); (-3879); (-3885);
   (-3890); (-3896); (-3902); (-3907); (-3912); (-3918); (-3923); (-3928);
   (-3933); (-3938); (-3943); (-3948); (-3952); (-3957); (-3962); (-3966);
   (-3970); (-3975); (-3979); (-3983); (-3987); (-3992); (-3996); (-3999);
   (-4003); (-4007); (-4011); (-4014); (-4018); (-4021); (-4025); (-4028);
   (-4031); (-4034); (-4037); (-4040); (-4043); (-4046); (-4049); (-4052);
   (-4054); (-4057); (-4059); (-4061); (-4064); (-4066); (-4068); (-4070);
   (-4072); (-4074); (-4076); (-4078); (-4079); (-4081); (-4082); (-4084);
   (-4085); (-4087); (-4088); (-4089); (-4090); (-4091); (-4092); (-4093);
   (-4093); (-4094); (-4095); (-4095); (-4096); (-4096); (-4096); (-4096);
   (-4096); (-4096); (-4096); (-4096); (-4096); (-4096); (-4096); (-4095);
   (-4095); (-4094); (-4093); (-4093); (-4092); (-4091); (-4090); (-4089);
   (-4088); (-4087); (-4085); (-4084); (-4082); (-4081); (-4079); (-4078);
   (-4076); (-4074); (-4072); (-4070); (-4068); (-4066); (-4064); (-4061);
   (-4059); (-4057); (-4054); (-4052); (-4049); (-4046); (-4043); (-4040);
   (-4037); (-4034); (-4031); (-4028); (-4025); (-4021); (-4018); (-4014);
   (-4011); (-4007); (-4003); (-3999); (-3996); (-3992); (-3987); (-3983);
   (-3979); (-3975); (-3970); (-3966); (-3962); (-3957); (-3952); (-3948);
   (-3943); (-3938); (-3933); (-3928); (-3923); (-3918); (-3912); (-3907);
   (-3902); (-3896); (-3890); (-3885); (-3879); (-3873); (-3867); (-3862);
   (-3856); (-3849); (-3843); (-3837); (-3831); (-3824); (-3818); (-3811);
   (-3805); (-3798); (-3792); (-3785); (-3778); (-3771); (-3764); (-3757);
   (-3750); (-3742); (-3735); (-3728); (-3720); (-3713); (-3705); (-3697);
   (-3690); (-3682); (-3674); (-3666); (-3658); (-3650); (-3642); (-3634);
   (-3625); (-3617); (-3609); (-3600); (-3592); (-3583); (-3574); (-3565);
   (-3557); (-3548); (-3539); (-3530); (-3521); (-3511); (-3502); (-3493);
   (-3484); (-3474); (-3465); (-3455); (-3445); (-3436); (-3426); (-3416);
   (-3406); (-3396); (-3386); (-3376); (-3366); (-3356); (-3345); (-3335);
   (-3325); (-3314); (-3304); (-3293); (-3282); (-3272); (-3261); (-3250);
   (-3239); (-3228); (-3217); (-3206); (-3195); (-3184); (-3172); (-3161);
   (-3150); (-3138); (-3127); (-3115); (-3103); (-3092); (-3080); (-3068);
   (-3056); (-3044); (-3032); (-3020); (-3008); (-2996); (-2984); (-2972);
   (-2959); (-2947); (-2934); (-2922); (-2909); (-2897); (-2884); (-2871);
   (-2859); (-2846); (-2833); (-2820); (-2807); (-2794); (-2781); (-2768);
   (-2755); (-2741); (-2728); (-2715); (-2701); (-2688); (-2674); (-2661);
   (-2647); (-2633); (-2620); (-2606); (-2592); (-2578); (-2564); (-2550);
   (-2536); (-2522); (-2508); (-2494); (-2480); (-2466); (-2451); (-2437);
   (-2423); (-2408); (-2394); (-2379); (-2364); (-2350); (-2335); (-2320);
   (-2306); (-2291); (-2276); (-2261); (-2246); (-2231); (-2216); (-2201);
   (-2186); (-2171); (-2156); (-2141); (-2125); (-2110); (-2095); (-2079);
   (-2064); (-2049); (-2033); (-2017); (-2002); (-1986); (-1971); (-1955);
   (-1939); (-1923); (-1908); (-1892); (-1876); (-1860); (-1844); (-1828);
   (-1812); (-1796); (-1780); (-1764); (-1748); (-1732); (-1715); (-1699);
   (-1683); (-1666); (-1650); (-1634); (-1617); (-1601); (-1584); (-1568);
   (-1551); (-1535); (-1518); (-1502); (-1485); (-1468); (-1452); (-1435);
   (-1418); (-1401); (-1385); (-1368); (-1351); (-1334); (-1317); (-1300);
   (-1283); (-1266); (-1249); (-1232); (-1215); (-1198); (-1181); (-1164);
   (-1147); (-1130); (-1112); (-1095); (-1078); (-1061); (-1043); (-1026);
   (-1009); (-991); (-974); (-957); (-939); (-922); (-904); (-887); (-870);
   (-852); (-835); (-817); (-800); (-782); (-765); (-747); (-729); (-712);
   (-694); (-677); (-659); (-641); (-624); (-606); (-588); (-571); (-553);
   (-535); (-517); (-500); (-482); (-464); (-446); (-429); (-411); (-393);
   (-375); (-357); (-340); (-322); (-304); (-286); (-268); (-251); (-233);
   (-215); (-197); (-179); (-161); (-143); (-126); (-108); (-90); (-72);
   (-54); (-36); (-18)].

(** [Math.round(Math.tan(angle * Math.PI / halfCircle) * (1 << 8))]
    for [angle = 0 .. (fullCircle >> 2) - 1] (line 144). *)
Definition tanTable_values : list Z :=
  [0; 1; 2; 3; 4; 6; 7; 8; 9; 10; 11; 12; 13; 15; 16; 17; 18; 19; 20; 21; 22;
   24; 25; 26; 27; 28; 29; 30; 31; 33; 34; 35; 36; 37; 38; 39; 41; 42; 43;
   44; 45; 46; 47; 49; 50; 51; 52; 53; 54; 56; 57; 58; 59; 60; 61; 63; 64;
   65; 66; 67; 69; 70; 71; 72; 73; 75; 76; 77; 78; 79; 81; 82; 83; 84; 86;
   87; 88; 89; 91; 92; 93; 94; 96; 97; 98; 100; 101; 102; 103; 105; 106; 107;
   109; 110; 111; 113; 114; 115; 117; 118; 119; 121; 122; 123; 125; 126; 128;
   129; 130; 132; 133; 135; 136; 138; 139; 140; 142; 143; 145; 146; 148; 149;
   151; 152; 154; 155; 157; 158; 160; 162; 163; 165; 166; 168; 169; 171; 173;
   174; 176; 178; 179; 181; 183; 184; 186; 188; 189; 191; 193; 195; 196; 198;
   200; 202; 204; 205; 207; 209; 211; 213; 215; 217; 219; 221; 223; 225; 226;
   228; 231; 233; 235; 237; 239; 241; 243; 245; 247; 249; 252; 254; 256; 258;
   261; 263; 265; 267; 270; 272; 275; 277; 279; 282; 284; 287; 289; 292; 294;
   297; 300; 302; 305; 308; 311; 313; 316; 319; 322; 325; 328; 331; 334; 337;
   340; 343; 346; 349; 352; 356; 359; 362; 366; 369; 372; 376; 380; 383; 387;
   390; 394; 398; 402; 406; 410; 414; 418; 422; 426; 430; 435; 439; 443; 448;
   452; 457; 462; 467; 471; 476; 481; 487; 492; 497; 502; 508; 513; 519; 525;
   531; 537; 543; 549; 555; 562; 568; 575; 582; 589; 596; 603; 610; 618; 626;
   634; 642; 650; 658; 667; 676; 685; 694; 703; 713; 723; 733; 743; 754; 765;
   776; 788; 800; 812; 824; 837; 851; 864; 878; 893; 908; 923; 939; 955; 972;
   990; 1008; 1027; 1046; 1066; 1087; 1109; 1131; 1155; 1179; 1204; 1231;
   1258; 1287; 1317; 1348; 1381; 1416; 1452; 1490; 1530; 1572; 1616; 1663;
   1713; 1766; 1822; 1881; 1945; 2012; 2085; 2163; 2247; 2338; 2436; 2542;
   2659; 2786; 2926; 3081; 3253; 3445; 3661; 3906; 4186; 4508; 4885; 5330;
   5863; 6516; 7331; 8379; 9776; 11732; 14666; 19556; 29335; 58671].

#[export] Instance reference_tables : TrigTables := {|
  cosTable := cosTable_values;
  sinTable := sinTable_values;
  tanTable := tanTable_values
|}.

(** An engine whose draws cycle through a few fractions and whose
    arithmetic is exact, used to run the generator below. *)
#[export] Instance cyclingEngine : Engine := {|
  random := fun n =>
    match Nat.modulo n 4 with
    | 0%nat => 0
    | 1%nat => 3 # 4
    | 2%nat => 1 # 3
    | _ => 4095 # 4096
    end%Q;
  fl := fun q => q
|}.

(** An engine whose draws are all 3/4, with exact arithmetic. *)
Definition steadyEngine : Engine := {|
  random := fun _ => 3 # 4;
  fl := fun q => q
|}.

(** ** Angles and distances (lines 159-229) *)

(** [angleSub] (line 210). *)
Definition angleSub (a b : Z) : Z := mod_ (a - b) fullCircle.

(** [distance] (lines 219-224): the larger and the smaller of the two
    absolute differences, combined by shifts. *)
Definition distance (x1 y1 x2 y2 : Z) : Z :=
  let dx := if x2 >? x1 then x2 - x1 else x1 - x2 in
  let dy := if y2 >? y1 then y2 - y1 else y1 - y2 in
  let '(max, min) := if dx >? dy then (dx, dy) else (dy, dx) in
  JS.sar (JS.shl max 8 + JS.shl max 3 - JS.shl max 4 - JS.shl max 1
          + JS.shl min 7 - JS.shl min 5 + JS.shl min 3 - JS.shl min 1) 8.

(** [angleToAlgebraic] (line 229). *)
Definition angleToAlgebraic (angle : Z) : Z :=
  if angle >? halfCircle then angle - fullCircle else angle.

(** [Math.round]: the nearest integer, halves upwards. *)
Definition round (q : Q) : Z := Qfloor (q + (1 # 2)).

(** [angleFromCoordinates] (lines 163-180).  The quotient is a
    double-precision division, rounded by the engine's [fl]; [None] when
    the search of the tangent table does not return. *)
Definition angleFromCoordinates `{TrigTables} `{Engine} (x y : Z) : option Z :=
  if x =? 0 then Some (if y <? 0 then south else north)
  else
    let absX := Z.abs x in
    let absY := Z.abs y in
    if absY >? JS.shl absX 8 then Some (if y >? 0 then north else south)
    else
      let ratio := round (fl (inject_Z (JS.shl absY 8) / inject_Z absX)) in
      match findIndexOf ratio tanTable with
      | Some angle =>
        Some (if x >? 0
              then if y >? 0 then angle else fullCircle - angle
              else if y >? 0 then halfCircle - angle else halfCircle + angle)
      | None => None
      end.

(** ** Listeners (lines 259-272 and 657-670)

    The map and the ship keep their handlers in an array; a handler is
    identified by [h], compared as [indexOf] compares functions. *)

Section Listeners.

Context {H : Type} `{EqDecision H}.

(** [handlers.indexOf(handler)]: the first position of the handler. *)
Fixpoint indexOf (handlers : list H) (handler : H) : option nat :=
  match handlers with
  | [] => None
  | h :: rest =>
    if decide (h = handler) then Some O
    else match indexOf rest handler with
         | Some i => Some (S i)
         | None => None
         end
  end.

(** [addChangeListener] and [addMoveListener]: [push]. *)
Definition addListener (handlers : list H) (handler : H) : list H :=
  handlers ++ [handler].

(** [removeChangeListener] and [removeMoveListener]: [splice(i, 1)] at
    the first position of the handler, if there is one. *)
Definition removeListener (handlers : list H) (handler : H) : list H :=
  match indexOf handlers handler with
  | Some i => delete i handlers
  | None => handlers
  end.

End Listeners.

(** ** Colour of an elevation on the overhead map (lines 890-894)

    [0x80 * val / maxHeight] divides by a power of two, which is exact.
    The three channels: red, green, blue. *)
Definition elevationColor (val : Z) : Z * Z * Z :=
  (Qfloor (inject_Z 104 + inject_Z (128 * val) / inject_Z maxHeight),
   Qfloor (inject_Z 96 + inject_Z (64 * val) / inject_Z maxHeight),
   Qfloor (inject_Z 0 + inject_Z (64 * val) / inject_Z maxHeight)).

(** ** Projection of a summit (lines 535-545)

    The memo of a frame maps the map coordinates of a summit to its
    screen column and row; [memo[x][y]] is absent until it is written. *)

Definition Memo : Type := Z -> Z -> option (Z * Z).

Definition emptyMemo : Memo := fun _ _ => None.

(** [memo[x][y] = { x: screenCol, y: screenRow }]. *)
Definition memoSet (memo : Memo) (x y : Z) (screen : Z * Z) : Memo :=
  fun x' y' => if (x' =? x) && (y' =? y) then Some screen else memo x' y'.

(** [#computeScreenCoordinatesFor], for a viewport showing [map] from
    [ship] with the horizon at [verticalOffset].  [None] when a search of
    the tangent table does not return or the map has no such cell. *)
Definition computeScreenCoordinatesFor `{TrigTables} `{Engine}
    (vp : Viewport) (verticalOffset : Z) (map : Map.t) (ship : Valkyrie.t)
    (x y : Z) (memo : Memo) : option Memo :=
  let dist :=
    distance (Valkyrie.x ship) (Valkyrie.y ship)
             (JS.shl x bitsBetweenTops) (JS.shl y bitsBetweenTops) in
  match angleFromCoordinates (JS.shl x bitsBetweenTops - Valkyrie.x ship)
                             (Valkyrie.y ship - JS.shl y bitsBetweenTops) with
  | None => None
  | Some absAngle =>
    let azimuth := angleToAlgebraic (angleSub (Valkyrie.heading ship) absAngle) in
    let screenCol :=
      JS.sar (width vp) 1 - JS.sar azimuth viewPortScreenPixelPowerOfTwo in
    match Map.get map x y with
    | None => None
    | Some elevation =>
      match angleFromCoordinates dist (elevation - Valkyrie.z ship) with
      | None => None
      | Some angle =>
        let altitude := angleToAlgebraic angle in
        let screenRow :=
          verticalOffset + JS.sar altitude viewPortScreenPixelPowerOfTwo in
        Some (memoSet memo x y (screenCol, screenRow))
      end
    end
  end.

(** [vp'] is [vp] after some drawing confined to the columns strictly
    between [lo] and [hi]: same dimensions and law, the other columns'
    heights untouched, and the canvas only extended. *)
Definition redrawnBetween (lo hi : Z) (vp vp' : Viewport) : Prop :=
  width vp' = width vp /\
  height vp' = height vp /\
  scalePowerOfTwo vp' = scalePowerOfTwo vp /\
  interpolation vp' = interpolation vp /\
  length (topHeights vp') = length (topHeights vp) /\
  (forall c, c <= lo \/ hi <= c ->
             JS.index (topHeights vp') c = JS.index (topHeights vp) c) /\
  exists calls, context vp' = context vp ++ calls.

(** ** A frame (lines 562-612)

    The steps of [draw] act on the memo and the viewport; [None] is a
    failed step: a summit missing from the memo or the map, or an
    interpolation deeper than [fuel]. *)

Definition FrameStep : Type := Memo * Viewport -> option (Memo * Viewport).

Definition thenStep (first next : FrameStep) : FrameStep :=
  fun s =>
    match first s with
    | Some s' => next s'
    | None => None
    end.

(** [for (let i = ...; ...; i++) body], over the values [i] takes. *)
Fixpoint forEach (values : list Z) (body : Z -> FrameStep) : FrameStep :=
  match values with
  | [] => Some
  | i :: rest => thenStep (body i) (forEach rest body)
  end.

(** [this.#context.clearRect] over the whole canvas followed by
    [this.#topHeights = new Array(this.width).fill(-1)]: nothing drawn
    before remains. *)
Definition clearFrame (vp : Viewport) : Viewport :=
  resetTopHeights
    {| width := width vp; height := height vp;
       scalePowerOfTwo := scalePowerOfTwo vp;
       interpolation := interpolation vp;
       topHeights := topHeights vp;
       context := [] |}.

Section Frame.

Context `{TrigTables} `{Engine}.
Context (fuel : nat) (verticalOffset : Z) (map : Map.t) (ship : Valkyrie.t).

Definition project (x y : Z) : FrameStep :=
  fun '(memo, vp) =>
    match computeScreenCoordinatesFor vp verticalOffset map ship x y memo with
    | Some memo' => Some (memo', vp)
    | None => None
    end.

(** [#interpolateFromMemo] (lines 567-571). *)
Definition interpolateFromMemo (xMap1 yMap1 xMap2 yMap2 : Z) : FrameStep :=
  fun '(memo, vp) =>
    match memo xMap1 yMap1, memo xMap2 yMap2,
          Map.get map xMap1 yMap1, Map.get map xMap2 yMap2 with
    | Some m1, Some m2, Some yMountain1, Some yMountain2 =>
      match interpolate fuel vp yMountain1 yMountain2 (fst m1) (fst m2)
              (snd m1) (snd m2) 0 with
      | Some vp' => Some (memo, vp')
      | None => None
      end
    | _, _, _, _ => None
    end.

(** [#drawMountainColumnFromMemo] (lines 562-565). *)
Definition drawMountainColumnFromMemo (xMap yMap : Z) : FrameStep :=
  fun '(memo, vp) =>
    match memo xMap yMap with
    | Some m => Some (memo, drawMountainColumn vp (fst m) (snd m))
    | None => None
    end.

(** The body of the loop over [dist] (lines 583-610). *)
Definition ring (xMap yMap dist : Z) : FrameStep :=
  thenStep
    (forEach (seqZ (- dist) (2 * dist + 1)) (fun i =>
       thenStep (project (xMap - dist) (yMap + i))
      (thenStep (project (xMap + dist) (yMap + i))
      (thenStep (project (xMap + i) (yMap - dist))
                (project (xMap + i) (yMap + dist))))))
 (thenStep
    (forEach (seqZ (- dist + 1) (2 * dist - 1)) (fun i =>
       thenStep (interpolateFromMemo (xMap - dist + 1) (yMap + i)
                                     (xMap - dist) (yMap + i))
      (thenStep (interpolateFromMemo (xMap + dist - 1) (yMap + i)
                                     (xMap + dist) (yMap + i))
      (thenStep (interpolateFromMemo (xMap + i) (yMap - dist + 1)
                                     (xMap + i) (yMap - dist))
                (interpolateFromMemo (xMap + i) (yMap + dist - 1)
                                     (xMap + i) (yMap + dist))))))
 (thenStep
    (forEach (seqZ (- dist) (2 * dist)) (fun i =>
       thenStep (interpolateFromMemo (xMap - dist) (yMap + i)
                                     (xMap - dist) (yMap + i + 1))
      (thenStep (interpolateFromMemo (xMap + dist) (yMap + i)
                                     (xMap + dist) (yMap + i + 1))
      (thenStep (interpolateFromMemo (xMap + i) (yMap - dist)
                                     (xMap + i + 1) (yMap - dist))
                (interpolateFromMemo (xMap + i) (yMap + dist)
                                     (xMap + i + 1) (yMap + dist))))))
    (forEach (seqZ (- dist) (2 * dist + 1)) (fun i =>
       thenStep (drawMountainColumnFromMemo (xMap - dist) (yMap + i))
      (thenStep (drawMountainColumnFromMemo (xMap + dist) (yMap + i))
      (thenStep (drawMountainColumnFromMemo (xMap + i) (yMap - dist))
                (drawMountainColumnFromMemo (xMap + i) (yMap + dist)))))))).

(** [draw] (lines 574-612). *)
Definition draw (vp : Viewport) : option Viewport :=
  let xMap := JS.sar (Valkyrie.x ship) bitsBetweenTops in
  let yMap := JS.sar (Valkyrie.y ship) bitsBetweenTops in
  match thenStep (project xMap yMap)
          (forEach (seqZ 1 (viewDistance - 1)) (ring xMap yMap))
          (emptyMemo, clearFrame vp) with
  | Some (_, vp') => Some vp'
  | None => None
  end.

End Frame.

(** The summit [(x, y)] has been projected, to a column of [lo .. hi]. *)
Definition known (lo hi : Z) (memo : Memo) (x y : Z) : Prop :=
  exists col row, memo x y = Some (col, row) /\ lo <= col <= hi.

(** The state of a frame after the rings up to [d] around [(xMap, yMap)]
    have been projected: every summit of these rings is known, and the
    viewport is [vp0] redrawn. *)
Definition framed (vp0 : Viewport) (xMap yMap d : Z) (s : Memo * Viewport) : Prop :=
  redrawnBetween (- 2 ^ 30 - 1) (2 ^ 30) vp0 (snd s) /\
  forall a b, - d <= a <= d -> - d <= b <= d ->
    known (JS.sar (width vp0) 1 - 360) (JS.sar (width vp0) 1 + 360)
          (fst s) (xMap + a) (yMap + b).

(** [next] completes wherever [first] does, with the same outcome. *)
Definition refinesStep (first next : FrameStep) : Prop :=
  forall s r, first s = Some r -> next s = Some r.

(** ** Test terrains (lines 303-319)

    [for (let i = 0; i < this.size; i++) body], over the values [i]
    takes. *)
Fixpoint forEachGen (values : list Z) (body : Z -> Gen unit) : Gen unit :=
  match values with
  | [] => ret tt
  | i :: rest => body i ;;; forEachGen rest body
  end.

(** The elevation [Math.floor(maxHeight * rise / run)]; the division is
    rounded by the engine's [fl].  The generators call it with a
    positive [run]. *)
Definition slopeElevation `{Engine} (rise run : Z) : Z :=
  Qfloor (fl (inject_Z (maxHeight * rise) / inject_Z run)).

(** [generateWestToEastAndNorthToSouthSlope] (lines 304-310). *)
Definition generateWestToEastAndNorthToSouthSlope `{Engine} : Gen unit :=
  n <~ this_size ;;
  forEachGen (seqZ 0 n) (fun x =>
    forEachGen (seqZ 0 n) (fun y =>
      this_set x y
        (inject_Z (slopeElevation (JS.shl n 1 - x - y) (JS.shl n 1))))).

(** [generateWestToEastSlope] (lines 313-319). *)
Definition generateWestToEastSlope `{Engine} : Gen unit :=
  n <~ this_size ;;
  forEachGen (seqZ 0 n) (fun x =>
    forEachGen (seqZ 0 n) (fun y =>
      this_set x y (inject_Z (slopeElevation (n - x) n)))).

(** * Properties *)

(** ** The integer operators *)

Lemma to_int32_range (z : Z) : - 2 ^ 31 <= JS.to_int32 z < 2 ^ 31.
Proof. unfold JS.to_int32. pose proof (Z.mod_pos_bound (z + 2 ^ 31) (2 ^ 32)). lia. Qed.

Lemma to_int32_small (z : Z) : - 2 ^ 31 <= z < 2 ^ 31 -> JS.to_int32 z = z.
Proof. intros Hz. unfold JS.to_int32. rewrite Z.mod_small; lia. Qed.

Lemma sar_small (a n : Z) :
  - 2 ^ 31 <= a < 2 ^ 31 -> 0 <= n < 32 -> JS.sar a n = a / 2 ^ n.
Proof.
  intros Ha Hn. unfold JS.sar.
  rewrite to_int32_small by exact Ha.
  rewrite Z.mod_small by exact Hn.
  apply Z.shiftr_div_pow2. lia.
Qed.

Lemma sar_1 (a : Z) : - 2 ^ 31 <= a < 2 ^ 31 -> JS.sar a 1 = a / 2.
Proof. intros Ha. rewrite sar_small by lia. reflexivity. Qed.

Lemma shl_small (a n : Z) :
  0 <= n < 32 -> - 2 ^ 31 <= a * 2 ^ n < 2 ^ 31 -> JS.shl a n = a * 2 ^ n.
Proof.
  intros Hn Ha. unfold JS.shl.
  assert (0 < 2 ^ n) by (apply Z.pow_pos_nonneg; lia).
  rewrite (to_int32_small a) by nia.
  rewrite Z.mod_small by exact Hn.
  rewrite Z.shiftl_mul_pow2 by lia.
  apply to_int32_small. exact Ha.
Qed.

Lemma and_255 (a : Z) : JS.and a 255 = a mod 256.
Proof.
  unfold JS.and. rewrite (to_int32_small 255) by lia.
  change 255 with (Z.ones 8). rewrite Z.land_ones by lia.
  unfold JS.to_int32. change (2 ^ 8) with 256.
  pose proof (Z.mod_pos_bound (a + 2 ^ 31) (2 ^ 32)).
  Z.div_mod_to_equations. lia.
Qed.

Lemma mod_spec (n m : Z) : 0 < m -> mod_ n m = n mod m.
Proof.
  intros Hm. unfold mod_, JS.rem.
  pose proof (Z.rem_bound_abs n m) as Hb.
  pose proof (Z.quot_rem n m ltac:(lia)) as Hq.
  assert (0 <= Z.rem n m + m) as Hnn.
  { destruct (Z.abs_spec (Z.rem n m)) as [[_ E]|[_ E]];
    destruct (Z.abs_spec m) as [[_ E']|[_ E']]; lia. }
  rewrite Z.rem_mod_nonneg by lia.
  rewrite Hq at 2.
  replace (m * (n ÷ m) + Z.rem n m) with (Z.rem n m + m + (n ÷ m - 1) * m) by ring.
  now rewrite Z_mod_plus_full.
Qed.

Lemma mod_range (n m : Z) : 0 < m -> 0 <= mod_ n m < m.
Proof. intros Hm. rewrite mod_spec by exact Hm. now apply Z.mod_pos_bound. Qed.

Lemma index_Some {A : Type} (table : list A) (i : Z) :
  0 <= i < Z.of_nat (length table) -> is_Some (JS.index table i).
Proof.
  intros Hi. unfold JS.index.
  destruct (Z.ltb_spec i 0); [lia|].
  apply lookup_lt_is_Some_2. lia.
Qed.

Lemma index_Some_inv {A : Type} (table : list A) (i : Z) (a : A) :
  JS.index table i = Some a -> 0 <= i < Z.of_nat (length table).
Proof.
  unfold JS.index. destruct (Z.ltb_spec i 0); [discriminate|].
  intros Hl. apply lookup_lt_Some in Hl. lia.
Qed.

Lemma index_None {A : Type} (table : list A) (i : Z) :
  i < 0 \/ Z.of_nat (length table) <= i -> JS.index table i = None.
Proof.
  intros Hi. unfold JS.index.
  destruct (Z.ltb_spec i 0); [reflexivity|].
  apply lookup_ge_None_2. lia.
Qed.

Lemma fullCircle_eq : fullCircle = 1440.
Proof. reflexivity. Qed.

Lemma halfCircle_eq : halfCircle = 720.
Proof. reflexivity. Qed.

Lemma quarterCircle_eq : quarterCircle = 360.
Proof. reflexivity. Qed.

Lemma maxHeight_eq : maxHeight = 4096.
Proof. reflexivity. Qed.

Lemma reference_tables_built : TablesBuilt.
Proof. split; vm_compute; reflexivity. Qed.

(** ** Tangent *)

Lemma tan_asymptote (a : Z) :
  JS.rem (a - quarterCircle) halfCircle = 0 <->
  a mod fullCircle = quarterCircle \/ a mod fullCircle = quarterCircle + halfCircle.
Proof.
  rewrite fullCircle_eq, halfCircle_eq, quarterCircle_eq. unfold JS.rem.
  pose proof (Z.quot_rem (a - 360) 720 ltac:(lia)) as Hq.
  pose proof (Z.rem_bound_abs (a - 360) 720) as Hb.
  split.
  - intros E. rewrite E in Hq. Z.div_mod_to_equations. lia.
  - intros E. Z.div_mod_to_equations. lia.
Qed.

(** Tangent has the period of half a circle, as the comment on line 153
    intends. *)
Lemma tan_period `{TrigTables} (a : Z) : tan (a + halfCircle) = tan a.
Proof.
  unfold tan.
  assert (mod_ (a + halfCircle) halfCircle = mod_ a halfCircle) as ->.
  { rewrite !mod_spec by (rewrite halfCircle_eq; lia).
    rewrite <- (Z.mul_1_l halfCircle) at 1. apply Z_mod_plus_full. }
  destruct (Z.eqb_spec (JS.rem (a - quarterCircle) halfCircle) 0) as [E|E];
  destruct (Z.eqb_spec (JS.rem (a + halfCircle - quarterCircle) halfCircle) 0)
    as [E'|E']; try reflexivity; exfalso.
  - apply E'. apply tan_asymptote. apply tan_asymptote in E.
    revert E. rewrite fullCircle_eq, halfCircle_eq, quarterCircle_eq.
    intros E. Z.div_mod_to_equations. lia.
  - apply E. apply tan_asymptote. apply tan_asymptote in E'.
    revert E'. rewrite fullCircle_eq, halfCircle_eq, quarterCircle_eq.
    intros E'. Z.div_mod_to_equations. lia.
Qed.

(** C5: [tan] answers [undefined] exactly at the angles congruent to a
    quarter or to three quarters of a circle; at every other angle it
    answers the entry of the quarter-circle table found by reducing the
    angle modulo half a circle and mirroring the second quadrant onto the
    first, negated in the mirrored case.  The index always lies inside
    the table, so the answer is a number. *)
Theorem tan_domain `{TrigTables} (built : TablesBuilt) (a : Z) :
  (tan a = JS.Undefined <->
   a mod fullCircle = quarterCircle \/
   a mod fullCircle = quarterCircle + halfCircle) /\
  (tan a <> JS.Undefined ->
   exists i t,
     0 <= i < JS.sar fullCircle 2 /\
     JS.index tanTable i = Some t /\
     ((a mod halfCircle < quarterCircle /\ i = a mod halfCircle /\
       tan a = JS.Num t) \/
      (quarterCircle < a mod halfCircle /\ i = halfCircle - a mod halfCircle /\
       tan a = JS.Num (- t)))).
Proof.
  pose proof (tanTable_length built) as Hlen.
  assert (forall i, 0 <= i < JS.sar fullCircle 2 ->
                    exists t, JS.index tanTable i = Some t) as Hread.
  { intros i Hi. apply (index_Some tanTable). lia. }
  assert (mod_ a halfCircle = a mod halfCircle) as Hc
    by (apply mod_spec; rewrite halfCircle_eq; lia).
  assert (0 <= a mod halfCircle < halfCircle) as Hrange
    by (apply Z.mod_pos_bound; rewrite halfCircle_eq; lia).
  assert (a mod halfCircle = quarterCircle ->
          JS.rem (a - quarterCircle) halfCircle = 0) as Hquarter.
  { intros E. apply tan_asymptote. revert E.
    rewrite fullCircle_eq, halfCircle_eq, quarterCircle_eq.
    intros E. Z.div_mod_to_equations. lia. }
  change (JS.sar fullCircle 2) with 360 in *.
  unfold tan. rewrite Hc.
  destruct (Z.eqb_spec (JS.rem (a - quarterCircle) halfCircle) 0) as [E|E].
  - split; [|congruence]. split; [intros _; now apply tan_asymptote|reflexivity].
  - rewrite halfCircle_eq, quarterCircle_eq in *.
    destruct (Z.gtb_spec (a mod 720) 360) as [Hgt|Hle].
    + destruct (Hread (720 - a mod 720) ltac:(lia)) as [t Ht].
      rewrite Ht. simpl. split.
      * split; [discriminate|]. intros Ha. exfalso. apply E.
        apply tan_asymptote. rewrite quarterCircle_eq, halfCircle_eq. exact Ha.
      * intros _. exists (720 - a mod 720), t. repeat split; try lia; auto.
    + assert (a mod 720 <> 360) by (intros E'; now apply E, Hquarter).
      destruct (Hread (a mod 720) ltac:(lia)) as [t Ht].
      rewrite Ht. simpl. split.
      * split; [discriminate|]. intros Ha. exfalso. apply E.
        apply tan_asymptote. rewrite quarterCircle_eq, halfCircle_eq. exact Ha.
      * intros _. exists (a mod 720), t. repeat split; try lia; auto.
        left. repeat split; lia.
Qed.

Lemma tan_domain_witness :
  TablesBuilt /\
  (tan 540 = JS.Undefined <->
   540 mod fullCircle = quarterCircle \/
   540 mod fullCircle = quarterCircle + halfCircle) /\
  (tan 540 <> JS.Undefined ->
   exists i t,
     0 <= i < JS.sar fullCircle 2 /\
     JS.index tanTable i = Some t /\
     ((540 mod halfCircle < quarterCircle /\ i = 540 mod halfCircle /\
       tan 540 = JS.Num t) \/
      (quarterCircle < 540 mod halfCircle /\ i = halfCircle - 540 mod halfCircle /\
       tan 540 = JS.Num (- t)))).
Proof.
  split; [exact reference_tables_built|].
  exact (tan_domain reference_tables_built 540).
Defined.

(** ** Inverse lookup *)

(** More iterations never change an answer already reached. *)
Lemma findIndexOf_loop_mono (fuel fuel' : nat) (val : Z) (table : list Z)
    (low high i : Z) :
  (fuel <= fuel')%nat ->
  findIndexOf_loop fuel val table low high = Some i ->
  findIndexOf_loop fuel' val table low high = Some i.
Proof.
  revert fuel' low high.
  induction fuel as [|fuel IH]; intros fuel' low high Hle Hrun; [discriminate|].
  destruct fuel' as [|fuel']; [lia|].
  simpl in *.
  destruct (high - low =? 1); [exact Hrun|].
  destruct (JS.index table (JS.sar (low + high) 1)) as [t|].
  - destruct (t =? val); [exact Hrun|].
    destruct (val <? t); apply IH; (lia || exact Hrun).
  - apply IH; (lia || exact Hrun).
Qed.

(** Between two valid bounds the search ends within [high - low]
    iterations, on an index between the bounds.  No ordering of the
    table is needed for this. *)
Lemma findIndexOf_loop_terminates (fuel : nat) (val : Z) (table : list Z)
    (low high : Z) :
  Z.of_nat (length table) <= 2 ^ 30 + 1 ->
  0 <= low < high ->
  high < Z.of_nat (length table) ->
  high - low <= Z.of_nat fuel ->
  exists i, findIndexOf_loop fuel val table low high = Some i /\ low <= i <= high.
Proof.
  intros Hsize. revert low high.
  induction fuel as [|fuel IH]; intros low high Hlow Hhigh Hfuel; [lia|].
  simpl.
  destruct (Z.eqb_spec (high - low) 1) as [Hadj|Hfar].
  - destruct (JS.index table high) as [t|].
    + destruct (t <=? val); eexists; split; eauto; lia.
    + eexists; split; eauto; lia.
  - assert (JS.sar (low + high) 1 = (low + high) / 2) as Hmid
      by (apply sar_1; lia).
    rewrite Hmid.
    assert (low < (low + high) / 2 < high) as Hbetween
      by (Z.div_mod_to_equations; lia).
    destruct (index_Some table ((low + high) / 2) ltac:(lia)) as [t Ht].
    rewrite Ht.
    destruct (t =? val).
    + eexists; split; eauto; lia.
    + destruct (val <? t).
      * destruct (IH low ((low + high) / 2)) as (i & Hi & Hr); try lia.
        exists i. split; [exact Hi|lia].
      * destruct (IH ((low + high) / 2) high) as (i & Hi & Hr); try lia.
        exists i. split; [exact Hi|lia].
Qed.

(** On a single entry the bounds coincide and stay put: the search only
    ever ends by finding the value itself. *)
Lemma findIndexOf_single_entry (fuel : nat) (val t : Z) :
  findIndexOf_fuel fuel val [t] = if t =? val then
                                    match fuel with O => None | S _ => Some 0 end
                                  else None.
Proof.
  unfold findIndexOf_fuel.
  change (Z.of_nat (length [t]) - 1) with 0.
  induction fuel as [|fuel IH]; [now destruct (t =? val)|].
  cbn [findIndexOf_loop].
  change (0 - 0 =? 1) with false. change (JS.sar (0 + 0) 1) with 0.
  change (JS.index [t] 0) with (Some t). cbv iota.
  destruct (Z.eqb_spec t val) as [E|E]; [reflexivity|].
  destruct (Z.ltb_spec val t); exact IH.
Qed.

(** C3, as amended: the twenty-two listed results are those of the
    queries 0 to 21, whatever the number of iterations allowed beyond
    six; the queries 0 to 19 of the regression test yield the first
    twenty of them.  When the bounds are adjacent the search answers the
    higher index if its entry is at most the query and the lower index
    otherwise. *)
Theorem findIndexOf_regression :
  (forall extra : nat,
     List.map (fun q => findIndexOf_fuel (6 + extra) q regressionTable) (keys 22)
     = List.map Some regressionExpected) /\
  List.map (fun q => findIndexOf q regressionTable) (keys 20)
  = List.map Some (take 20 regressionExpected) /\
  (forall (fuel : nat) (val : Z) (table : list Z) (low : Z),
     findIndexOf_loop (S fuel) val table low (low + 1)
     = Some match JS.index table (low + 1) with
            | Some t => if t <=? val then low + 1 else low
            | None => low
            end).
Proof.
  split; [|split].
  - intros extra.
    assert (Forall2 (fun q r => findIndexOf_fuel 6 q regressionTable = Some r)
                    (keys 22) regressionExpected) as Hsix
      by (repeat constructor).
    revert Hsix. generalize (keys 22) regressionExpected.
    induction 1 as [|q r qs rs Hq _ IH]; [reflexivity|].
    simpl. f_equal; [|exact IH].
    apply findIndexOf_loop_mono with (fuel := 6%nat); [lia|exact Hq].
  - reflexivity.
  - intros fuel val table low. simpl.
    replace (low + 1 - low) with 1 by ring. simpl.
    now destruct (JS.index table (low + 1)).
Qed.

(** The sequence of the claim is not what twenty queries produce: it
    has twenty-two entries. *)
Lemma findIndexOf_regression_counterexample :
  List.map (fun q => findIndexOf q regressionTable) (keys 20)
  <> List.map Some regressionExpected.
Proof.
  intros E. apply (f_equal (@length (option Z))) in E. vm_compute in E.
  discriminate E.
Qed.

(** On a table of 2^30 + 2 entries that are all below the query the
    upper bound stays on the last entry and the lower bound never
    reaches it: from 2^30 - 1 the sum [low + high] is 2^31, which [>>]
    reads as -2^31, so the midpoint is -2^30, outside the table, and
    the search starts over from there. *)
Lemma findIndexOf_loop_cycles (fuel : nat) (val : Z) (table : list Z) (low : Z) :
  Z.of_nat (length table) = 2 ^ 30 + 2 ->
  Forall (fun t => t < val) table ->
  - 2 ^ 30 <= low <= 2 ^ 30 - 1 ->
  findIndexOf_loop fuel val table low (2 ^ 30 + 1) = None.
Proof.
  intros Hlen Hbelow. revert low.
  induction fuel as [|fuel IH]; intros low Hlow; [reflexivity|].
  cbn [findIndexOf_loop].
  destruct (Z.eqb_spec (2 ^ 30 + 1 - low) 1) as [Hadj|_]; [lia|].
  assert (- 2 ^ 30 <= JS.sar (low + (2 ^ 30 + 1)) 1 <= 2 ^ 30 - 1) as Hmid.
  { destruct (Z.eq_dec low (2 ^ 30 - 1)) as [->|Hne].
    - vm_compute. split; discriminate.
    - rewrite sar_1 by lia. Z.div_mod_to_equations. lia. }
  destruct (JS.index table (JS.sar (low + (2 ^ 30 + 1)) 1)) as [t|] eqn:Ht;
    [|now apply IH].
  assert (t < val) as Hless.
  { unfold JS.index in Ht.
    destruct (JS.sar (low + (2 ^ 30 + 1)) 1 <? 0); [discriminate|].
    exact (Forall_lookup_1 _ _ _ _ Hbelow Ht). }
  destruct (Z.eqb_spec t val); [lia|].
  destruct (Z.ltb_spec val t); [lia|]. now apply IH.
Qed.

Lemma Sorted_replicate (n : nat) (t : Z) : Sorted Z.le (replicate n t).
Proof.
  induction n as [|n IH]; [constructor|].
  cbn [replicate]. constructor; [exact IH|].
  destruct n; constructor. cbn [replicate]. lia.
Qed.

(** C9, as amended: on an ordered table of at least two and at most
    2^30 + 1 entries the search returns, and returns an index of the
    table, for every query; as many iterations as the table has entries
    suffice.  The upper bound keeps [low + high] within the 32 bits of
    [>>].  The bound of two entries cannot be dropped: on a single entry
    that differs from the query the search never returns. *)
Theorem findIndexOf_terminates :
  (forall (table : list Z) (val : Z),
     Sorted Z.le table ->
     (2 <= length table)%nat ->
     Z.of_nat (length table) <= 2 ^ 30 + 1 ->
     exists i,
       0 <= i <= Z.of_nat (length table) - 1 /\
       forall fuel, (length table <= fuel)%nat ->
                    findIndexOf_fuel fuel val table = Some i) /\
  (forall (t val : Z) (fuel : nat),
     t <> val -> findIndexOf_fuel fuel val [t] = None).
Proof.
  split.
  - intros table val _ Htwo Hsize.
    destruct (findIndexOf_loop_terminates (length table) val table 0
                (Z.of_nat (length table) - 1)) as (i & Hi & Hr); try lia.
    exists i. split; [lia|].
    intros fuel Hfuel. unfold findIndexOf_fuel.
    now apply findIndexOf_loop_mono with (fuel := length table).
  - intros t val fuel Hne. rewrite findIndexOf_single_entry.
    destruct (Z.eqb_spec t val); [contradiction|reflexivity].
Qed.

Lemma findIndexOf_terminates_witness :
  Sorted Z.le regressionTable /\
  (2 <= length regressionTable)%nat /\
  Z.of_nat (length regressionTable) <= 2 ^ 30 + 1 /\
  (exists i,
     0 <= i <= Z.of_nat (length regressionTable) - 1 /\
     forall fuel, (length regressionTable <= fuel)%nat ->
                  findIndexOf_fuel fuel 17 regressionTable = Some i) /\
  3 <> 17 /\
  findIndexOf_fuel 9 17 [3] = None.
Proof.
  assert (Sorted Z.le regressionTable) as Hsorted
    by (repeat constructor; unfold Z.le; simpl; discriminate).
  assert (Z.of_nat (length regressionTable) <= 2 ^ 30 + 1) as Hsize
    by (simpl; lia).
  assert (3 <> 17) as Hne by lia.
  assert (2 <= length regressionTable)%nat as Htwo by (simpl; lia).
  split; [exact Hsorted|]. split; [exact Htwo|]. split; [exact Hsize|].
  split; [|split; [exact Hne|]].
  - exact (proj1 findIndexOf_terminates regressionTable 17 Hsorted Htwo Hsize).
  - exact (proj2 findIndexOf_terminates 3 17 9%nat Hne).
Defined.

(** Without the upper bound termination fails: on the ordered table of
    2^30 + 2 zeros the search for 1 never returns, whatever the number
    of iterations. *)
Lemma findIndexOf_terminates_counterexample :
  Sorted Z.le longTable /\
  (2 <= length longTable)%nat /\
  Z.of_nat (length longTable) = 2 ^ 30 + 2 /\
  (forall fuel : nat, findIndexOf_fuel fuel 1 longTable = None).
Proof.
  assert (Z.of_nat (length longTable) = 2 ^ 30 + 2) as Hlen
    by (unfold longTable; rewrite length_replicate; apply Z2Nat.id; lia).
  split; [apply Sorted_replicate|]. split; [lia|]. split; [exact Hlen|].
  intros fuel. unfold findIndexOf_fuel. rewrite Hlen.
  replace (2 ^ 30 + 2 - 1) with (2 ^ 30 + 1) by lia.
  apply findIndexOf_loop_cycles; [exact Hlen| |lia].
  apply Forall_forall. intros t Ht.
  apply elem_of_replicate in Ht as [-> _]. lia.
Qed.

(** ** Interpolation laws *)

Lemma byteSum_spec (yMountain1 yMountain2 : Z) :
  byteSum yMountain1 yMountain2 = yMountain1 mod 256 + yMountain2 mod 256.
Proof. unfold byteSum. now rewrite !and_255. Qed.

Lemma byteSum_range (yMountain1 yMountain2 : Z) :
  0 <= byteSum yMountain1 yMountain2 <= 510.
Proof.
  rewrite byteSum_spec.
  pose proof (Z.mod_pos_bound yMountain1 256).
  pose proof (Z.mod_pos_bound yMountain2 256). lia.
Qed.

(** Without a carry the sum of the low bytes is the low byte of the sum. *)
Lemma byteSum_low_byte (yMountain1 yMountain2 : Z) :
  byteSum yMountain1 yMountain2 <= 255 ->
  byteSum yMountain1 yMountain2 = (yMountain1 + yMountain2) mod 256.
Proof.
  rewrite byteSum_spec. intros Hno.
  rewrite Z.add_mod by lia.
  pose proof (Z.mod_pos_bound yMountain1 256).
  pose proof (Z.mod_pos_bound yMountain2 256).
  symmetry. apply Z.mod_small. lia.
Qed.

(** [sum & 0x80] tests bit 7 of a byte. *)
Lemma and_128 (s : Z) : 0 <= s <= 255 -> (JS.and s 128 =? 0) = (s <? 128).
Proof.
  intros Hs. unfold JS.and. rewrite !to_int32_small by lia.
  destruct (Z.ltb_spec s 128) as [Hlt|Hge].
  - apply Z.eqb_eq.
    rewrite <- (Z.mod_small s 128) by lia.
    change 128 with (2 ^ 7) at 1. rewrite <- Z.land_ones by lia.
    rewrite <- Z.land_assoc. change (Z.land (Z.ones 7) 128) with 0.
    apply Z.land_0_r.
  - apply Z.eqb_neq. intros Hzero.
    assert (s = Z.land s (Z.lor (Z.ones 7) 128)) as Hs'.
    { change (Z.lor (Z.ones 7) 128) with (Z.ones 8).
      rewrite Z.land_ones by lia. rewrite Z.mod_small; [reflexivity|].
      change (2 ^ 8) with 256. lia. }
    rewrite Z.land_lor_distr_r, Hzero, Z.lor_0_r, Z.land_ones in Hs' by lia.
    pose proof (Z.mod_pos_bound s (2 ^ 7)). change (2 ^ 7) with 128 in *. lia.
Qed.

Lemma absoluteDisplacement_spec (bisections : Z) :
  0 <= bisections <= 10 ->
  absoluteDisplacement bisections
  = 2 ^ (bitsBetweenTops - bisections - displacementAttenuationPower).
Proof.
  intros Hb. unfold absoluteDisplacement.
  change (bitsBetweenTops - bisections - displacementAttenuationPower)
    with (12 - bisections - 2).
  assert (0 < 2 ^ (12 - bisections - 2) <= 2 ^ 10) as Hpow.
  { split; [apply Z.pow_pos_nonneg; lia|apply Z.pow_le_mono_r; lia]. }
  rewrite shl_small; lia.
Qed.

Lemma fractalDisplacement_spec (yMountain1 yMountain2 bisections : Z) :
  fractalDisplacement yMountain1 yMountain2 bisections
  = if byteSum yMountain1 yMountain2 >? 255 then 0
    else if byteSum yMountain1 yMountain2 <? 128
         then absoluteDisplacement bisections
         else - absoluteDisplacement bisections.
Proof.
  unfold fractalDisplacement, fractalInterpolation, linearInterpolation.
  pose proof (byteSum_range yMountain1 yMountain2) as Hr.
  destruct (Z.gtb_spec (byteSum yMountain1 yMountain2) 255) as [Hov|Hno].
  - simpl. lia.
  - rewrite and_128 by lia.
    destruct (byteSum yMountain1 yMountain2 <? 128); simpl; lia.
Qed.

(** The elevation the fractal law returns does not look at the screen
    coordinates. *)
Lemma fractalInterpolation_elevation
    (yMountain1 yMountain2 xScreen1 xScreen2 yScreen1 yScreen2 bisections : Z) :
  fst (fractalInterpolation yMountain1 yMountain2 xScreen1 xScreen2
         yScreen1 yScreen2 bisections)
  = JS.sar (yMountain1 + yMountain2) 1
    + fractalDisplacement yMountain1 yMountain2 bisections.
Proof.
  unfold fractalDisplacement, fractalInterpolation, linearInterpolation.
  destruct (byteSum yMountain1 yMountain2 >? 255); [simpl; lia|].
  destruct (negb (JS.and (byteSum yMountain1 yMountain2) 128 =? 0));
    simpl; lia.
Qed.

(** [1 << n]: the count is taken modulo 32, and a count of 31 reaches
    the sign bit. *)
Lemma shl_one (n : Z) :
  JS.shl 1 n = if n mod 32 =? 31 then - 2 ^ 31 else 2 ^ (n mod 32).
Proof.
  unfold JS.shl. change (JS.to_int32 1) with 1.
  pose proof (Z.mod_pos_bound n 32 ltac:(lia)) as Hcount.
  rewrite Z.shiftl_mul_pow2, Z.mul_1_l by lia.
  destruct (Z.eqb_spec (n mod 32) 31) as [->|Hne]; [reflexivity|].
  apply to_int32_small.
  assert (0 < 2 ^ (n mod 32)) by (apply Z.pow_pos_nonneg; lia).
  assert (2 ^ (n mod 32) < 2 ^ 31) by (apply Z.pow_lt_mono_r; lia).
  lia.
Qed.

(** The screen displacement is the distance between the two columns,
    shifted. *)
Lemma screenDisplacement_spec (xScreen1 xScreen2 bisections : Z) :
  Z.abs (xScreen2 - xScreen1) < 2 ^ 31 -> 0 <= bisections <= 29 ->
  screenDisplacement xScreen1 xScreen2 bisections
  = Z.abs (xScreen2 - xScreen1) / 2 ^ (bisections + 2).
Proof.
  intros Hx Hb. unfold screenDisplacement, displacementAttenuationPower.
  assert ((if xScreen2 >? xScreen1 then xScreen2 - xScreen1
           else xScreen1 - xScreen2) = Z.abs (xScreen2 - xScreen1)) as ->
    by (destruct (Z.gtb_spec xScreen2 xScreen1); lia).
  apply sar_small; lia.
Qed.

(** Without a carry the whole result of the fractal law: the midpoints,
    displaced both in the direction the low byte gives. *)
Lemma fractalInterpolation_displaced
    (yMountain1 yMountain2 xScreen1 xScreen2 yScreen1 yScreen2 bisections : Z) :
  byteSum yMountain1 yMountain2 <= 255 ->
  fractalInterpolation yMountain1 yMountain2 xScreen1 xScreen2
    yScreen1 yScreen2 bisections
  = (JS.sar (yMountain1 + yMountain2) 1
     + lowByteSign yMountain1 yMountain2 * absoluteDisplacement bisections,
     JS.sar (yScreen1 + yScreen2) 1
     + lowByteSign yMountain1 yMountain2
       * screenDisplacement xScreen1 xScreen2 bisections).
Proof.
  intros Hno. pose proof (byteSum_range yMountain1 yMountain2) as Hrange.
  unfold fractalInterpolation, lowByteSign.
  rewrite <- (byteSum_low_byte _ _ Hno).
  destruct (Z.gtb_spec (byteSum yMountain1 yMountain2) 255); [lia|].
  rewrite and_128 by lia.
  destruct (byteSum yMountain1 yMountain2 <? 128); simpl negb; cbv iota;
    f_equal; lia.
Qed.

(** C4, as amended.  At every bisection depth the elevation returned by
    the fractal law is the midpoint plus a displacement that depends on
    the two elevations and the depth only, and when the sum of the low
    bytes of the elevations exceeds 255 the displacement is 0 and the
    law returns what the linear law returns, the floor of the midpoint
    of the elevations and of the screen rows whenever their sums fit in
    32 signed bits.  Without that carry the byte sum is the low byte of
    the sum of the elevations, and elevation and screen row are both
    displaced in the direction this byte gives (up when its bit 7 is
    clear, down when it is set): the elevation by [1 << (12 - depth -
    2)], the screen row by the distance between the two columns
    shifted right by [depth + 2].  The shift count of the elevation
    displacement is taken modulo 32: for a depth of 0 to 10 the
    displacement is the positive 2^(10 - depth), which halves from each
    depth below 10 to the next; where the count is 31 modulo 32, as at
    depth 11, it is -2^31.  For columns less than 2^31 apart and a depth
    of 0 to 29 the screen displacement is the distance divided by
    2^(depth + 2), rounded down. *)
Theorem fractalInterpolation_law (yMountain1 yMountain2 bisections : Z) :
  (forall xScreen1 xScreen2 yScreen1 yScreen2 xScreen1' xScreen2' yScreen1'
          yScreen2',
     fst (fractalInterpolation yMountain1 yMountain2 xScreen1 xScreen2
            yScreen1 yScreen2 bisections)
     = fst (fractalInterpolation yMountain1 yMountain2 xScreen1' xScreen2'
              yScreen1' yScreen2' bisections)) /\
  (forall xScreen1 xScreen2 yScreen1 yScreen2,
     fst (fractalInterpolation yMountain1 yMountain2 xScreen1 xScreen2
            yScreen1 yScreen2 bisections)
     = fst (linearInterpolation yMountain1 yMountain2 xScreen1 xScreen2
              yScreen1 yScreen2 bisections)
       + fractalDisplacement yMountain1 yMountain2 bisections) /\
  (byteSum yMountain1 yMountain2 > 255 ->
   fractalDisplacement yMountain1 yMountain2 bisections = 0 /\
   forall xScreen1 xScreen2 yScreen1 yScreen2,
     fractalInterpolation yMountain1 yMountain2 xScreen1 xScreen2
       yScreen1 yScreen2 bisections
     = linearInterpolation yMountain1 yMountain2 xScreen1 xScreen2
         yScreen1 yScreen2 bisections /\
     (- 2 ^ 31 <= yMountain1 + yMountain2 < 2 ^ 31 ->
      - 2 ^ 31 <= yScreen1 + yScreen2 < 2 ^ 31 ->
      fractalInterpolation yMountain1 yMountain2 xScreen1 xScreen2
        yScreen1 yScreen2 bisections
      = ((yMountain1 + yMountain2) / 2, (yScreen1 + yScreen2) / 2))) /\
  (byteSum yMountain1 yMountain2 <= 255 ->
   byteSum yMountain1 yMountain2 = (yMountain1 + yMountain2) mod 256 /\
   fractalDisplacement yMountain1 yMountain2 bisections
   = lowByteSign yMountain1 yMountain2 * absoluteDisplacement bisections /\
   (forall xScreen1 xScreen2 yScreen1 yScreen2,
      fractalInterpolation yMountain1 yMountain2 xScreen1 xScreen2
        yScreen1 yScreen2 bisections
      = (fst (linearInterpolation yMountain1 yMountain2 xScreen1 xScreen2
                yScreen1 yScreen2 bisections)
         + lowByteSign yMountain1 yMountain2 * absoluteDisplacement bisections,
         snd (linearInterpolation yMountain1 yMountain2 xScreen1 xScreen2
                yScreen1 yScreen2 bisections)
         + lowByteSign yMountain1 yMountain2
           * screenDisplacement xScreen1 xScreen2 bisections)) /\
   (0 <= bisections <= 10 ->
    fractalDisplacement yMountain1 yMountain2 bisections
    = lowByteSign yMountain1 yMountain2
      * 2 ^ (bitsBetweenTops - bisections - displacementAttenuationPower) /\
    (bisections < 10 ->
     Z.abs (fractalDisplacement yMountain1 yMountain2 bisections)
     = 2 * Z.abs (fractalDisplacement yMountain1 yMountain2 (bisections + 1))))) /\
  absoluteDisplacement bisections
  = (if (bitsBetweenTops - bisections - displacementAttenuationPower) mod 32
        =? 31
     then - 2 ^ 31
     else 2 ^ ((bitsBetweenTops - bisections - displacementAttenuationPower)
               mod 32)) /\
  (forall xScreen1 xScreen2,
     Z.abs (xScreen2 - xScreen1) < 2 ^ 31 -> 0 <= bisections <= 29 ->
     screenDisplacement xScreen1 xScreen2 bisections
     = Z.abs (xScreen2 - xScreen1)
       / 2 ^ (bisections + displacementAttenuationPower)).
Proof.
  pose proof (byteSum_range yMountain1 yMountain2) as Hrange.
  assert (forall b,
            byteSum yMountain1 yMountain2 <= 255 ->
            fractalDisplacement yMountain1 yMountain2 b
            = lowByteSign yMountain1 yMountain2 * absoluteDisplacement b)
    as Hsigned.
  { intros b Hno. rewrite fractalDisplacement_spec.
    unfold lowByteSign. rewrite <- (byteSum_low_byte _ _ Hno).
    destruct (Z.gtb_spec (byteSum yMountain1 yMountain2) 255); [lia|].
    destruct (byteSum yMountain1 yMountain2 <? 128); lia. }
  split; [intros; now rewrite !fractalInterpolation_elevation|].
  split; [intros; now rewrite fractalInterpolation_elevation|].
  split; [|split; [|split]].
  - intros Hov.
    assert ((byteSum yMountain1 yMountain2 >? 255) = true) as Hgt
      by (apply Z.gtb_lt; lia).
    split; [rewrite fractalDisplacement_spec, Hgt; reflexivity|].
    intros. unfold fractalInterpolation, linearInterpolation. rewrite Hgt.
    split; [reflexivity|].
    intros Hm Hs. now rewrite !sar_1.
  - intros Hno.
    split; [exact (byteSum_low_byte _ _ Hno)|].
    split; [exact (Hsigned bisections Hno)|].
    split; [intros; now apply fractalInterpolation_displaced|].
    intros Hdepth.
    assert (forall b, 0 <= b <= 10 ->
              fractalDisplacement yMountain1 yMountain2 b
              = lowByteSign yMountain1 yMountain2
                * 2 ^ (bitsBetweenTops - b - displacementAttenuationPower))
      as Hformula
      by (intros b Hb; now rewrite Hsigned, absoluteDisplacement_spec).
    split; [now apply Hformula|].
    intros Hnext. rewrite !Hformula by lia.
    change (bitsBetweenTops - bisections - displacementAttenuationPower)
      with (12 - bisections - 2).
    change (bitsBetweenTops - (bisections + 1) - displacementAttenuationPower)
      with (12 - (bisections + 1) - 2).
    replace (12 - bisections - 2) with (Z.succ (12 - (bisections + 1) - 2)) by lia.
    rewrite Z.pow_succ_r by lia.
    assert (0 < 2 ^ (12 - (bisections + 1) - 2)) by (apply Z.pow_pos_nonneg; lia).
    unfold lowByteSign.
    destruct ((yMountain1 + yMountain2) mod 256 <? 128); lia.
  - apply shl_one.
  - intros xScreen1 xScreen2 Hx Hb. now apply screenDisplacement_spec.
Qed.

Lemma fractalInterpolation_law_witness :
  byteSum 100 100 <= 255 /\
  0 <= 3 <= 10 /\
  lowByteSign 100 100 = -1 /\
  fractalDisplacement 100 100 3 = - 2 ^ 7 /\
  fractalInterpolation 100 100 0 64 10 20 3 = (100 - 128, 15 - 2) /\
  Z.abs (fractalDisplacement 100 100 3)
  = 2 * Z.abs (fractalDisplacement 100 100 (3 + 1)).
Proof.
  assert (byteSum 100 100 <= 255) as Hno by (vm_compute; discriminate).
  assert (0 <= 3 <= 10) as Hdepth by lia.
  assert (3 < 10) as Hnext by lia.
  split; [exact Hno|]. split; [exact Hdepth|]. split; [reflexivity|].
  destruct (fractalInterpolation_law 100 100 3)
    as (_ & _ & _ & Hsigned & _ & _).
  destruct (Hsigned Hno) as (_ & _ & Hresult & Hdeep).
  destruct (Hdeep Hdepth) as [Hvalue Hhalves].
  split; [exact Hvalue|]. split; [exact (Hresult 0 64 10 20)|].
  exact (Hhalves Hnext).
Defined.

(** At depth 11 the shift count of the displacement is negative; [<<]
    takes it modulo 32 and the displacement becomes -2^31, although the
    byte sum is 0: neither half of the magnitude at depth 10 nor
    positive. *)
Lemma fractalInterpolation_law_counterexample :
  byteSum 0 0 = 0 /\
  fractalDisplacement 0 0 10 = 1 /\
  fractalDisplacement 0 0 11 = - 2 ^ 31 /\
  Z.abs (fractalDisplacement 0 0 10) <> 2 * Z.abs (fractalDisplacement 0 0 11).
Proof. repeat split; vm_compute; congruence. Qed.

(** ** Column compositing *)

Lemma index_insert_same {A : Type} (l : list A) (i : Z) (a b : A) :
  JS.index l i = Some a -> JS.index (<[Z.to_nat i := b]> l) i = Some b.
Proof.
  intros Hi. pose proof (index_Some_inv _ _ _ Hi) as Hr.
  unfold JS.index. destruct (Z.ltb_spec i 0); [lia|].
  apply list_lookup_insert_eq. lia.
Qed.

Lemma index_insert_other {A : Type} (l : list A) (i j : Z) (b : A) :
  0 <= i -> i <> j -> JS.index (<[Z.to_nat i := b]> l) j = JS.index l j.
Proof.
  intros Hi Hne. unfold JS.index. destruct (Z.ltb_spec j 0); [reflexivity|].
  apply list_lookup_insert_ne. lia.
Qed.

Lemma index_replicate {A : Type} (n i : Z) (a : A) :
  0 <= i < n -> JS.index (replicate (Z.to_nat n) a) i = Some a.
Proof.
  intros Hi. unfold JS.index. destruct (Z.ltb_spec i 0); [lia|].
  apply lookup_replicate_2. lia.
Qed.

Lemma guard_inside (vp : Viewport) (xScreen : Z) :
  0 <= xScreen < width vp ->
  (xScreen <? 0) || (xScreen >=? width vp) = false.
Proof.
  intros Hx. destruct (Z.ltb_spec xScreen 0); [lia|].
  destruct (Z.geb_spec xScreen (width vp)); [lia|reflexivity].
Qed.

(** First mountain on a column: sky above, mountain below. *)
Lemma drawMountainColumn_first (vp : Viewport) (xScreen mountainTop : Z) :
  0 <= xScreen < width vp ->
  JS.index (topHeights vp) xScreen = Some undrawn ->
  drawMountainColumn vp xScreen mountainTop
  = paintColumn vp xScreen mountainTop
      [ {| image := skyPixel; dx := JS.shl xScreen (scalePowerOfTwo vp);
           dy := 0; dWidth := JS.shl 1 (scalePowerOfTwo vp);
           dHeight := JS.shl (height vp - mountainTop) (scalePowerOfTwo vp) |};
        {| image := mountainPixel; dx := JS.shl xScreen (scalePowerOfTwo vp);
           dy := JS.shl (height vp - mountainTop) (scalePowerOfTwo vp);
           dWidth := JS.shl 1 (scalePowerOfTwo vp);
           dHeight := JS.shl mountainTop (scalePowerOfTwo vp) |} ].
Proof.
  intros Hx Hread. unfold drawMountainColumn.
  now rewrite guard_inside, Hread by exact Hx.
Qed.

(** A taller mountain behind: an edge line at the old top and the newly
    exposed band. *)
Lemma drawMountainColumn_taller (vp : Viewport) (xScreen mountainTop topHeight : Z) :
  0 <= xScreen < width vp ->
  JS.index (topHeights vp) xScreen = Some topHeight ->
  topHeight <> undrawn ->
  topHeight < mountainTop ->
  drawMountainColumn vp xScreen mountainTop
  = paintColumn vp xScreen mountainTop
      [ {| image := mountainEdgePixel;
           dx := JS.shl xScreen (scalePowerOfTwo vp);
           dy := JS.shl (height vp - topHeight) (scalePowerOfTwo vp);
           dWidth := JS.shl 1 (scalePowerOfTwo vp);
           dHeight := JS.shl 1 (scalePowerOfTwo vp) |};
        {| image := mountainPixel; dx := JS.shl xScreen (scalePowerOfTwo vp);
           dy := JS.shl (height vp - mountainTop) (scalePowerOfTwo vp);
           dWidth := JS.shl 1 (scalePowerOfTwo vp);
           dHeight := JS.shl (mountainTop - topHeight) (scalePowerOfTwo vp) |} ].
Proof.
  intros Hx Hread Hdrawn Htaller. unfold drawMountainColumn.
  rewrite guard_inside, Hread by exact Hx.
  destruct (Z.eqb_spec topHeight undrawn); [contradiction|].
  destruct (Z.gtb_spec mountainTop topHeight); [reflexivity|lia].
Qed.

(** A mountain no taller than what the column already shows is hidden. *)
Lemma drawMountainColumn_hidden (vp : Viewport) (xScreen mountainTop topHeight : Z) :
  recordedHeight vp xScreen = Some topHeight ->
  mountainTop <= topHeight ->
  drawMountainColumn vp xScreen mountainTop = vp.
Proof.
  unfold recordedHeight, drawMountainColumn. intros Hrec Hle.
  destruct ((xScreen <? 0) || (xScreen >=? width vp)); [reflexivity|].
  destruct (JS.index (topHeights vp) xScreen) as [h|]; [|reflexivity].
  destruct (h =? undrawn); [discriminate|].
  injection Hrec as ->.
  destruct (Z.gtb_spec mountainTop topHeight); [lia|reflexivity].
Qed.

(** What a column stores after one submission. *)
Lemma drawMountainColumn_stored (vp : Viewport) (xScreen mountainTop c h : Z) :
  JS.index (topHeights vp) c = Some h ->
  exists h',
    JS.index (topHeights (drawMountainColumn vp xScreen mountainTop)) c = Some h' /\
    (h' = h \/
     c = xScreen /\ h' = mountainTop /\ (h = undrawn \/ h < mountainTop)).
Proof.
  intros Hc. unfold drawMountainColumn.
  destruct (Z.ltb_spec xScreen 0); simpl; [eauto|].
  destruct (Z.geb_spec xScreen (width vp)); simpl; [eauto|].
  destruct (JS.index (topHeights vp) xScreen) as [topHeight|] eqn:Hx; [|eauto].
  destruct (Z.eq_dec c xScreen) as [->|Hne].
  - assert (topHeight = h) as -> by congruence.
    destruct (Z.eqb_spec h undrawn).
    + exists mountainTop. simpl. split; [now apply index_insert_same with h|].
      right. auto.
    + destruct (Z.gtb_spec mountainTop h); [|eauto].
      exists mountainTop. simpl. split; [now apply index_insert_same with h|].
      right. split; [reflexivity|]. split; [reflexivity|]. right. lia.
  - destruct (topHeight =? undrawn); [|destruct (mountainTop >? topHeight)];
      simpl; try rewrite index_insert_other by (lia || congruence); eauto.
Qed.

(** C1, as amended: on a freshly reset buffer the candidates 10, 25 and
    18 for one column of the viewport leave 25 recorded; the first is
    painted as sky and mountain, the second as an edge line and the newly
    exposed mountain band, which makes two mountain fills, and the third
    changes nothing.  In general a candidate at or below the recorded
    height of its column changes nothing, and a submission lowers the
    value stored for no column, provided the column already holds a
    height other than the [undrawn] sentinel -1 or the candidate is not
    below that sentinel. *)
Theorem drawMountainColumn_occlusion :
  (forall (vp : Viewport) (xScreen : Z),
     0 <= xScreen < width vp ->
     recordedHeight (resetTopHeights vp) xScreen = None /\
     recordedHeight (drawMountainColumns (resetTopHeights vp) xScreen [10])
       xScreen = Some 10 /\
     recordedHeight (drawMountainColumns (resetTopHeights vp) xScreen [10; 25])
       xScreen = Some 25 /\
     recordedHeight (drawMountainColumns (resetTopHeights vp) xScreen [10; 25; 18])
       xScreen = Some 25 /\
     drawMountainColumns (resetTopHeights vp) xScreen [10; 25; 18]
     = drawMountainColumns (resetTopHeights vp) xScreen [10; 25] /\
     (exists sky fill edge band,
        context (drawMountainColumns (resetTopHeights vp) xScreen [10; 25; 18])
        = context vp ++ [sky; fill; edge; band] /\
        image sky = skyPixel /\ image fill = mountainPixel /\
        image edge = mountainEdgePixel /\ image band = mountainPixel) /\
     length (mountainFills
               (context (drawMountainColumns (resetTopHeights vp) xScreen
                           [10; 25; 18])))
     = (length (mountainFills (context vp)) + 2)%nat) /\
  (forall (vp : Viewport) (xScreen mountainTop topHeight : Z),
     recordedHeight vp xScreen = Some topHeight ->
     mountainTop <= topHeight ->
     drawMountainColumn vp xScreen mountainTop = vp) /\
  (forall (vp : Viewport) (xScreen mountainTop c h : Z),
     JS.index (topHeights vp) c = Some h ->
     h <> undrawn \/ undrawn <= mountainTop ->
     exists h',
       JS.index (topHeights (drawMountainColumn vp xScreen mountainTop)) c
       = Some h' /\ h <= h').
Proof.
  split; [|split].
  - intros vp xScreen Hx.
    set (vp0 := resetTopHeights vp).
    assert (JS.index (topHeights vp0) xScreen = Some undrawn) as H0
      by (apply index_replicate; exact Hx).
    assert (0 <= xScreen < width vp0) as Hx0 by exact Hx.
    unfold drawMountainColumns. cbn [fold_left].
    rewrite (drawMountainColumn_first vp0 xScreen 10 Hx0 H0).
    set (vp1 := paintColumn vp0 xScreen 10 _).
    assert (JS.index (topHeights vp1) xScreen = Some 10) as H1
      by (apply index_insert_same with undrawn; exact H0).
    assert (0 <= xScreen < width vp1) as Hx1 by exact Hx.
    rewrite (drawMountainColumn_taller vp1 xScreen 25 10 Hx1 H1)
      by (unfold undrawn; lia).
    set (vp2 := paintColumn vp1 xScreen 25 _).
    assert (JS.index (topHeights vp2) xScreen = Some 25) as H2
      by (apply index_insert_same with 10; exact H1).
    assert (recordedHeight vp2 xScreen = Some 25) as R2
      by (unfold recordedHeight; now rewrite H2).
    rewrite (drawMountainColumn_hidden vp2 xScreen 18 25 R2) by lia.
    split; [unfold recordedHeight; now rewrite H0|].
    split; [unfold recordedHeight; now rewrite H1|].
    split; [exact R2|]. split; [exact R2|]. split; [reflexivity|].
    split.
    + do 4 eexists. split.
      * subst vp2 vp1 vp0. cbn [context paintColumn resetTopHeights].
        rewrite <- app_assoc. reflexivity.
      * repeat split.
    + subst vp2 vp1 vp0. cbn [context paintColumn resetTopHeights].
      unfold mountainFills. rewrite !List.filter_app, !length_app.
      cbn. lia.
  - exact drawMountainColumn_hidden.
  - intros vp xScreen mountainTop c h Hc Hside.
    destruct (drawMountainColumn_stored vp xScreen mountainTop c h Hc)
      as (h' & Hh' & [->|(_ & -> & Hcase)]).
    + exists h. split; [exact Hh'|lia].
    + exists mountainTop. split; [exact Hh'|].
      destruct Hcase as [->|Hlt]; [|lia].
      destruct Hside as [Hdrawn|Hm]; [contradiction|exact Hm].
Qed.

Lemma drawMountainColumn_occlusion_witness :
  0 <= 7 < width pageViewport /\
  recordedHeight
    (drawMountainColumns (resetTopHeights pageViewport) 7 [10; 25; 18]) 7
  = Some 25 /\
  recordedHeight (drawMountainColumns (resetTopHeights pageViewport) 7 [10; 25]) 7
  = Some 25 /\
  25 <= 25 /\
  drawMountainColumn
    (drawMountainColumns (resetTopHeights pageViewport) 7 [10; 25]) 7 25
  = drawMountainColumns (resetTopHeights pageViewport) 7 [10; 25] /\
  JS.index (topHeights (resetTopHeights pageViewport)) 7 = Some undrawn /\
  (undrawn <> undrawn \/ undrawn <= 3) /\
  exists h',
    JS.index (topHeights (drawMountainColumn (resetTopHeights pageViewport) 7 3)) 7
    = Some h' /\ undrawn <= h'.
Proof.
  assert (0 <= 7 < width pageViewport) as Hx by (vm_compute; split; congruence).
  pose proof (proj1 drawMountainColumn_occlusion pageViewport 7 Hx)
    as (_ & _ & R2 & R3 & _).
  assert (25 <= 25) as Hle by lia.
  assert (JS.index (topHeights (resetTopHeights pageViewport)) 7 = Some undrawn)
    as H0 by reflexivity.
  assert (undrawn <> undrawn \/ undrawn <= 3) as Hside
    by (right; unfold undrawn; lia).
  split; [exact Hx|]. split; [exact R3|]. split; [exact R2|].
  split; [exact Hle|]. split.
  - exact (proj1 (proj2 drawMountainColumn_occlusion) _ 7 25 25 R2 Hle).
  - split; [exact H0|]. split; [exact Hside|].
    exact (proj2 (proj2 drawMountainColumn_occlusion)
             (resetTopHeights pageViewport) 7 3 7 undrawn H0 Hside).
Defined.

(** Candidates below the sentinel: after -5 and then -1 the column reads
    as undrawn again, and -10 is recorded below the -5 recorded first. *)
Lemma drawMountainColumn_occlusion_counterexample :
  recordedHeight (drawMountainColumns (resetTopHeights pageViewport) 0 [-5]) 0
  = Some (-5) /\
  recordedHeight (drawMountainColumns (resetTopHeights pageViewport) 0 [-5; -1]) 0
  = None /\
  recordedHeight
    (drawMountainColumns (resetTopHeights pageViewport) 0 [-5; -1; -10]) 0
  = Some (-10) /\
  -10 < -5.
Proof. repeat split. Qed.

(** ** Recursive interpolation *)

(** The recursion stops when the midpoint falls on one of the bounds. *)
Lemma interpolate_adjacent (fuel : nat) (vp : Viewport)
    (yMountain1 yMountain2 x1 x2 y1 y2 bisections : Z) :
  JS.sar (x1 + x2) 1 = x1 \/ JS.sar (x1 + x2) 1 = x2 ->
  interpolate (S fuel) vp yMountain1 yMountain2 x1 x2 y1 y2 bisections = Some vp.
Proof.
  intros Hmid. simpl.
  destruct (((x1 <? 0) || (x1 >=? width vp)) && ((x2 <? 0) || (y2 >=? width vp)));
    [reflexivity|].
  destruct (Z.eqb_spec (JS.sar (x1 + x2) 1) x1); [reflexivity|].
  destruct (Z.eqb_spec (JS.sar (x1 + x2) 1) x2); [reflexivity|].
  simpl. destruct Hmid; contradiction.
Qed.

(** The test that ends a call at once, as line 551 spells it: the second
    bound is compared with the width through [y2], not through [x2]. *)
Lemma interpolate_guard (fuel : nat) (vp : Viewport)
    (yMountain1 yMountain2 x1 x2 y1 y2 bisections : Z) :
  x1 < 0 \/ width vp <= x1 ->
  x2 < 0 \/ width vp <= y2 ->
  interpolate (S fuel) vp yMountain1 yMountain2 x1 x2 y1 y2 bisections = Some vp.
Proof.
  intros H1 H2. simpl.
  assert ((x1 <? 0) || (x1 >=? width vp) = true) as ->.
  { destruct (Z.ltb_spec x1 0); [reflexivity|].
    destruct (Z.geb_spec x1 (width vp)); [reflexivity|lia]. }
  assert ((x2 <? 0) || (y2 >=? width vp) = true) as ->.
  { destruct (Z.ltb_spec x2 0); [reflexivity|].
    destruct (Z.geb_spec y2 (width vp)); [reflexivity|lia]. }
  reflexivity.
Qed.

(** C6, at a failing input: with the first bound left of the viewport
    (-10) and the second right of it (200, for a width of 160), but a
    second screen row (30) smaller than the width, the call does not
    return at once: it subdivides, records the height 25 on column 95
    and issues 320 [drawImage] calls in all. *)
Theorem interpolate_offscreen_endpoints :
  -10 < 0 /\
  width pageViewport <= 200 /\
  exists vp',
    interpolate 20 (resetTopHeights pageViewport) 1000 2000 (-10) 200 20 30 0
    = Some vp' /\
    recordedHeight vp' 95 = Some 25 /\
    length (context vp') = 320%nat.
Proof.
  split; [lia|]. split; [lazy; discriminate|].
  assert (option_map (fun vp' => (recordedHeight vp' 95, length (context vp')))
            (interpolate 20 (resetTopHeights pageViewport) 1000 2000 (-10) 200
               20 30 0)
          = Some (Some 25, 320%nat)) as Hrun by (vm_compute; reflexivity).
  destruct (interpolate 20 (resetTopHeights pageViewport) 1000 2000 (-10) 200
              20 30 0) as [vp'|]; [|discriminate Hrun].
  exists vp'. simpl in Hrun. injection Hrun as Hrec Hlen. auto.
Qed.

(** The same slip in the other direction: the second bound is on screen
    (column 100), yet the call returns at once because its screen row
    (200) is not below the width. *)
Lemma interpolate_onscreen_endpoint_skipped :
  interpolate 20 (resetTopHeights pageViewport) 1000 2000 (-10) 100 20 200 0
  = Some (resetTopHeights pageViewport).
Proof. apply interpolate_guard; [left; lia|right; lazy; discriminate]. Qed.

(** ** Elevation map *)

Lemma Zmod_shift (n m : Z) : (n + m) mod m = n mod m.
Proof. rewrite <- (Z.mul_1_l m) at 1. apply Z_mod_plus_full. Qed.

Lemma mod_shift (n m : Z) : 0 < m -> mod_ (n + m) m = mod_ n m.
Proof. intros Hm. rewrite !mod_spec by exact Hm. apply Zmod_shift. Qed.

Lemma mod_idem (n m : Z) : 0 < m -> mod_ (n mod m) m = mod_ n m.
Proof. intros Hm. rewrite !mod_spec by exact Hm. apply Z.mod_mod. lia. Qed.

Lemma new_square_grid (n : Z) : Map.square_grid (Map.new n).
Proof.
  unfold Map.square_grid, Map.new. simpl. split.
  - apply length_replicate.
  - apply Forall_replicate. apply length_replicate.
Qed.

Lemma new_within (n lo hi : Z) : lo <= 0 <= hi -> Map.within lo hi (Map.new n).
Proof.
  intros Hr. unfold Map.within, Map.new. simpl. split; [|constructor].
  apply Forall_replicate. apply Forall_replicate. exact Hr.
Qed.

(** On a square grid every read lands on a cell. *)
Lemma get_in_grid (m : Map.t) (row col : Z) :
  0 < Map.size m -> Map.square_grid m ->
  exists cells v,
    Map.map m !! Z.to_nat (row mod Map.size m) = Some cells /\
    cells !! Z.to_nat (col mod Map.size m) = Some v /\
    Map.get m row col = Some v.
Proof.
  intros Hn [Hrows Hcols].
  pose proof (Z.mod_pos_bound row (Map.size m) Hn) as Hr.
  pose proof (Z.mod_pos_bound col (Map.size m) Hn) as Hc.
  destruct (lookup_lt_is_Some_2 (Map.map m) (Z.to_nat (row mod Map.size m)))
    as [cells Hcells]; [lia|].
  pose proof (Forall_lookup_1 _ _ _ _ Hcols Hcells) as Hlen. simpl in Hlen.
  destruct (lookup_lt_is_Some_2 cells (Z.to_nat (col mod Map.size m)))
    as [v Hv]; [lia|].
  exists cells, v. split; [exact Hcells|]. split; [exact Hv|].
  unfold Map.get. destruct (Z.eqb_spec (Map.size m) 0); [lia|].
  rewrite !mod_spec by exact Hn. unfold JS.index.
  destruct (Z.ltb_spec (row mod Map.size m) 0); [lia|]. rewrite Hcells.
  destruct (Z.ltb_spec (col mod Map.size m) 0); [lia|]. exact Hv.
Qed.

Lemma get_wrap (m : Map.t) (row col : Z) :
  0 < Map.size m ->
  Map.get m (row + Map.size m) (col + Map.size m) = Map.get m row col.
Proof. intros Hn. unfold Map.get. now rewrite !mod_shift. Qed.

Lemma get_reduced (m : Map.t) (row col : Z) :
  0 < Map.size m ->
  Map.get m (row mod Map.size m) (col mod Map.size m) = Map.get m row col.
Proof. intros Hn. unfold Map.get. now rewrite !mod_idem. Qed.

Lemma set_wrap (m : Map.t) (row col : Z) (val : Q) :
  0 < Map.size m ->
  Map.set m (row + Map.size m) (col + Map.size m) val = Map.set m row col val.
Proof. intros Hn. unfold Map.set. now rewrite !mod_shift. Qed.

(** On a square grid every write lands on a cell and keeps the grid
    square. *)
Lemma set_in_grid (m : Map.t) (row col : Z) (val : Q) :
  0 < Map.size m -> Map.square_grid m ->
  exists cells,
    Map.map m !! Z.to_nat (row mod Map.size m) = Some cells /\
    Map.set m row col val
    = Some {| Map.size := Map.size m;
              Map.map := <[Z.to_nat (row mod Map.size m) :=
                             <[Z.to_nat (col mod Map.size m) := Qfloor val]> cells]>
                           (Map.map m);
              Map.changes := Map.changes m
                             ++ [(row mod Map.size m, col mod Map.size m,
                                  Qfloor val)] |}.
Proof.
  intros Hn Hgrid.
  destruct (get_in_grid m row col Hn Hgrid) as (cells & v & Hcells & Hv & _).
  pose proof (Z.mod_pos_bound row (Map.size m) Hn) as Hr.
  pose proof (Z.mod_pos_bound col (Map.size m) Hn) as Hc.
  exists cells. split; [exact Hcells|].
  unfold Map.set. destruct (Z.eqb_spec (Map.size m) 0); [lia|].
  rewrite !mod_spec by exact Hn. unfold JS.index.
  destruct (Z.ltb_spec (row mod Map.size m) 0); [lia|]. rewrite Hcells.
  destruct (Z.ltb_spec (col mod Map.size m) 0); [lia|]. rewrite Hv.
  reflexivity.
Qed.

Lemma set_square_grid (m m' : Map.t) (row col : Z) (val : Q) :
  0 < Map.size m -> Map.square_grid m ->
  Map.set m row col val = Some m' ->
  Map.size m' = Map.size m /\ Map.square_grid m'.
Proof.
  intros Hn Hgrid Hset.
  destruct (set_in_grid m row col val Hn Hgrid) as (cells & Hcells & E).
  rewrite E in Hset. injection Hset as <-. simpl. split; [reflexivity|].
  destruct Hgrid as [Hrows Hcols]. unfold Map.square_grid. simpl. split.
  - now rewrite length_insert.
  - apply Forall_insert; [exact Hcols|]. rewrite length_insert.
    exact (Forall_lookup_1 _ _ _ _ Hcols Hcells).
Qed.

(** A write is read back at every coordinate that reduces to the same
    cell, and leaves the other cells alone. *)
Lemma get_set (m m' : Map.t) (row col r c : Z) (val : Q) :
  0 < Map.size m -> Map.square_grid m ->
  Map.set m row col val = Some m' ->
  Map.get m' r c
  = if (r mod Map.size m =? row mod Map.size m)
       && (c mod Map.size m =? col mod Map.size m)
    then Some (Qfloor val) else Map.get m r c.
Proof.
  intros Hn Hgrid Hset.
  destruct (set_in_grid m row col val Hn Hgrid) as (cells & Hcells & E).
  rewrite E in Hset. injection Hset as <-.
  destruct (get_in_grid m r c Hn Hgrid) as (cells' & v & Hcells' & Hv & Hget).
  pose proof (lookup_lt_Some _ _ _ Hcells) as Hrow.
  pose proof (lookup_lt_Some _ _ _ Hcells') as Hrow'.
  pose proof (lookup_lt_Some _ _ _ Hv) as Hcol'.
  pose proof (Z.mod_pos_bound row (Map.size m) Hn).
  pose proof (Z.mod_pos_bound col (Map.size m) Hn).
  pose proof (Z.mod_pos_bound r (Map.size m) Hn).
  pose proof (Z.mod_pos_bound c (Map.size m) Hn).
  assert (length cells = length cells') as Hsame.
  { destruct Hgrid as [_ Hcols].
    pose proof (Forall_lookup_1 _ _ _ _ Hcols Hcells) as L1.
    pose proof (Forall_lookup_1 _ _ _ _ Hcols Hcells') as L2.
    simpl in *. congruence. }
  rewrite Hget. unfold Map.get. simpl.
  destruct (Z.eqb_spec (Map.size m) 0); [lia|].
  rewrite !mod_spec by exact Hn. unfold JS.index.
  destruct (Z.ltb_spec (r mod Map.size m) 0); [lia|].
  destruct (Z.ltb_spec (c mod Map.size m) 0); [lia|].
  destruct (Z.eqb_spec (r mod Map.size m) (row mod Map.size m)) as [Er|Er];
    simpl.
  - rewrite Er, list_lookup_insert_eq by exact Hrow.
    rewrite Er in Hcells'. assert (cells' = cells) as -> by congruence.
    destruct (Z.eqb_spec (c mod Map.size m) (col mod Map.size m)) as [Ec|Ec].
    + rewrite Ec. apply list_lookup_insert_eq. lia.
    + rewrite list_lookup_insert_ne by lia. exact Hv.
  - rewrite list_lookup_insert_ne by lia. rewrite Hcells'. exact Hv.
Qed.

(** C7: on an [N] by [N] map with [N > 0], [get] and [set] act on the
    cell whose coordinates are the given ones reduced modulo [N], which
    always exists: shifting both coordinates by [N] changes neither the
    value read nor the map written, the column after [N - 1] is column
    0, and a value written is read back at every coordinate that reduces
    to the same cell. *)
Theorem map_toroidal (m : Map.t) (row col : Z) :
  0 < Map.size m ->
  Map.square_grid m ->
  Map.get m row col = Map.get m (row + Map.size m) (col + Map.size m) /\
  Map.get m row col = Map.get m (row mod Map.size m) (col mod Map.size m) /\
  0 <= row mod Map.size m < Map.size m /\
  0 <= col mod Map.size m < Map.size m /\
  (exists cells v,
     Map.map m !! Z.to_nat (row mod Map.size m) = Some cells /\
     cells !! Z.to_nat (col mod Map.size m) = Some v /\
     Map.get m row col = Some v) /\
  Map.get m row (Map.size m - 1 + 1) = Map.get m row 0 /\
  forall val : Q,
    exists m',
      Map.set m row col val = Some m' /\
      Map.set m (row + Map.size m) (col + Map.size m) val = Some m' /\
      Map.set m (row mod Map.size m) (col mod Map.size m) val = Some m' /\
      Map.size m' = Map.size m /\
      Map.square_grid m' /\
      Map.get m' row col = Some (Qfloor val) /\
      Map.get m' (row + Map.size m) (col + Map.size m) = Some (Qfloor val) /\
      forall r c,
        r mod Map.size m <> row mod Map.size m \/
        c mod Map.size m <> col mod Map.size m ->
        Map.get m' r c = Map.get m r c.
Proof.
  intros Hn Hgrid.
  split; [now rewrite get_wrap|]. split; [now rewrite get_reduced|].
  split; [now apply Z.mod_pos_bound|]. split; [now apply Z.mod_pos_bound|].
  split; [now apply get_in_grid|]. split.
  - replace (Map.size m - 1 + 1) with (0 + Map.size m) by ring.
    unfold Map.get. now rewrite mod_shift.
  - intros val.
    destruct (set_in_grid m row col val Hn Hgrid) as (cells & Hcells & E).
    eexists. split; [exact E|]. rewrite <- E.
    split; [now apply set_wrap|].
    split; [unfold Map.set; now rewrite !mod_idem|].
    destruct (set_square_grid m _ row col val Hn Hgrid E) as [Hsize Hgrid'].
    split; [exact Hsize|]. split; [exact Hgrid'|].
    assert (forall r c, Map.get _ r c = _) as Hread
      by (intros r c; exact (get_set m _ row col r c val Hn Hgrid E)).
    split; [|split].
    + rewrite Hread, !Z.eqb_refl. reflexivity.
    + rewrite Hread, !Zmod_shift, !Z.eqb_refl. reflexivity.
    + intros r c Hother. rewrite Hread.
      destruct (Z.eqb_spec (r mod Map.size m) (row mod Map.size m));
        destruct (Z.eqb_spec (c mod Map.size m) (col mod Map.size m));
        simpl; try reflexivity.
      destruct Hother; contradiction.
Qed.

Lemma map_toroidal_witness :
  0 < Map.size (Map.new mapSize) /\
  Map.square_grid (Map.new mapSize) /\
  Map.get (Map.new mapSize) 3 15
  = Map.get (Map.new mapSize) (3 + Map.size (Map.new mapSize))
      (15 + Map.size (Map.new mapSize)).
Proof.
  assert (0 < Map.size (Map.new mapSize)) as Hn by reflexivity.
  pose proof (new_square_grid mapSize) as Hgrid.
  split; [exact Hn|]. split; [exact Hgrid|].
  exact (proj1 (map_toroidal (Map.new mapSize) 3 15 Hn Hgrid)).
Defined.

(** ** Generation *)

Lemma clamp_range (val : Q) (max : Z) : 0 <= max -> 0 <= clamp val max <= max.
Proof.
  intros Hmax. unfold clamp.
  destruct (Qle_bool 0 val) eqn:Hlo; simpl; [|lia].
  destruct (Qle_bool val (inject_Z max)) eqn:Hhi; simpl; [|lia].
  apply Qle_bool_iff in Hlo, Hhi.
  apply Qfloor_resp_le in Hlo, Hhi.
  rewrite Qfloor_Z in Hhi. change (Qfloor 0) with 0 in Hlo. lia.
Qed.

Lemma varyFromAverage_range `{Engine} (r : Q) (vals : list Z) (varyBy : Z) :
  0 <= varyFromAverage r vals varyBy <= maxHeight.
Proof. unfold varyFromAverage, vary. apply clamp_range. rewrite maxHeight_eq. lia. Qed.

(** The seed: a draw below 1 scaled by [maxHeight] and rounded down. *)
Lemma seed_range (r : Q) :
  (0 <= r < 1)%Q -> 0 <= Qfloor (r * inject_Z maxHeight) <= maxHeight.
Proof.
  intros [Hlo Hhi]. rewrite maxHeight_eq.
  assert (0 <= r * inject_Z 4096)%Q as H0
    by (apply Qmult_le_0_compat; [exact Hlo|discriminate]).
  assert (r * inject_Z 4096 <= 1 * inject_Z 4096)%Q as H1
    by (apply Qmult_le_compat_r; [now apply Qlt_le_weak|discriminate]).
  apply Qfloor_resp_le in H0, H1.
  change (Qfloor (1 * inject_Z 4096)) with 4096 in H1.
  change (Qfloor 0) with 0 in H0. lia.
Qed.

Lemma set_within (m m' : Map.t) (row col lo hi : Z) (val : Q) :
  0 < Map.size m -> Map.square_grid m ->
  Map.within lo hi m ->
  lo <= Qfloor val <= hi ->
  Map.set m row col val = Some m' ->
  Map.within lo hi m'.
Proof.
  intros Hn Hgrid [Hcells Hchanges] Hval Hset.
  destruct (set_in_grid m row col val Hn Hgrid) as (cells & Hrow & E).
  rewrite E in Hset. injection Hset as <-. split; simpl.
  - apply Forall_insert; [exact Hcells|].
    apply Forall_insert; [|exact Hval].
    exact (Forall_lookup_1 _ _ _ _ Hcells Hrow).
  - apply Forall_app. split; [exact Hchanges|].
    constructor; [exact Hval|constructor].
Qed.

Section Keeps.

Context `{Engine} (N : Z) (HN : 0 < N).

Lemma keeps_ret {A : Type} (a : A) : keeps N (ret a).
Proof. intros m n Hm. exists a, m, n. split; [reflexivity|exact Hm]. Qed.

Lemma keeps_bind {A B : Type} (c : Gen A) (k : A -> Gen B) :
  keeps N c -> (forall a, keeps N (k a)) -> keeps N (bind c k).
Proof.
  intros Hc Hk m n Hm.
  destruct (Hc m n Hm) as (a & m1 & n1 & E1 & Hm1).
  destruct (Hk a m1 n1 Hm1) as (b & m2 & n2 & E2 & Hm2).
  exists b, m2, n2. split; [|exact Hm2].
  unfold bind. rewrite E1. exact E2.
Qed.

Lemma keeps_get (row col : Z) : keeps N (this_get row col).
Proof.
  intros m n (Hsize & Hgrid & Hin).
  destruct (get_in_grid m row col) as (cells & v & _ & _ & Hget);
    [lia|exact Hgrid|].
  exists v, m, n. split; [|exact (conj Hsize (conj Hgrid Hin))].
  unfold this_get. now rewrite Hget.
Qed.

Lemma keeps_set (row col : Z) (val : Q) :
  0 <= Qfloor val <= maxHeight -> keeps N (this_set row col val).
Proof.
  intros Hval m n (Hsize & Hgrid & Hin).
  assert (0 < Map.size m) as Hn by lia.
  destruct (set_in_grid m row col val Hn Hgrid) as (cells & _ & E).
  destruct (set_square_grid m _ row col val Hn Hgrid E) as [Hsize' Hgrid'].
  pose proof (set_within m _ row col 0 maxHeight val Hn Hgrid Hin Hval E) as Hin'.
  eexists tt, _, n. split; [unfold this_set; now rewrite E|].
  split; [|split]; [congruence|exact Hgrid'|exact Hin'].
Qed.

Lemma keeps_size : keeps N this_size.
Proof. intros m n Hm. exists (Map.size m), m, n. split; [reflexivity|exact Hm]. Qed.

Lemma keeps_nextRandom : keeps N nextRandom.
Proof. intros m n Hm. exists (random n), m, (S n). split; [reflexivity|exact Hm]. Qed.

Lemma keeps_set_varied (row col : Z) (r : Q) (vals : list Z) (varyBy : Z) :
  keeps N (this_set row col (inject_Z (varyFromAverage r vals varyBy))).
Proof. apply keeps_set. rewrite Qfloor_Z. apply varyFromAverage_range. Qed.

Lemma keeps_square_with (diamond : Z -> Z -> Z -> Gen unit) (row col size : Z) :
  (forall r c, keeps N (diamond r c (JS.sar size 1))) ->
  keeps N (square_with diamond row col size).
Proof.
  intros Hd. unfold square_with.
  destruct (size <=? 1); [apply keeps_ret|].
  repeat (apply keeps_bind; [apply keeps_get|intros ?]).
  apply keeps_bind; [apply keeps_nextRandom|intros r].
  apply keeps_bind; [apply keeps_set_varied|intros _].
  apply keeps_bind; [apply Hd|intros _]. apply Hd.
Qed.

(** One level of fuel per halving of the size is enough. *)
Lemma keeps_diamond (fuel : nat) (row col size : Z) :
  size <= 2 ^ Z.of_nat fuel -> size < 2 ^ 31 ->
  keeps N (diamond (S fuel) row col size).
Proof.
  revert row col size.
  induction fuel as [|fuel IH]; intros row col size Hfuel H32.
  - simpl. destruct (Z.leb_spec size 1); [apply keeps_ret|].
    change (2 ^ Z.of_nat 0) with 1 in Hfuel. lia.
  - cbn [diamond]. destruct (Z.leb_spec size 1) as [|Hbig]; [apply keeps_ret|].
    assert (forall r c, keeps N (diamond (S fuel) r c (JS.sar size 1))) as Hhalf.
    { intros r c. rewrite sar_1 by lia. apply IH.
      - rewrite Nat2Z.inj_succ, Z.pow_succ_r in Hfuel by lia.
        Z.div_mod_to_equations. lia.
      - Z.div_mod_to_equations. lia. }
    repeat (apply keeps_bind; [apply keeps_get|intros ?]).
    apply keeps_bind; [apply keeps_nextRandom|intros r].
    apply keeps_bind; [apply keeps_set_varied|intros _].
    apply keeps_bind; [|intros _]; now apply keeps_square_with.
Qed.

End Keeps.

Lemma refines_refl {A : Type} (c : Gen A) : refines c c.
Proof. intros s r E. exact E. Qed.

Lemma refines_bind {A B : Type} (c : Gen A) (k k' : A -> Gen B) :
  (forall a, refines (k a) (k' a)) -> refines (bind c k) (bind c k').
Proof.
  intros Hk s r. unfold bind. destruct (c s) as [[a s']|]; [|discriminate].
  apply Hk.
Qed.

Lemma refines_square_with `{Engine} (d d' : Z -> Z -> Z -> Gen unit)
    (row col size : Z) :
  (forall r c h, refines (d r c h) (d' r c h)) ->
  refines (square_with d row col size) (square_with d' row col size).
Proof.
  intros Hd. unfold square_with.
  destruct (size <=? 1); [apply refines_refl|].
  do 6 (apply refines_bind; intros ?).
  intros s r. unfold bind. destruct (d _ _ _ s) as [[[] s']|] eqn:E;
    [|discriminate].
  rewrite (Hd _ _ _ _ _ E). apply Hd.
Qed.

(** More fuel never changes an outcome already reached. *)
Lemma diamond_mono `{Engine} (fuel fuel' : nat) (row col size : Z) :
  (fuel <= fuel')%nat ->
  refines (diamond fuel row col size) (diamond fuel' row col size).
Proof.
  revert fuel' row col size.
  induction fuel as [|fuel IH]; intros fuel' row col size Hle;
    [intros s r; discriminate|].
  destruct fuel' as [|fuel']; [lia|].
  cbn [diamond]. destruct (size <=? 1); [apply refines_refl|].
  do 6 (apply refines_bind; intros ?).
  assert (forall r c h, refines (diamond fuel r c h) (diamond fuel' r c h))
    as Hd by (intros; apply IH; lia).
  intros s r. unfold bind.
  destruct (square_with (diamond fuel) _ _ _ s) as [[[] s']|] eqn:E;
    [|discriminate].
  rewrite (refines_square_with _ _ _ _ _ Hd _ _ E).
  now apply refines_square_with.
Qed.

Lemma variedAverage_spec `{Engine} (r : Q) (a b c d varyBy : Z) :
  varyFromAverage r [a; b; c; d] varyBy = variedAverage r a b c d varyBy.
Proof. reflexivity. Qed.

Lemma set_reduced (m : Map.t) (row col : Z) (val : Q) :
  0 < Map.size m ->
  Map.set m (mod_ row (Map.size m)) (mod_ col (Map.size m)) val
  = Map.set m row col val.
Proof.
  intros Hn. unfold Map.set.
  assert (forall i, mod_ (mod_ i (Map.size m)) (Map.size m)
                    = mod_ i (Map.size m)) as Hidem
    by (intros i; rewrite !mod_spec by exact Hn; apply Z.mod_mod; lia).
  now rewrite !Hidem.
Qed.

Lemma set_changes (m m' : Map.t) (row col : Z) (val : Q) :
  Map.set m row col val = Some m' ->
  Map.size m' = Map.size m /\
  Map.changes m'
  = Map.changes m
    ++ [(mod_ row (Map.size m), mod_ col (Map.size m), Qfloor val)].
Proof.
  unfold Map.set. destruct (Map.size m =? 0); [discriminate|].
  destruct (JS.index (Map.map m) _) as [cells|]; [|discriminate].
  destruct (JS.index cells _); [|discriminate].
  intros E. injection E as <-. split; reflexivity.
Qed.

Lemma averagedWrites_app `{Engine} (n : nat) (m m1 m2 : Map.t)
    (log1 log2 : list (Z * Z * Z)) :
  averagedWrites n m log1 m1 ->
  averagedWrites (n + length log1) m1 log2 m2 ->
  averagedWrites n m (log1 ++ log2) m2.
Proof.
  induction 1 as [n m|n m ma mb row col val log Hw Hset _ IH]; intros Hrest.
  - simpl in Hrest. now rewrite Nat.add_0_r in Hrest.
  - simpl. econstructor; [exact Hw|exact Hset|]. apply IH.
    simpl in Hrest. now rewrite Nat.add_succ_r in Hrest.
Qed.

Section Traced.

Context `{Engine} (N : Z) (HN : 0 < N < 2 ^ 31).

Lemma traced_ret : traced N (ret tt).
Proof.
  intros m m' n n' Hsize E. injection E as <- <-.
  exists []. rewrite app_nil_r, Nat.add_0_r.
  repeat split; [exact Hsize|constructor].
Qed.

Lemma traced_seq (c k : Gen unit) :
  traced N c -> traced N k -> traced N (c ;;; k).
Proof.
  intros Hc Hk m m' n n' Hsize E. unfold bind in E.
  destruct (c (m, n)) as [[[] [m1 n1]]|] eqn:E1; [|discriminate].
  destruct (Hc _ _ _ _ Hsize E1) as (log1 & Hsize1 & Hlog1 & -> & Hw1).
  destruct (Hk _ _ _ _ Hsize1 E) as (log2 & Hsize2 & Hlog2 & -> & Hw2).
  exists (log1 ++ log2). split; [exact Hsize2|].
  split; [now rewrite Hlog2, Hlog1, app_assoc|].
  split; [rewrite length_app; lia|].
  now apply averagedWrites_app with (m1 := m1).
Qed.

(** The four reads, the draw and the write that open both steps. *)
Lemma traced_write (cells : list (Z * Z)) (row col size : Z) (rest : Gen unit) :
  1 < size <= N ->
  cells = corners row col size \/ cells = cross row col size ->
  traced N rest ->
  forall p1 p2 p3 p4, cells = [p1; p2; p3; p4] ->
  traced N
    (a <~ this_get (fst p1) (snd p1) ;;
     b <~ this_get (fst p2) (snd p2) ;;
     c <~ this_get (fst p3) (snd p3) ;;
     d <~ this_get (fst p4) (snd p4) ;;
     r <~ nextRandom ;;
     this_set (row + JS.sar size 1) (col + JS.sar size 1)
       (inject_Z (varyFromAverage r [a; b; c; d] (maxVariation * size))) ;;;
     rest).
Proof.
  intros Hsize Hshape Hrest p1 p2 p3 p4 Hcells m m' n n' Hm E.
  unfold bind, this_get, nextRandom in E.
  destruct (Map.get m (fst p1) (snd p1)) as [a|] eqn:Ea; [|discriminate].
  destruct (Map.get m (fst p2) (snd p2)) as [b|] eqn:Eb; [|discriminate].
  destruct (Map.get m (fst p3) (snd p3)) as [c|] eqn:Ec; [|discriminate].
  destruct (Map.get m (fst p4) (snd p4)) as [d|] eqn:Ed; [|discriminate].
  unfold this_set at 1 in E.
  destruct (Map.set m _ _ _) as [m1|] eqn:Eset; [|discriminate].
  destruct (set_changes _ _ _ _ _ Eset) as [Hsize1 Hlog1].
  rewrite Qfloor_Z, variedAverage_spec, Hm in Hlog1.
  destruct (Hrest m1 m' (S n) n' ltac:(congruence) E)
    as (log & Hsize' & Hlog & -> & Hw).
  eexists (_ :: log). split; [exact Hsize'|].
  split; [rewrite Hlog, Hlog1, <- app_assoc; reflexivity|].
  split; [simpl; lia|].
  econstructor; [| |exact Hw].
  - exists row, col, size, a, b, c, d. rewrite Hm.
    split; [exact Hsize|]. split; [|reflexivity].
    destruct Hshape as [<-|<-]; [left|right]; rewrite Hcells; simpl;
      now rewrite Ea, Eb, Ec, Ed.
  - rewrite <- Hm, set_reduced by lia. rewrite variedAverage_spec in Eset.
    exact Eset.
Qed.

Lemma traced_square_with (diamond : Z -> Z -> Z -> Gen unit) (row col size : Z) :
  size <= N ->
  (forall r c, traced N (diamond r c (JS.sar size 1))) ->
  traced N (square_with diamond row col size).
Proof.
  intros Hsize Hd. unfold square_with.
  destruct (Z.leb_spec size 1); [apply traced_ret|].
  exact (traced_write (cross row col size) row col size
           (diamond row col (JS.sar size 1) ;;;
            diamond (row - JS.sar size 1) col (JS.sar size 1))
           ltac:(lia) (or_intror eq_refl)
           (traced_seq _ _ (Hd _ _) (Hd _ _)) _ _ _ _ eq_refl).
Qed.

Lemma traced_diamond (fuel : nat) (row col size : Z) :
  size <= N -> traced N (diamond fuel row col size).
Proof.
  revert row col size.
  induction fuel as [|fuel IH]; intros row col size Hsize;
    [intros m m' n n' _ E; discriminate|].
  cbn [diamond]. destruct (Z.leb_spec size 1); [apply traced_ret|].
  assert (forall r c, traced N (diamond fuel r c (JS.sar size 1))) as Hhalf.
  { intros r c. apply IH. rewrite sar_1 by lia. Z.div_mod_to_equations. lia. }
  pose proof (fun r c => traced_square_with (diamond fuel) r c size Hsize Hhalf)
    as Hsquare.
  exact (traced_write (corners row col size) row col size
           (square_with (diamond fuel) (row + JS.shl (JS.sar size 1) 1)
              (col + JS.sar size 1) size ;;;
            square_with (diamond fuel) (row + JS.sar size 1)
              (col + JS.shl (JS.sar size 1) 1) size)
           ltac:(lia) (or_introl eq_refl)
           (traced_seq _ _ (Hsquare _ _) (Hsquare _ _)) _ _ _ _ eq_refl).
Qed.

End Traced.

Lemma get_new (N row col : Z) : 0 < N -> Map.get (Map.new N) row col = Some 0.
Proof.
  intros HN.
  destruct (get_in_grid (Map.new N) row col HN (new_square_grid N))
    as (cells & v & Hrow & Hcol & ->).
  unfold Map.new in Hrow. cbn [Map.map] in Hrow.
  apply lookup_replicate in Hrow as [-> _].
  now apply lookup_replicate in Hcol as [-> _].
Qed.


Lemma cyclingEngine_draws (n : nat) : (0 <= random n < 1)%Q.
Proof.
  unfold random, cyclingEngine.
  destruct (Nat.modulo n 4) as [|[|[|?]]]; split; unfold Qle, Qlt; simpl; lia.
Qed.



(** ** The ship *)

Lemma moveReads_spec `{TrigTables} (ship : Valkyrie.t) :
  Valkyrie.moveReads ship
  = [ (Valkyrie.CosTable,
       mod_ (Valkyrie.heading ship
             + Valkyrie.roll ship * Valkyrie.rollToAngle ship) fullCircle);
      (Valkyrie.CosTable, Valkyrie.pitch ship);
      (Valkyrie.SinTable,
       mod_ (Valkyrie.heading ship
             + Valkyrie.roll ship * Valkyrie.rollToAngle ship) fullCircle);
      (Valkyrie.CosTable, Valkyrie.pitch ship);
      (Valkyrie.SinTable, Valkyrie.pitch ship) ].
Proof. reflexivity. Qed.

(** C10: with the pitch inside [0, fullCircle) every table read of one
    [move] is inside its table, whatever the heading, the roll, the turn
    rate and the thrust.  The two reads indexed by the heading are
    inside for every ship, since the heading is reduced modulo
    [fullCircle] first; the reads indexed by the pitch are inside only
    under the bound on the pitch. *)
Theorem move_reads_in_bounds `{TrigTables} (built : TablesBuilt)
    (ship : Valkyrie.t) :
  (0 <= Valkyrie.pitch ship < fullCircle ->
   Forall Valkyrie.inBounds (Valkyrie.moveReads ship)) /\
  (forall name,
     Valkyrie.inBounds
       (name, mod_ (Valkyrie.heading ship
                    + Valkyrie.roll ship * Valkyrie.rollToAngle ship)
                   fullCircle)) /\
  (Forall Valkyrie.inBounds (Valkyrie.moveReads ship) ->
   0 <= Valkyrie.pitch ship < fullCircle).
Proof.
  pose proof (cosTable_length built) as Hcos.
  pose proof (sinTable_length built) as Hsin.
  assert (forall name i, Valkyrie.inBounds (name, i) <-> 0 <= i < fullCircle)
    as Hin.
  { intros [] i; unfold Valkyrie.inBounds; simpl; rewrite ?Hcos, ?Hsin;
      reflexivity. }
  assert (forall name,
            Valkyrie.inBounds
              (name, mod_ (Valkyrie.heading ship
                           + Valkyrie.roll ship * Valkyrie.rollToAngle ship)
                          fullCircle)) as Hheading.
  { intros name. apply Hin. apply mod_range. rewrite fullCircle_eq. lia. }
  rewrite moveReads_spec. split; [|split].
  - intros Hpitch. repeat constructor; try apply Hheading; now apply Hin.
  - exact Hheading.
  - intros Hall. apply Forall_cons in Hall as [_ Hall].
    apply Forall_cons in Hall as [Hpitch _]. now apply Hin in Hpitch.
Qed.

Lemma move_reads_in_bounds_witness :
  TablesBuilt /\
  0 <= Valkyrie.pitch pageShip < fullCircle /\
  Forall Valkyrie.inBounds (Valkyrie.moveReads pageShip).
Proof.
  assert (0 <= Valkyrie.pitch pageShip < fullCircle) as Hpitch
    by (split; [discriminate|reflexivity]).
  split; [exact reference_tables_built|]. split; [exact Hpitch|].
  exact (proj1 (move_reads_in_bounds reference_tables_built pageShip) Hpitch).
Defined.

(** A pitch outside the table is read as it is. *)
Example move_reads_pitch_outside :
  In (Valkyrie.CosTable, -1)
     (Valkyrie.moveReads
        {| Valkyrie.x := 0; Valkyrie.y := 0; Valkyrie.z := 0;
           Valkyrie.thrust := defaultThrust; Valkyrie.heading := north;
           Valkyrie.pitch := -1; Valkyrie.roll := 0;
           Valkyrie.rollToAngle := 1 |}) /\
  JS.index cosTable (-1) = None.
Proof. split; [right; left; reflexivity|reflexivity]. Qed.

(** Heading east at level pitch, the horizontal step is the thrust
    passed through two 32-bit shifts: its low eight bits, sign
    extended. *)
Lemma thrust_east (T : Z) :
  JS.sar (JS.sar (T * 4096 * 4096) 12) 12 = (T + 128) mod 256 - 128.
Proof.
  set (s := (T + 128) mod 256 - 128).
  assert (-128 <= s <= 127) as Hs
    by (unfold s; pose proof (Z.mod_pos_bound (T + 128) 256); lia).
  assert (JS.sar (T * 4096 * 4096) 12 = 4096 * s) as ->.
  { unfold JS.sar.
    assert (JS.to_int32 (T * 4096 * 4096) = 16777216 * s) as ->
      by (unfold JS.to_int32, s; Z.div_mod_to_equations; lia).
    change (12 mod 32) with 12. rewrite Z.shiftr_div_pow2 by lia.
    Z.div_mod_to_equations. lia. }
  rewrite sar_small by lia. Z.div_mod_to_equations. lia.
Qed.

(** C2, as amended: a ship heading east with roll 0 and pitch 0 keeps
    its heading; its [x] advances, modulo 2^16, by the low eight bits of
    the thrust read as a signed byte, which is the thrust itself when
    -128 <= thrust <= 127; its [y] is reduced modulo 2^16 and is
    unchanged when it already lies in [0, 2^16). *)
Theorem move_east `{TrigTables} (built : TablesBuilt) (ship : Valkyrie.t) :
  Valkyrie.heading ship = east ->
  Valkyrie.roll ship = 0 ->
  Valkyrie.pitch ship = 0 ->
  Valkyrie.heading (Valkyrie.move ship) = east /\
  Valkyrie.x (Valkyrie.move ship)
  = (Valkyrie.x ship + ((Valkyrie.thrust ship + 128) mod 256 - 128))
    mod 2 ^ coordinateBits /\
  Valkyrie.y (Valkyrie.move ship) = Valkyrie.y ship mod 2 ^ coordinateBits /\
  (-128 <= Valkyrie.thrust ship <= 127 ->
   Valkyrie.x (Valkyrie.move ship)
   = (Valkyrie.x ship + Valkyrie.thrust ship) mod 2 ^ coordinateBits) /\
  (0 <= Valkyrie.y ship < 2 ^ coordinateBits ->
   Valkyrie.y (Valkyrie.move ship) = Valkyrie.y ship).
Proof.
  destruct ship as [x y z T h p r rta]. simpl. intros -> -> ->.
  unfold Valkyrie.move, Valkyrie.moveLogged, Valkyrie.andThen, Valkyrie.read,
    Valkyrie.done, Valkyrie.tableOf.
  cbn [fst snd Valkyrie.x Valkyrie.y Valkyrie.z Valkyrie.thrust Valkyrie.heading
       Valkyrie.pitch Valkyrie.roll Valkyrie.rollToAngle].
  change (mod_ (east + 0 * rta) fullCircle) with 0.
  rewrite (cosTable_east built), (sinTable_east built).
  cbn [Valkyrie.times JS.sar_nan].
  change (JS.shl 1 bitsBetweenTops) with 4096.
  change (JS.shl 1 coordinateBits) with 65536.
  change (2 ^ coordinateBits) with 65536.
  change bitsBetweenTops with 12.
  rewrite thrust_east, Z.mul_0_r, Z.mul_0_l.
  change (JS.sar (JS.sar 0 12) 12) with 0. rewrite Z.sub_0_r.
  rewrite !mod_spec by lia.
  split; [reflexivity|]. split; [reflexivity|]. split; [reflexivity|].
  split.
  - intros HT. rewrite (Z.mod_small (T + 128)) by lia. f_equal. lia.
  - intros Hy. now apply Z.mod_small.
Qed.

Lemma move_east_witness :
  TablesBuilt /\
  Valkyrie.heading
    {| Valkyrie.x := 32768; Valkyrie.y := 32768; Valkyrie.z := maxHeight;
       Valkyrie.thrust := defaultThrust; Valkyrie.heading := east;
       Valkyrie.pitch := 0; Valkyrie.roll := 0; Valkyrie.rollToAngle := 1 |}
  = east /\
  -128 <= defaultThrust <= 127 /\
  Valkyrie.x
    (Valkyrie.move
       {| Valkyrie.x := 32768; Valkyrie.y := 32768; Valkyrie.z := maxHeight;
          Valkyrie.thrust := defaultThrust; Valkyrie.heading := east;
          Valkyrie.pitch := 0; Valkyrie.roll := 0; Valkyrie.rollToAngle := 1 |})
  = (32768 + defaultThrust) mod 2 ^ coordinateBits.
Proof.
  assert (-128 <= defaultThrust <= 127) as HT by (split; discriminate).
  split; [exact reference_tables_built|]. split; [reflexivity|].
  split; [exact HT|].
  exact (proj1 (proj2 (proj2 (proj2
           (move_east reference_tables_built
              {| Valkyrie.x := 32768; Valkyrie.y := 32768;
                 Valkyrie.z := maxHeight; Valkyrie.thrust := defaultThrust;
                 Valkyrie.heading := east; Valkyrie.pitch := 0;
                 Valkyrie.roll := 0; Valkyrie.rollToAngle := 1 |}
              eq_refl eq_refl eq_refl)))) HT).
Defined.

(** With a thrust of 128 the product no longer fits the 32 bits of [>>]:
    the ship moves by -128, not by +128. *)
Lemma move_east_counterexample :
  Valkyrie.x
    (Valkyrie.move
       {| Valkyrie.x := 32768; Valkyrie.y := 32768; Valkyrie.z := maxHeight;
          Valkyrie.thrust := 128; Valkyrie.heading := east;
          Valkyrie.pitch := 0; Valkyrie.roll := 0; Valkyrie.rollToAngle := 1 |})
  = 32768 - 128 /\
  (32768 - 128) mod 2 ^ coordinateBits <> (32768 + 128) mod 2 ^ coordinateBits.
Proof. split; [vm_compute; reflexivity|vm_compute; discriminate]. Qed.

(** * Further properties of the code *)

(** ** Angles *)

(** X1: for a positive modulus [mod] is the mathematical residue, also
    of a negative number: it lies in [0, m) and differs from [n] by a
    multiple of [m]. *)
Theorem mod_positive (n m : Z) :
  0 < m ->
  0 <= mod_ n m < m /\ mod_ n m = n mod m /\ exists k, n = k * m + mod_ n m.
Proof.
  intros Hm. rewrite mod_spec by exact Hm.
  split; [now apply Z.mod_pos_bound|]. split; [reflexivity|].
  exists (n / m). rewrite Z.mul_comm. apply Z.div_mod. lia.
Qed.

Lemma mod_positive_witness :
  0 < 10 /\ 0 <= mod_ (-25) 10 < 10 /\ mod_ (-25) 10 = (-25) mod 10 /\
  exists k, -25 = k * 10 + mod_ (-25) 10.
Proof.
  assert (0 < 10) as Hm by lia.
  split; [exact Hm|]. exact (mod_positive (-25) 10 Hm).
Defined.

(** X2: the difference of two angles is an angle of [0, fullCircle);
    adding the subtracted angle back gives the first angle up to whole
    turns, and whole turns added to either argument do not matter. *)
Theorem angleSub_wraps (a b : Z) :
  0 <= angleSub a b < fullCircle /\
  (angleSub a b + b) mod fullCircle = a mod fullCircle /\
  angleSub (a + fullCircle) b = angleSub a b /\
  angleSub a (b + fullCircle) = angleSub a b /\
  angleSub a a = 0.
Proof.
  unfold angleSub. rewrite !mod_spec by (rewrite fullCircle_eq; lia).
  rewrite fullCircle_eq.
  split; [apply Z.mod_pos_bound; lia|].
  split; [rewrite Zplus_mod_idemp_l; f_equal; ring|].
  split; [replace (a + 1440 - b) with (a - b + 1 * 1440) by ring;
          apply Z_mod_plus_full|].
  split; [replace (a - (b + 1440)) with (a - b + (-1) * 1440) by ring;
          apply Z_mod_plus_full|].
  now rewrite Z.sub_diag.
Qed.

(** X3: an angle of [0, fullCircle) becomes a signed angle of
    (-halfCircle, halfCircle] that names the same direction: reducing it
    modulo [fullCircle] gives the angle back. *)
Theorem angleToAlgebraic_signed (angle : Z) :
  0 <= angle < fullCircle ->
  - halfCircle < angleToAlgebraic angle <= halfCircle /\
  mod_ (angleToAlgebraic angle) fullCircle = angle.
Proof.
  intros Ha. unfold angleToAlgebraic.
  rewrite mod_spec by (rewrite fullCircle_eq; lia).
  rewrite fullCircle_eq, halfCircle_eq in *.
  destruct (Z.gtb_spec angle 720).
  - split; [lia|].
    replace (angle - 1440) with (angle + (-1) * 1440) by ring.
    rewrite Z_mod_plus_full. apply Z.mod_small. lia.
  - split; [lia|]. apply Z.mod_small. lia.
Qed.

Lemma angleToAlgebraic_signed_witness :
  0 <= 1260 < fullCircle /\
  - halfCircle < angleToAlgebraic 1260 <= halfCircle /\
  mod_ (angleToAlgebraic 1260) fullCircle = 1260.
Proof.
  assert (0 <= 1260 < fullCircle) as Ha by (split; [discriminate|reflexivity]).
  split; [exact Ha|]. exact (angleToAlgebraic_signed 1260 Ha).
Defined.

(** X4: with the tables built, [cos] and [sin] answer a table entry for
    every integer angle, the one at the angle reduced modulo
    [fullCircle]; a full turn changes neither. *)
Theorem cos_sin_periodic `{TrigTables} (built : TablesBuilt) (angle : Z) :
  (exists c s, cos angle = Some c /\ sin angle = Some s) /\
  cos angle = JS.index cosTable (angle mod fullCircle) /\
  sin angle = JS.index sinTable (angle mod fullCircle) /\
  cos (angle + fullCircle) = cos angle /\
  sin (angle + fullCircle) = sin angle /\
  cos (angle - fullCircle) = cos angle /\
  sin (angle - fullCircle) = sin angle.
Proof.
  assert (0 < fullCircle) as Hpos by (rewrite fullCircle_eq; lia).
  pose proof (Z.mod_pos_bound angle fullCircle Hpos) as Hr.
  unfold cos, sin. rewrite !mod_spec by exact Hpos.
  assert ((angle + fullCircle) mod fullCircle = angle mod fullCircle) as ->
    by apply Zmod_shift.
  assert ((angle - fullCircle) mod fullCircle = angle mod fullCircle) as ->.
  { replace (angle - fullCircle) with (angle + (-1) * fullCircle) by ring.
    apply Z_mod_plus_full. }
  split; [|repeat split; reflexivity].
  destruct (index_Some cosTable (angle mod fullCircle)) as [c Hc];
    [rewrite (cosTable_length built); exact Hr|].
  destruct (index_Some sinTable (angle mod fullCircle)) as [s Hs];
    [rewrite (sinTable_length built); exact Hr|].
  exists c, s. split; assumption.
Qed.

Lemma cos_sin_periodic_witness :
  TablesBuilt /\ cos (-360 + fullCircle) = cos (-360).
Proof.
  split; [exact reference_tables_built|].
  exact (proj1 (proj2 (proj2 (proj2
           (cos_sin_periodic reference_tables_built (-360)))))).
Defined.

(** X5: the tangent has the period of half a circle and is odd: away
    from the multiples of half a circle, where the table is read at 0,
    the tangent of the opposite angle is the opposite number. *)
Theorem tan_symmetries `{TrigTables} (angle : Z) :
  tan (angle + halfCircle) = tan angle /\
  tan (angle - halfCircle) = tan angle /\
  (angle mod halfCircle <> 0 ->
   forall t, tan angle = JS.Num t -> tan (- angle) = JS.Num (- t)).
Proof.
  split; [apply tan_period|].
  split; [rewrite <- (tan_period (angle - halfCircle)); f_equal; ring|].
  intros Hnz t. unfold tan.
  assert (JS.rem (- angle - quarterCircle) halfCircle = 0 <->
          JS.rem (angle - quarterCircle) halfCircle = 0) as Hasym.
  { rewrite !tan_asymptote. rewrite fullCircle_eq, halfCircle_eq, quarterCircle_eq.
    split; intros E; Z.div_mod_to_equations; lia. }
  rewrite !mod_spec by (rewrite halfCircle_eq; lia).
  assert ((- angle) mod halfCircle = halfCircle - angle mod halfCircle) as ->.
  { rewrite halfCircle_eq in *. Z.div_mod_to_equations. lia. }
  pose proof (Z.mod_pos_bound angle halfCircle) as Hr.
  rewrite halfCircle_eq, quarterCircle_eq in *. specialize (Hr ltac:(lia)).
  destruct (Z.eqb_spec (JS.rem (angle - 360) 720) 0) as [E|E]; [discriminate|].
  destruct (Z.eqb_spec (JS.rem (- angle - 360) 720) 0) as [E'|E'];
    [apply Hasym in E'; contradiction|].
  assert (angle mod 720 <> 360) as Hq.
  { intros Hq. apply E. apply tan_asymptote.
    rewrite fullCircle_eq, halfCircle_eq, quarterCircle_eq.
    Z.div_mod_to_equations. lia. }
  destruct (Z.gtb_spec (angle mod 720) 360);
    destruct (Z.gtb_spec (720 - angle mod 720) 360); try lia.
  - replace (720 - (720 - angle mod 720)) with (angle mod 720) by ring.
    destruct (JS.index tanTable (720 - angle mod 720)) as [t0|]; simpl;
      [|discriminate].
    intros [= <-]. f_equal. lia.
  - replace (720 - (720 - angle mod 720)) with (angle mod 720) by ring.
    destruct (JS.index tanTable (angle mod 720)) as [t0|]; simpl;
      [|discriminate].
    intros [= <-]. reflexivity.
Qed.

Lemma tan_symmetries_witness :
  180 mod halfCircle <> 0 /\ tan 180 = JS.Num 256 /\ tan (- 180) = JS.Num (- 256).
Proof.
  assert (180 mod halfCircle <> 0) as Hnz by discriminate.
  assert (tan 180 = JS.Num 256) as Ht by reflexivity.
  split; [exact Hnz|]. split; [exact Ht|].
  exact (proj2 (proj2 (tan_symmetries 180)) Hnz 256 Ht).
Defined.

(** ** Distance *)

Lemma distance_shifts (max min : Z) :
  0 <= min <= max -> max < 2 ^ 22 ->
  JS.sar (JS.shl max 8 + JS.shl max 3 - JS.shl max 4 - JS.shl max 1
          + JS.shl min 7 - JS.shl min 5 + JS.shl min 3 - JS.shl min 1) 8
  = (246 * max + 102 * min) / 256.
Proof.
  intros Hmin Hmax.
  rewrite !shl_small by lia.
  rewrite sar_small by lia. f_equal. lia.
Qed.

(** X6: for points less than 2^22 apart on each axis the distance is
    [(246 * max + 102 * min) / 256] rounded down, with [max] and [min]
    the larger and the smaller absolute difference.  It is symmetric,
    zero between a point and itself, at least 246/256 of [max], and
    within about four percent of the Euclidean distance: its square,
    scaled by 65536, is at most 70920 times the sum of the squares, and
    the square of the next integer exceeds 60516 times that sum. *)
Theorem distance_octagonal (x1 y1 x2 y2 : Z) :
  Z.abs (x2 - x1) < 2 ^ 22 ->
  Z.abs (y2 - y1) < 2 ^ 22 ->
  distance x1 y1 x2 y2
  = (246 * Z.max (Z.abs (x2 - x1)) (Z.abs (y2 - y1))
     + 102 * Z.min (Z.abs (x2 - x1)) (Z.abs (y2 - y1))) / 256 /\
  distance x1 y1 x2 y2 = distance x2 y2 x1 y1 /\
  distance x1 y1 x1 y1 = 0 /\
  0 <= distance x1 y1 x2 y2 /\
  246 * Z.max (Z.abs (x2 - x1)) (Z.abs (y2 - y1)) < 256 * (distance x1 y1 x2 y2 + 1) /\
  65536 * (distance x1 y1 x2 y2) ^ 2
  <= 70920 * ((x2 - x1) ^ 2 + (y2 - y1) ^ 2) /\
  60516 * ((x2 - x1) ^ 2 + (y2 - y1) ^ 2)
  < 65536 * (distance x1 y1 x2 y2 + 1) ^ 2.
Proof.
  intros Hx Hy.
  assert (forall a1 b1 a2 b2,
            Z.abs (a2 - a1) < 2 ^ 22 -> Z.abs (b2 - b1) < 2 ^ 22 ->
            distance a1 b1 a2 b2
            = (246 * Z.max (Z.abs (a2 - a1)) (Z.abs (b2 - b1))
               + 102 * Z.min (Z.abs (a2 - a1)) (Z.abs (b2 - b1))) / 256)
    as Hform.
  { intros a1 b1 a2 b2 Ha Hb. unfold distance.
    assert ((if a2 >? a1 then a2 - a1 else a1 - a2) = Z.abs (a2 - a1)) as ->
      by (destruct (Z.gtb_spec a2 a1); lia).
    assert ((if b2 >? b1 then b2 - b1 else b1 - b2) = Z.abs (b2 - b1)) as ->
      by (destruct (Z.gtb_spec b2 b1); lia).
    destruct (Z.gtb_spec (Z.abs (a2 - a1)) (Z.abs (b2 - b1)));
      rewrite distance_shifts by lia; f_equal; lia. }
  rewrite !Hform by (try assumption; lia).
  set (dx := Z.abs (x2 - x1)) in *. set (dy := Z.abs (y2 - y1)) in *.
  replace (Z.abs (x1 - x2)) with dx by (unfold dx; lia).
  replace (Z.abs (y1 - y2)) with dy by (unfold dy; lia).
  replace (Z.abs (x1 - x1)) with 0 by lia.
  replace (Z.abs (y1 - y1)) with 0 by lia.
  assert ((x2 - x1) ^ 2 = dx ^ 2) as -> by (unfold dx; lia).
  assert ((y2 - y1) ^ 2 = dy ^ 2) as -> by (unfold dy; lia).
  assert (0 <= dx) by (unfold dx; lia). assert (0 <= dy) by (unfold dy; lia).
  set (M := Z.max dx dy). set (m := Z.min dx dy).
  assert (0 <= m <= M) as Hm by (unfold m, M; lia).
  assert (dx ^ 2 + dy ^ 2 = M ^ 2 + m ^ 2) as ->
    by (unfold m, M; destruct (Z.max_spec dx dy) as [[? ->]|[? ->]];
        destruct (Z.min_spec dx dy) as [[? ->]|[? ->]]; lia).
  set (d := (246 * M + 102 * m) / 256).
  assert (256 * d <= 246 * M + 102 * m < 256 * (d + 1)) as Hd
    by (unfold d; Z.div_mod_to_equations; lia).
  split; [reflexivity|]. split; [reflexivity|]. split; [reflexivity|].
  split; [lia|]. split; [lia|]. split.
  - assert ((256 * d) ^ 2 <= (246 * M + 102 * m) ^ 2) by (apply Z.pow_le_mono_l; lia).
    assert ((246 * M + 102 * m) ^ 2 + (246 * m - 102 * M) ^ 2
            = 70920 * (M ^ 2 + m ^ 2)) by ring.
    assert (0 <= (246 * m - 102 * M) ^ 2) by (apply Z.pow_even_nonneg; now exists 1).
    assert ((256 * d) ^ 2 = 65536 * d ^ 2) by ring.
    generalize dependent (M ^ 2 + m ^ 2). generalize dependent (d ^ 2).
    generalize dependent ((246 * M + 102 * m) ^ 2).
    generalize dependent ((246 * m - 102 * M) ^ 2).
    generalize dependent ((256 * d) ^ 2). clear. intros. lia.
  - assert ((246 * M + 102 * m) ^ 2 < (256 * (d + 1)) ^ 2)
      by (apply Z.pow_lt_mono_l; lia).
    assert ((246 * M + 102 * m) ^ 2
            = 60516 * (M ^ 2 + m ^ 2) + m * (50184 * M - 50112 * m)) by ring.
    assert (0 <= m * (50184 * M - 50112 * m)) by (apply Z.mul_nonneg_nonneg; lia).
    assert ((256 * (d + 1)) ^ 2 = 65536 * (d + 1) ^ 2) by ring.
    generalize dependent (M ^ 2 + m ^ 2). generalize dependent ((d + 1) ^ 2).
    generalize dependent ((246 * M + 102 * m) ^ 2).
    generalize dependent (m * (50184 * M - 50112 * m)).
    generalize dependent ((256 * (d + 1)) ^ 2). clear. intros. lia.
Qed.

Lemma distance_octagonal_witness :
  Z.abs (4096 - 0) < 2 ^ 22 /\ Z.abs (0 - 3000) < 2 ^ 22 /\
  distance 0 3000 4096 0 = distance 4096 0 0 3000.
Proof.
  assert (Z.abs (4096 - 0) < 2 ^ 22) as Hx by reflexivity.
  assert (Z.abs (0 - 3000) < 2 ^ 22) as Hy by reflexivity.
  split; [exact Hx|]. split; [exact Hy|].
  exact (proj1 (proj2 (distance_octagonal 0 3000 4096 0 Hx Hy))).
Defined.

(** ** Clamping *)

Lemma clamp_integer (n max : Z) : 0 <= n <= max -> clamp (inject_Z n) max = n.
Proof.
  intros [H0 H1]. unfold clamp.
  assert (Qle_bool 0 (inject_Z n) = true) as ->
    by (apply Qle_bool_iff; change 0%Q with (inject_Z 0); now rewrite <- Zle_Qle).
  assert (Qle_bool (inject_Z n) (inject_Z max) = true) as ->
    by (apply Qle_bool_iff; now rewrite <- Zle_Qle).
  apply Qfloor_Z.
Qed.

(** X7: for a non-negative bound, [clamp] answers 0 below 0, the bound
    above the bound and the integer part in between; its result always
    lies in [0, max], it leaves the integers of that range alone and it
    is monotone. *)
Theorem clamp_saturates (val : Q) (max : Z) :
  0 <= max ->
  ((val < 0)%Q -> clamp val max = 0) /\
  ((inject_Z max < val)%Q -> clamp val max = max) /\
  ((0 <= val <= inject_Z max)%Q -> clamp val max = Qfloor val) /\
  0 <= clamp val max <= max /\
  (forall n : Z, 0 <= n <= max -> clamp (inject_Z n) max = n) /\
  (forall val' : Q, (val <= val')%Q -> clamp val max <= clamp val' max).
Proof.
  intros Hmax.
  assert (forall v, (v < 0)%Q -> clamp v max = 0) as Hlow.
  { intros v Hv. unfold clamp.
    destruct (Qle_bool 0 v) eqn:E; [|reflexivity].
    apply Qle_bool_iff in E. exfalso. exact (Qlt_not_le _ _ Hv E). }
  assert (forall v, (inject_Z max < v)%Q -> clamp v max = max) as Hhigh.
  { intros v Hv. unfold clamp.
    assert (0 <= v)%Q as Hnn.
    { apply Qlt_le_weak. apply Qle_lt_trans with (inject_Z max); [|exact Hv].
      change 0%Q with (inject_Z 0). now rewrite <- Zle_Qle. }
    apply Qle_bool_iff in Hnn. rewrite Hnn. simpl.
    destruct (Qle_bool v (inject_Z max)) eqn:E; [|reflexivity].
    apply Qle_bool_iff in E. exfalso. exact (Qlt_not_le _ _ Hv E). }
  assert (forall v, (0 <= v <= inject_Z max)%Q -> clamp v max = Qfloor v) as Hmid.
  { intros v [H0 H1]. unfold clamp.
    apply Qle_bool_iff in H0, H1. now rewrite H0, H1. }
  split; [apply Hlow|]. split; [apply Hhigh|]. split; [apply Hmid|].
  split; [now apply clamp_range|]. split.
  - intros n Hn. rewrite Hmid; [apply Qfloor_Z|].
    change 0%Q with (inject_Z 0). rewrite <- !Zle_Qle. exact Hn.
  - intros val' Hle.
    pose proof (clamp_range val max Hmax) as Hr.
    pose proof (clamp_range val' max Hmax) as Hr'.
    destruct (Qlt_le_dec val 0) as [Hneg|Hnn]; [rewrite Hlow by exact Hneg; lia|].
    destruct (Qlt_le_dec (inject_Z max) val') as [Hbig|Hsmall];
      [rewrite (Hhigh val') by exact Hbig; lia|].
    rewrite !Hmid.
    + now apply Qfloor_resp_le.
    + split; [now apply Qle_trans with val|exact Hsmall].
    + split; [exact Hnn|now apply Qle_trans with val'].
Qed.

Lemma clamp_saturates_witness :
  0 <= maxHeight /\ (inject_Z maxHeight < 5000 # 1)%Q /\
  clamp (5000 # 1) maxHeight = maxHeight.
Proof.
  assert (0 <= maxHeight) as Hmax by discriminate.
  assert (inject_Z maxHeight < 5000 # 1)%Q as Hbig by reflexivity.
  split; [exact Hmax|]. split; [exact Hbig|].
  exact (proj1 (proj2 (clamp_saturates (5000 # 1) maxHeight Hmax)) Hbig).
Defined.

(** ** The ship, whatever the tables *)

(** X8: one [move] always leaves the ship inside its space: [x] and
    [y] in [0, 2^16), [z] in [0, 2^16], the heading in [0, fullCircle).
    Thrust, pitch, roll and turn rate are not touched.  When roll times
    turn rate, and its sum with the heading, stay within 2^53 in
    absolute value, so that the doubles of the code hold them exactly,
    the new heading is the old one plus roll times turn rate modulo a
    full turn. *)
Theorem move_stays_in_space `{TrigTables} (ship : Valkyrie.t) :
  0 <= Valkyrie.x (Valkyrie.move ship) < 2 ^ coordinateBits /\
  0 <= Valkyrie.y (Valkyrie.move ship) < 2 ^ coordinateBits /\
  0 <= Valkyrie.z (Valkyrie.move ship) <= 2 ^ coordinateBits /\
  0 <= Valkyrie.heading (Valkyrie.move ship) < fullCircle /\
  (Z.abs (Valkyrie.roll ship * Valkyrie.rollToAngle ship) <= 2 ^ 53 ->
   Z.abs (Valkyrie.heading ship
          + Valkyrie.roll ship * Valkyrie.rollToAngle ship) <= 2 ^ 53 ->
   Valkyrie.heading (Valkyrie.move ship)
   = (Valkyrie.heading ship + Valkyrie.roll ship * Valkyrie.rollToAngle ship)
     mod fullCircle) /\
  Valkyrie.thrust (Valkyrie.move ship) = Valkyrie.thrust ship /\
  Valkyrie.pitch (Valkyrie.move ship) = Valkyrie.pitch ship /\
  Valkyrie.roll (Valkyrie.move ship) = Valkyrie.roll ship /\
  Valkyrie.rollToAngle (Valkyrie.move ship) = Valkyrie.rollToAngle ship.
Proof.
  unfold Valkyrie.move, Valkyrie.moveLogged, Valkyrie.andThen, Valkyrie.read,
    Valkyrie.done.
  cbn [fst snd Valkyrie.x Valkyrie.y Valkyrie.z Valkyrie.thrust Valkyrie.heading
       Valkyrie.pitch Valkyrie.roll Valkyrie.rollToAngle].
  change (JS.shl 1 coordinateBits) with 65536.
  change (2 ^ coordinateBits) with 65536.
  split; [apply mod_range; lia|]. split; [apply mod_range; lia|].
  split; [apply clamp_range; lia|].
  split; [apply mod_range; rewrite fullCircle_eq; lia|].
  split; [intros _ _; apply mod_spec; rewrite fullCircle_eq; lia|].
  repeat split.
Qed.

Lemma move_stays_in_space_witness :
  Z.abs (3 * 4) <= 2 ^ 53 /\
  Z.abs (1438 + 3 * 4) <= 2 ^ 53 /\
  Valkyrie.heading
    (Valkyrie.move
       {| Valkyrie.x := 32768; Valkyrie.y := 32768; Valkyrie.z := maxHeight;
          Valkyrie.thrust := defaultThrust; Valkyrie.heading := 1438;
          Valkyrie.pitch := 0; Valkyrie.roll := 3; Valkyrie.rollToAngle := 4 |})
  = (1438 + 3 * 4) mod fullCircle.
Proof.
  assert (Z.abs (3 * 4) <= 2 ^ 53) as Hroll by lia.
  assert (Z.abs (1438 + 3 * 4) <= 2 ^ 53) as Hsum by lia.
  split; [exact Hroll|]. split; [exact Hsum|].
  exact (proj1 (proj2 (proj2 (proj2 (proj2
           (move_stays_in_space
              {| Valkyrie.x := 32768; Valkyrie.y := 32768;
                 Valkyrie.z := maxHeight; Valkyrie.thrust := defaultThrust;
                 Valkyrie.heading := 1438; Valkyrie.pitch := 0;
                 Valkyrie.roll := 3; Valkyrie.rollToAngle := 4 |})))))
           Hroll Hsum).
Defined.

(** X9: at level pitch the ship keeps its altitude: with the tables
    built and a pitch of 0, a [z] of [0, 2^16] is unchanged by [move],
    whatever the thrust. *)
Theorem move_level_keeps_altitude `{TrigTables} (built : TablesBuilt)
    (ship : Valkyrie.t) :
  Valkyrie.pitch ship = 0 ->
  0 <= Valkyrie.z ship <= 2 ^ coordinateBits ->
  Valkyrie.z (Valkyrie.move ship) = Valkyrie.z ship.
Proof.
  destruct ship as [x y z T h p r rta]. simpl. intros -> Hz.
  unfold Valkyrie.move, Valkyrie.moveLogged, Valkyrie.andThen, Valkyrie.read,
    Valkyrie.done, Valkyrie.tableOf.
  cbn [fst snd Valkyrie.x Valkyrie.y Valkyrie.z Valkyrie.thrust Valkyrie.heading
       Valkyrie.pitch Valkyrie.roll Valkyrie.rollToAngle].
  rewrite (sinTable_east built). cbn [Valkyrie.times JS.sar_nan].
  rewrite Z.mul_0_r. change (JS.sar 0 bitsBetweenTops) with 0.
  rewrite Z.add_0_r.
  change (JS.shl 1 coordinateBits) with 65536.
  change (2 ^ coordinateBits) with 65536 in Hz.
  apply clamp_integer. exact Hz.
Qed.

Lemma move_level_keeps_altitude_witness :
  TablesBuilt /\
  Valkyrie.pitch pageShip = 0 /\
  0 <= Valkyrie.z pageShip <= 2 ^ coordinateBits /\
  Valkyrie.z (Valkyrie.move pageShip) = Valkyrie.z pageShip.
Proof.
  assert (0 <= Valkyrie.z pageShip <= 2 ^ coordinateBits) as Hz
    by (split; discriminate).
  split; [exact reference_tables_built|]. split; [reflexivity|].
  split; [exact Hz|].
  exact (move_level_keeps_altitude reference_tables_built pageShip eq_refl Hz).
Defined.

(** ** What the inverse lookup finds *)

(** The bounds of the search bracket the query from the first time they
    move, whether or not the table is ordered. *)
Lemma findIndexOf_loop_bracket (fuel : nat) (val : Z) (table : list Z)
    (low high r : Z) :
  Z.of_nat (length table) <= 2 ^ 30 ->
  0 <= low < high ->
  high < Z.of_nat (length table) ->
  (low = 0 \/ exists t, JS.index table low = Some t /\ t < val) ->
  (high = Z.of_nat (length table) - 1 \/
   exists t, JS.index table high = Some t /\ val < t) ->
  findIndexOf_loop fuel val table low high = Some r ->
  exists t,
    JS.index table r = Some t /\
    (t = val \/
     ((r = 0 \/ t < val) /\
      exists t', JS.index table (r + 1) = Some t' /\ val < t') \/
     (r = Z.of_nat (length table) - 1 /\ t <= val)).
Proof.
  intros Hsize. revert low high.
  induction fuel as [|fuel IH]; intros low high Hlow Hhigh Ilow Ihigh Hrun;
    [discriminate|].
  simpl in Hrun.
  destruct (index_Some table low ltac:(lia)) as [tl Htl].
  destruct (index_Some table high ltac:(lia)) as [th Hth].
  destruct (Z.eqb_spec (high - low) 1) as [Hadj|Hfar].
  - rewrite Hth in Hrun. destruct (Z.leb_spec th val) as [Hle|Hgt];
      injection Hrun as <-.
    + exists th. split; [exact Hth|]. right. right. split; [|exact Hle].
      destruct Ihigh as [E|(t & Ht & Hlt)]; [exact E|].
      rewrite Hth in Ht. injection Ht as <-. lia.
    + exists tl. split; [exact Htl|]. right. left. split.
      * destruct Ilow as [E|(t & Ht & Hlt)]; [now left|].
        rewrite Htl in Ht. injection Ht as <-. now right.
      * exists th. replace (low + 1) with high by lia. now split.
  - rewrite sar_1 in Hrun by lia.
    assert (low < (low + high) / 2 < high) as Hbetween
      by (Z.div_mod_to_equations; lia).
    destruct (index_Some table ((low + high) / 2) ltac:(lia)) as [tm Htm].
    rewrite Htm in Hrun.
    destruct (Z.eqb_spec tm val) as [Heq|Hne].
    + injection Hrun as <-. exists tm. split; [exact Htm|]. now left.
    + destruct (Z.ltb_spec val tm) as [Hlt|Hge].
      * apply (IH low ((low + high) / 2)); try lia; try assumption.
        right. exists tm. now split.
      * apply (IH ((low + high) / 2) high); try lia; try assumption.
        right. exists tm. split; [exact Htm|lia].
Qed.

Lemma sorted_lookup (table : list Z) (i j : nat) (ti tj : Z) :
  Sorted Z.le table ->
  table !! i = Some ti -> table !! j = Some tj -> (i <= j)%nat -> ti <= tj.
Proof.
  intros Hsorted. apply Sorted_StronglySorted in Hsorted;
    [|intros a b c; apply Z.le_trans].
  revert i j. induction Hsorted as [|a l _ IH Hall]; intros i j Hi Hj Hle;
    [discriminate|].
  destruct i as [|i], j as [|j]; simpl in *; try lia.
  - injection Hi as <-. injection Hj as <-. lia.
  - injection Hi as <-. exact (Forall_lookup_1 _ _ _ _ Hall Hj).
  - apply (IH i j); (assumption || lia).
Qed.

Lemma sorted_index (table : list Z) (i j ti tj : Z) :
  Sorted Z.le table ->
  JS.index table i = Some ti -> JS.index table j = Some tj -> i <= j -> ti <= tj.
Proof.
  unfold JS.index. intros Hsorted Hi Hj Hle.
  destruct (Z.ltb_spec i 0); [discriminate|].
  destruct (Z.ltb_spec j 0); [discriminate|].
  apply (sorted_lookup table (Z.to_nat i) (Z.to_nat j)); (assumption || lia).
Qed.

Lemma In_index (table : list Z) (val : Z) :
  In val table -> exists j, JS.index table j = Some val.
Proof.
  intros Hin. apply list_elem_of_In, list_elem_of_lookup in Hin as [j Hj].
  exists (Z.of_nat j). unfold JS.index.
  destruct (Z.ltb_spec (Z.of_nat j) 0); [lia|]. now rewrite Nat2Z.id.
Qed.

(** X10: on an ordered table of 2 to 2^30 entries the search answers an
    index [r] that splits the table at the query: every entry after [r]
    is at least the query, and greater unless the entry at [r] is the
    query itself; the entry at [r] is at most the query unless [r] is 0.
    A query below the first entry gives 0, and a query that occurs in
    the table gives an index that holds it. *)
Theorem findIndexOf_nearest_below (table : list Z) (val : Z) :
  Sorted Z.le table ->
  (2 <= length table)%nat ->
  Z.of_nat (length table) <= 2 ^ 30 ->
  exists r t,
    findIndexOf val table = Some r /\
    JS.index table r = Some t /\
    (forall j tj, JS.index table j = Some tj -> r < j -> val <= tj) /\
    (forall j tj, JS.index table j = Some tj -> r < j -> t <> val -> val < tj) /\
    (r = 0 \/ t <= val) /\
    (forall t0, JS.index table 0 = Some t0 -> val < t0 -> r = 0) /\
    (In val table -> t = val).
Proof.
  intros Hsorted Htwo Hsize.
  destruct (findIndexOf_loop_terminates (length table) val table 0
              (Z.of_nat (length table) - 1)) as (r & Hrun & Hr); try lia.
  assert (0 <= 0 < Z.of_nat (length table) - 1) as Hlow by lia.
  assert (Z.of_nat (length table) - 1 < Z.of_nat (length table)) as Hhigh by lia.
  destruct (findIndexOf_loop_bracket (length table) val table 0
              (Z.of_nat (length table) - 1) r Hsize Hlow Hhigh
              (or_introl eq_refl) (or_introl eq_refl) Hrun)
    as (t & Ht & Hcases).
  exists r, t. split; [exact Hrun|]. split; [exact Ht|].
  assert (forall j tj, JS.index table j = Some tj -> r < j ->
                       val <= tj /\ (t <> val -> val < tj)) as Hafter.
  { intros j tj Hj Hlt.
    destruct Hcases as [->|[(_ & t' & Ht' & Hlt')|(-> & _)]].
    - split; [|congruence]. apply (sorted_index table r j); (assumption || lia).
    - assert (t' <= tj) by (apply (sorted_index table (r + 1) j);
                            (assumption || lia)).
      lia.
    - apply index_Some_inv in Hj. lia. }
  split; [intros j tj Hj Hlt; now apply (Hafter j tj)|].
  split; [intros j tj Hj Hlt; now apply (Hafter j tj)|].
  split; [destruct Hcases as [->|[([->|?] & _)|(_ & ?)]]; lia|].
  split.
  - intros t0 Ht0 Hbelow.
    assert (t0 <= t) by (apply (sorted_index table 0 r); (assumption || lia)).
    destruct Hcases as [->|[([->|?] & _)|(_ & ?)]]; lia.
  - intros Hin. apply In_index in Hin as [j Hj].
    destruct Hcases as [->|[(Hbelow & t' & Ht' & Hlt')|(-> & Hle)]];
      [reflexivity| |].
    + destruct (Z_le_gt_dec j r) as [Hjr|Hjr].
      * assert (val <= t) by (apply (sorted_index table j r); assumption).
        destruct Hbelow as [->|?]; [|lia].
        assert (j = 0) as -> by (apply index_Some_inv in Hj; lia). congruence.
      * assert (t' <= val) by (apply (sorted_index table (r + 1) j);
                               (assumption || lia)).
        lia.
    + assert (val <= t); [|lia].
      apply (sorted_index table j (Z.of_nat (length table) - 1));
        try assumption.
      apply index_Some_inv in Hj. lia.
Qed.

Lemma findIndexOf_nearest_below_witness :
  Sorted Z.le regressionTable /\
  (2 <= length regressionTable)%nat /\
  Z.of_nat (length regressionTable) <= 2 ^ 30 /\
  exists r t,
    findIndexOf 16 regressionTable = Some r /\
    JS.index regressionTable r = Some t /\
    (forall j tj, JS.index regressionTable j = Some tj -> r < j -> 16 <= tj) /\
    (forall j tj, JS.index regressionTable j = Some tj -> r < j -> t <> 16 ->
                  16 < tj) /\
    (r = 0 \/ t <= 16) /\
    (forall t0, JS.index regressionTable 0 = Some t0 -> 16 < t0 -> r = 0) /\
    (In 16 regressionTable -> t = 16).
Proof.
  assert (Sorted Z.le regressionTable) as Hsorted
    by (repeat constructor; unfold Z.le; simpl; discriminate).
  assert (2 <= length regressionTable)%nat as Htwo by (simpl; lia).
  assert (Z.of_nat (length regressionTable) <= 2 ^ 30) as Hsize
    by (simpl; lia).
  split; [exact Hsorted|]. split; [exact Htwo|]. split; [exact Hsize|].
  exact (findIndexOf_nearest_below regressionTable 16 Hsorted Htwo Hsize).
Defined.

(** ** Angle of a displacement *)

Lemma tanTable_search `{TrigTables} (built : TablesBuilt) (ratio : Z) :
  exists angle,
    findIndexOf ratio tanTable = Some angle /\ 0 <= angle < quarterCircle.
Proof.
  pose proof (tanTable_length built) as Hlen.
  change (JS.sar fullCircle 2) with 360 in Hlen.
  destruct (findIndexOf_loop_terminates (length tanTable) ratio tanTable 0
              (Z.of_nat (length tanTable) - 1)) as (r & Hrun & Hr); try lia.
  exists r. split; [exact Hrun|]. rewrite quarterCircle_eq. lia.
Qed.

Lemma angleFromCoordinates_cases `{TrigTables} `{Engine} (built : TablesBuilt)
    (x y : Z) :
  exists a,
    angleFromCoordinates x y = Some a /\
    (x = 0 -> a = if y <? 0 then south else north) /\
    (0 < x -> 0 < y -> 0 <= a <= quarterCircle) /\
    (x < 0 -> 0 < y -> quarterCircle <= a <= halfCircle) /\
    (x < 0 -> y <= 0 -> halfCircle <= a <= south) /\
    (0 < x -> y <= 0 -> south <= a <= fullCircle).
Proof.
  unfold angleFromCoordinates.
  destruct (Z.eqb_spec x 0) as [->|Hx].
  - eexists. split; [reflexivity|]. repeat split; intros; lia.
  - destruct (Z.abs y >? JS.shl (Z.abs x) 8).
    + eexists. split; [reflexivity|].
      change north with 360. change south with 1080.
      rewrite quarterCircle_eq, halfCircle_eq, fullCircle_eq.
      destruct (Z.gtb_spec y 0); repeat split; intros; lia.
    + destruct (tanTable_search built
                  (round (fl (inject_Z (JS.shl (Z.abs y) 8) / inject_Z (Z.abs x)))))
        as (angle & -> & Hangle).
      eexists. split; [reflexivity|].
      change south with 1080.
      rewrite quarterCircle_eq, halfCircle_eq, fullCircle_eq in *.
      destruct (Z.gtb_spec x 0); destruct (Z.gtb_spec y 0);
        repeat split; intros; lia.
Qed.

(** X11: with the tables built, whatever the rounding of the division,
    the angle of a displacement is always found and lies in
    [0, fullCircle], in the quarter that the signs of the displacement
    name: [0, quarter] for x, y > 0, [quarter, half] for x < 0 < y,
    [half, south] for x < 0 and y <= 0, [south, fullCircle] for x > 0 and
    y <= 0; on the vertical axis it is south below and north otherwise.
    A full circle itself can be answered, for a displacement due east. *)
Theorem angleFromCoordinates_quadrants `{TrigTables} `{Engine}
    (built : TablesBuilt) (x y : Z) :
  exists a,
    angleFromCoordinates x y = Some a /\
    0 <= a <= fullCircle /\
    (x = 0 -> a = if y <? 0 then south else north) /\
    (0 < x -> 0 < y -> 0 <= a <= quarterCircle) /\
    (x < 0 -> 0 < y -> quarterCircle <= a <= halfCircle) /\
    (x < 0 -> y <= 0 -> halfCircle <= a <= south) /\
    (0 < x -> y <= 0 -> south <= a <= fullCircle).
Proof.
  destruct (angleFromCoordinates_cases built x y)
    as (a & Ha & Haxis & Hq1 & Hq2 & Hq3 & Hq4).
  exists a. split; [exact Ha|].
  split; [|exact (conj Haxis (conj Hq1 (conj Hq2 (conj Hq3 Hq4))))].
  change south with 1080 in *. change north with 360 in *.
  rewrite quarterCircle_eq, halfCircle_eq, fullCircle_eq in *.
  destruct (Z.lt_trichotomy x 0) as [Hx|[Hx|Hx]];
    destruct (Z_lt_le_dec 0 y) as [Hy|Hy].
  - specialize (Hq2 Hx Hy). lia.
  - specialize (Hq3 Hx Hy). lia.
  - specialize (Haxis Hx). destruct (y <? 0); lia.
  - specialize (Haxis Hx). destruct (y <? 0); lia.
  - specialize (Hq1 Hx Hy). lia.
  - specialize (Hq4 Hx Hy). lia.
Qed.

Lemma angleFromCoordinates_quadrants_witness :
  TablesBuilt /\
  exists a,
    angleFromCoordinates 4096 0 = Some a /\
    0 <= a <= fullCircle /\
    (4096 = 0 -> a = if 0 <? 0 then south else north) /\
    (0 < 4096 -> 0 < 0 -> 0 <= a <= quarterCircle) /\
    (4096 < 0 -> 0 < 0 -> quarterCircle <= a <= halfCircle) /\
    (4096 < 0 -> 0 <= 0 -> halfCircle <= a <= south) /\
    (0 < 4096 -> 0 <= 0 -> south <= a <= fullCircle).
Proof.
  split; [exact reference_tables_built|].
  exact (angleFromCoordinates_quadrants reference_tables_built 4096 0).
Defined.

(** Due east the reference tables give a full circle, not 0. *)
Example angleFromCoordinates_east :
  angleFromCoordinates 4096 0 = Some fullCircle.
Proof. vm_compute. reflexivity. Qed.

(** ** Projection *)

Lemma distance_nonneg (x1 y1 x2 y2 : Z) :
  Z.abs (x2 - x1) < 2 ^ 22 -> Z.abs (y2 - y1) < 2 ^ 22 ->
  0 <= distance x1 y1 x2 y2.
Proof.
  intros Hx Hy. unfold distance.
  assert ((if x2 >? x1 then x2 - x1 else x1 - x2) = Z.abs (x2 - x1)) as ->
    by (destruct (Z.gtb_spec x2 x1); lia).
  assert ((if y2 >? y1 then y2 - y1 else y1 - y2) = Z.abs (y2 - y1)) as ->
    by (destruct (Z.gtb_spec y2 y1); lia).
  destruct (Z.gtb_spec (Z.abs (x2 - x1)) (Z.abs (y2 - y1)));
    rewrite distance_shifts by lia; Z.div_mod_to_equations; lia.
Qed.

Lemma angleFromCoordinates_range `{TrigTables} `{Engine} (built : TablesBuilt)
    (x y : Z) :
  exists a,
    angleFromCoordinates x y = Some a /\
    0 <= a <= fullCircle /\
    (0 <= x -> a <= quarterCircle \/ south <= a).
Proof.
  destruct (angleFromCoordinates_cases built x y)
    as (a & Ha & Haxis & Hq1 & Hq2 & Hq3 & Hq4).
  exists a. split; [exact Ha|].
  change south with 1080 in *. change north with 360 in *.
  rewrite quarterCircle_eq, halfCircle_eq, fullCircle_eq in *.
  destruct (Z.lt_trichotomy x 0) as [Hx|[Hx|Hx]];
    destruct (Z_lt_le_dec 0 y) as [Hy|Hy].
  - specialize (Hq2 Hx Hy). lia.
  - specialize (Hq3 Hx Hy). lia.
  - specialize (Haxis Hx). destruct (y <? 0); lia.
  - specialize (Haxis Hx). destruct (y <? 0); lia.
  - specialize (Hq1 Hx Hy). lia.
  - specialize (Hq4 Hx Hy). lia.
Qed.

Lemma angleToAlgebraic_pixels (angle : Z) :
  0 <= angle <= fullCircle ->
  - 360 <= JS.sar (angleToAlgebraic angle) viewPortScreenPixelPowerOfTwo <= 360 /\
  (angle <= quarterCircle \/ south <= angle ->
   - 180 <= JS.sar (angleToAlgebraic angle) viewPortScreenPixelPowerOfTwo <= 180).
Proof.
  intros Ha. unfold angleToAlgebraic.
  change viewPortScreenPixelPowerOfTwo with 1. change south with 1080.
  rewrite quarterCircle_eq, halfCircle_eq, fullCircle_eq in *.
  destruct (Z.gtb_spec angle 720); rewrite sar_1 by lia;
    (split; [|intros Hside]); Z.div_mod_to_equations; lia.
Qed.

Lemma computeScreenCoordinatesFor_runs `{TrigTables} `{Engine}
    (built : TablesBuilt) (vp : Viewport) (verticalOffset : Z) (map : Map.t)
    (ship : Valkyrie.t) (x y : Z) (memo : Memo) :
  0 < Map.size map ->
  Map.square_grid map ->
  exists col row memo',
    computeScreenCoordinatesFor vp verticalOffset map ship x y memo = Some memo' /\
    memo' x y = Some (col, row) /\
    (forall x' y', x' <> x \/ y' <> y -> memo' x' y' = memo x' y') /\
    JS.sar (width vp) 1 - 360 <= col <= JS.sar (width vp) 1 + 360 /\
    verticalOffset - 360 <= row <= verticalOffset + 360 /\
    (0 <= Valkyrie.x ship < 2 ^ coordinateBits ->
     0 <= Valkyrie.y ship < 2 ^ coordinateBits ->
     -512 <= x <= 512 -> -512 <= y <= 512 ->
     verticalOffset - 180 <= row <= verticalOffset + 180).
Proof.
  intros Hn Hgrid. unfold computeScreenCoordinatesFor.
  destruct (angleFromCoordinates_range built
              (JS.shl x bitsBetweenTops - Valkyrie.x ship)
              (Valkyrie.y ship - JS.shl y bitsBetweenTops))
    as (absAngle & -> & _ & _).
  destruct (get_in_grid map x y Hn Hgrid) as (_ & elevation & _ & _ & ->).
  destruct (angleFromCoordinates_range built
              (distance (Valkyrie.x ship) (Valkyrie.y ship)
                 (JS.shl x bitsBetweenTops) (JS.shl y bitsBetweenTops))
              (elevation - Valkyrie.z ship))
    as (angle & -> & Hangle & Hside).
  pose proof (angleToAlgebraic_pixels angle Hangle) as [Hrow Hrow'].
  assert (0 <= angleSub (Valkyrie.heading ship) absAngle <= fullCircle) as Haz
    by (unfold angleSub;
        pose proof (mod_range (Valkyrie.heading ship - absAngle) fullCircle
                      ltac:(rewrite fullCircle_eq; lia)); lia).
  pose proof (angleToAlgebraic_pixels _ Haz) as [Hcol _].
  eexists _, _, _. split; [reflexivity|].
  split; [unfold memoSet; now rewrite !Z.eqb_refl|].
  split.
  { intros x' y' Hother. unfold memoSet.
    destruct (Z.eqb_spec x' x); destruct (Z.eqb_spec y' y); simpl;
      try reflexivity. lia. }
  split; [lia|]. split; [lia|].
  intros Hx Hy Hmx Hmy.
  change (2 ^ coordinateBits) with 65536 in *.
  assert (forall c, -512 <= c <= 512 -> JS.shl c bitsBetweenTops = c * 4096)
    as Hshl by (intros c Hc; change bitsBetweenTops with 12;
                rewrite shl_small; lia).
  assert (0 <= distance (Valkyrie.x ship) (Valkyrie.y ship)
                 (JS.shl x bitsBetweenTops) (JS.shl y bitsBetweenTops)) as Hdist
    by (apply distance_nonneg; rewrite Hshl by assumption; lia).
  specialize (Hrow' (Hside Hdist)). lia.
Qed.

(** X12: with the tables built and a square map, projecting a summit
    always succeeds, whatever the ship, the map coordinates and the
    rounding.  It writes the memo at these coordinates only.  The screen
    column is at most 360 columns away from the middle of the viewport
    and the screen row at most 360 rows from the horizon line; for a
    ship inside the coordinate space and map coordinates of at most 512
    in absolute value the row is within 180 rows of the horizon line.
    Rows, and so mountain tops, can be negative. *)
Theorem computeScreenCoordinatesFor_bounds `{TrigTables} `{Engine}
    (built : TablesBuilt) (vp : Viewport) (verticalOffset : Z) (map : Map.t)
    (ship : Valkyrie.t) (x y : Z) (memo : Memo) :
  0 < Map.size map ->
  Map.square_grid map ->
  exists col row memo',
    computeScreenCoordinatesFor vp verticalOffset map ship x y memo = Some memo' /\
    memo' x y = Some (col, row) /\
    (forall x' y', x' <> x \/ y' <> y -> memo' x' y' = memo x' y') /\
    JS.sar (width vp) 1 - 360 <= col <= JS.sar (width vp) 1 + 360 /\
    verticalOffset - 360 <= row <= verticalOffset + 360 /\
    (0 <= Valkyrie.x ship < 2 ^ coordinateBits ->
     0 <= Valkyrie.y ship < 2 ^ coordinateBits ->
     -512 <= x <= 512 -> -512 <= y <= 512 ->
     verticalOffset - 180 <= row <= verticalOffset + 180).
Proof.
  exact (computeScreenCoordinatesFor_runs built vp verticalOffset map ship x y
           memo).
Qed.

Lemma computeScreenCoordinatesFor_bounds_witness :
  TablesBuilt /\
  0 < Map.size (Map.new mapSize) /\
  Map.square_grid (Map.new mapSize) /\
  exists col row memo',
    computeScreenCoordinatesFor (resetTopHeights pageViewport)
      viewportVerticalOffset (Map.new mapSize) pageShip 9 7 emptyMemo
    = Some memo' /\
    memo' 9 7 = Some (col, row) /\
    (forall x' y', x' <> 9 \/ y' <> 7 -> memo' x' y' = emptyMemo x' y') /\
    JS.sar (width (resetTopHeights pageViewport)) 1 - 360 <= col
    <= JS.sar (width (resetTopHeights pageViewport)) 1 + 360 /\
    viewportVerticalOffset - 360 <= row <= viewportVerticalOffset + 360 /\
    (0 <= Valkyrie.x pageShip < 2 ^ coordinateBits ->
     0 <= Valkyrie.y pageShip < 2 ^ coordinateBits ->
     -512 <= 9 <= 512 -> -512 <= 7 <= 512 ->
     viewportVerticalOffset - 180 <= row <= viewportVerticalOffset + 180).
Proof.
  assert (0 < Map.size (Map.new mapSize)) as Hn by reflexivity.
  pose proof (new_square_grid mapSize) as Hgrid.
  split; [exact reference_tables_built|]. split; [exact Hn|].
  split; [exact Hgrid|].
  exact (computeScreenCoordinatesFor_bounds reference_tables_built
           (resetTopHeights pageViewport) viewportVerticalOffset
           (Map.new mapSize) pageShip 9 7 emptyMemo Hn Hgrid).
Defined.

(** From the page's ship, at the top of the elevation range, the summit
    of its own cell on a flat map at elevation 0 is projected below the
    bottom of the viewport: the row is negative. *)
Example computeScreenCoordinatesFor_negative_row :
  option_map (fun memo => memo 8 8)
    (computeScreenCoordinatesFor (resetTopHeights pageViewport)
       viewportVerticalOffset (Map.new mapSize) pageShip 8 8 emptyMemo)
  = Some (Some (80, -130)).
Proof. vm_compute. reflexivity. Qed.

(** ** Termination and footprint of the interpolation *)

Lemma redrawnBetween_refl (lo hi : Z) (vp : Viewport) : redrawnBetween lo hi vp vp.
Proof.
  repeat split; try reflexivity. exists []. now rewrite app_nil_r.
Qed.

Lemma redrawnBetween_trans (lo hi lo' hi' lo'' hi'' : Z)
    (vp1 vp2 vp3 : Viewport) :
  lo'' <= lo -> lo'' <= lo' -> hi <= hi'' -> hi' <= hi'' ->
  redrawnBetween lo hi vp1 vp2 ->
  redrawnBetween lo' hi' vp2 vp3 ->
  redrawnBetween lo'' hi'' vp1 vp3.
Proof.
  intros Hlo Hlo' Hhi Hhi' (W1 & H1 & S1 & I1 & L1 & C1 & calls1 & X1)
    (W2 & H2 & S2 & I2 & L2 & C2 & calls2 & X2).
  split; [congruence|]. split; [congruence|]. split; [congruence|].
  split; [congruence|]. split; [congruence|]. split.
  - intros c Hc. rewrite C2 by lia. apply C1. lia.
  - exists (calls1 ++ calls2). rewrite X2, X1. now rewrite app_assoc.
Qed.

Lemma paintColumn_redrawn (lo hi : Z) (vp : Viewport) (xScreen mountainTop : Z)
    (calls : list drawImage) :
  0 <= xScreen -> lo < xScreen < hi ->
  redrawnBetween lo hi vp (paintColumn vp xScreen mountainTop calls).
Proof.
  intros Hx Hin. unfold paintColumn, redrawnBetween. simpl.
  repeat split; try reflexivity.
  - apply length_insert.
  - intros c Hc. apply index_insert_other; lia.
  - now exists calls.
Qed.

(** A submission touches its own column only. *)
Lemma drawMountainColumn_redrawn (lo hi : Z) (vp : Viewport)
    (xScreen mountainTop : Z) :
  lo < xScreen < hi ->
  redrawnBetween lo hi vp (drawMountainColumn vp xScreen mountainTop).
Proof.
  intros Hin. unfold drawMountainColumn.
  destruct (Z.ltb_spec xScreen 0); simpl; [apply redrawnBetween_refl|].
  destruct (xScreen >=? width vp); [apply redrawnBetween_refl|].
  destruct (JS.index (topHeights vp) xScreen) as [topHeight|];
    [|apply redrawnBetween_refl].
  destruct (topHeight =? undrawn); [now apply paintColumn_redrawn|].
  destruct (mountainTop >? topHeight);
    [now apply paintColumn_redrawn|apply redrawnBetween_refl].
Qed.

Lemma interpolate_mono (fuel fuel' : nat) (vp vp' : Viewport)
    (yMountain1 yMountain2 x1 x2 y1 y2 bisections : Z) :
  (fuel <= fuel')%nat ->
  interpolate fuel vp yMountain1 yMountain2 x1 x2 y1 y2 bisections = Some vp' ->
  interpolate fuel' vp yMountain1 yMountain2 x1 x2 y1 y2 bisections = Some vp'.
Proof.
  revert fuel' vp vp' yMountain1 yMountain2 x1 x2 y1 y2 bisections.
  induction fuel as [|fuel IH]; intros fuel' vp vp' yMountain1 yMountain2
    x1 x2 y1 y2 bisections Hle Hrun; [discriminate|].
  destruct fuel' as [|fuel']; [lia|].
  cbn [interpolate] in *.
  destruct (((x1 <? 0) || (x1 >=? width vp)) && ((x2 <? 0) || (y2 >=? width vp)));
    [exact Hrun|].
  destruct (negb (JS.sar (x1 + x2) 1 =? x1) && negb (JS.sar (x1 + x2) 1 =? x2));
    [|exact Hrun].
  destruct (interpolation vp yMountain1 yMountain2 x1 x2 y1 y2 bisections)
    as [midMountainY midScreenY].
  destruct (interpolate fuel _ yMountain1 midMountainY x1 _ y1 midScreenY _)
    as [vp2|] eqn:Hleft; [|discriminate].
  rewrite (IH fuel' _ _ _ _ _ _ _ _ _ ltac:(lia) Hleft).
  apply IH; [lia|exact Hrun].
Qed.

Lemma interpolate_runs (fuel : nat) (vp : Viewport)
    (yMountain1 yMountain2 x1 x2 y1 y2 bisections : Z) :
  - 2 ^ 30 <= x1 < 2 ^ 30 ->
  - 2 ^ 30 <= x2 < 2 ^ 30 ->
  Z.abs (x2 - x1) < Z.of_nat fuel ->
  exists vp',
    interpolate fuel vp yMountain1 yMountain2 x1 x2 y1 y2 bisections = Some vp' /\
    redrawnBetween (Z.min x1 x2) (Z.max x1 x2) vp vp'.
Proof.
  revert vp yMountain1 yMountain2 x1 x2 y1 y2 bisections.
  induction fuel as [|fuel IH]; intros vp yMountain1 yMountain2 x1 x2 y1 y2
    bisections Hx1 Hx2 Hfuel; [lia|].
  cbn [interpolate].
  destruct (((x1 <? 0) || (x1 >=? width vp)) && ((x2 <? 0) || (y2 >=? width vp)));
    [eexists; split; [reflexivity|apply redrawnBetween_refl]|].
  rewrite sar_1 by lia.
  destruct (Z.eqb_spec ((x1 + x2) / 2) x1) as [|Hne1];
    [eexists; split; [reflexivity|apply redrawnBetween_refl]|].
  destruct (Z.eqb_spec ((x1 + x2) / 2) x2) as [|Hne2];
    [eexists; split; [reflexivity|apply redrawnBetween_refl]|].
  cbn [negb andb].
  assert (Z.min x1 x2 < (x1 + x2) / 2 < Z.max x1 x2) as Hmid
    by (Z.div_mod_to_equations; lia).
  destruct (interpolation vp yMountain1 yMountain2 x1 x2 y1 y2 bisections)
    as [midMountainY midScreenY].
  pose proof (drawMountainColumn_redrawn _ _ vp _ midScreenY Hmid) as Hdraw.
  destruct (IH (drawMountainColumn vp ((x1 + x2) / 2) midScreenY) yMountain1
              midMountainY x1 ((x1 + x2) / 2) y1 midScreenY (bisections + 1))
    as (vp2 & -> & Hleft); try lia.
  destruct (IH vp2 midMountainY yMountain2 ((x1 + x2) / 2) x2 midScreenY y2
              (bisections + 1)) as (vp3 & -> & Hright); try lia.
  exists vp3. split; [reflexivity|].
  apply (redrawnBetween_trans (Z.min x1 x2) (Z.max x1 x2)
           (Z.min ((x1 + x2) / 2) x2) (Z.max ((x1 + x2) / 2) x2) _ _
           vp vp2 vp3); [lia|lia|lia|lia| |exact Hright].
  apply (redrawnBetween_trans (Z.min x1 x2) (Z.max x1 x2)
           (Z.min x1 ((x1 + x2) / 2)) (Z.max x1 ((x1 + x2) / 2)) _ _
           vp (drawMountainColumn vp ((x1 + x2) / 2) midScreenY) vp2);
    [lia|lia|lia|lia|exact Hdraw|exact Hleft].
Qed.

(** X13: between two screen columns of [-2^30, 2^30) the recursive
    interpolation always returns, whatever the interpolation law; any
    fuel above the distance between the columns gives the same
    viewport.  It keeps the dimensions of the viewport and the length
    of the occlusion buffer, only appends to the canvas, and leaves the
    recorded height of every column that is not strictly between the
    two untouched. *)
Theorem interpolate_terminates (vp : Viewport)
    (yMountain1 yMountain2 x1 x2 y1 y2 bisections : Z) :
  - 2 ^ 30 <= x1 < 2 ^ 30 ->
  - 2 ^ 30 <= x2 < 2 ^ 30 ->
  exists vp',
    (forall fuel, Z.abs (x2 - x1) < Z.of_nat fuel ->
       interpolate fuel vp yMountain1 yMountain2 x1 x2 y1 y2 bisections
       = Some vp') /\
    width vp' = width vp /\
    height vp' = height vp /\
    length (topHeights vp') = length (topHeights vp) /\
    (forall c, c <= Z.min x1 x2 \/ Z.max x1 x2 <= c ->
               JS.index (topHeights vp') c = JS.index (topHeights vp) c) /\
    exists calls, context vp' = context vp ++ calls.
Proof.
  intros Hx1 Hx2.
  destruct (interpolate_runs (S (Z.to_nat (Z.abs (x2 - x1)))) vp yMountain1
              yMountain2 x1 x2 y1 y2 bisections Hx1 Hx2 ltac:(lia))
    as (vp' & Hrun & W & Hh & _ & _ & L & C & X).
  exists vp'. split; [|auto].
  intros fuel Hfuel. apply interpolate_mono with (2 := Hrun). lia.
Qed.

Lemma interpolate_terminates_witness :
  - 2 ^ 30 <= -10 < 2 ^ 30 /\
  - 2 ^ 30 <= 200 < 2 ^ 30 /\
  exists vp',
    (forall fuel, Z.abs (200 - -10) < Z.of_nat fuel ->
       interpolate fuel (resetTopHeights pageViewport) 1000 2000 (-10) 200 20 30 0
       = Some vp') /\
    width vp' = width (resetTopHeights pageViewport) /\
    height vp' = height (resetTopHeights pageViewport) /\
    length (topHeights vp') = length (topHeights (resetTopHeights pageViewport)) /\
    (forall c, c <= Z.min (-10) 200 \/ Z.max (-10) 200 <= c ->
               JS.index (topHeights vp') c
               = JS.index (topHeights (resetTopHeights pageViewport)) c) /\
    exists calls, context vp' = context (resetTopHeights pageViewport) ++ calls.
Proof.
  assert (- 2 ^ 30 <= -10 < 2 ^ 30) as Hx1 by lia.
  assert (- 2 ^ 30 <= 200 < 2 ^ 30) as Hx2 by lia.
  split; [exact Hx1|]. split; [exact Hx2|].
  exact (interpolate_terminates (resetTopHeights pageViewport) 1000 2000 (-10)
           200 20 30 0 Hx1 Hx2).
Defined.

(** ** Listeners *)

Lemma indexOf_first {H : Type} `{EqDecision H} (before after : list H) (h : H) :
  h ∉ before -> indexOf (before ++ h :: after) h = Some (length before).
Proof.
  induction before as [|h' before IH]; intros Hnot; simpl.
  - now destruct (decide (h = h)).
  - apply not_elem_of_cons in Hnot as [Hne Hnot].
    destruct (decide (h' = h)); [congruence|]. now rewrite IH.
Qed.

Lemma indexOf_absent {H : Type} `{EqDecision H} (handlers : list H) (h : H) :
  h ∉ handlers -> indexOf handlers h = None.
Proof.
  induction handlers as [|h' handlers IH]; intros Hnot; simpl; [reflexivity|].
  apply not_elem_of_cons in Hnot as [Hne Hnot].
  destruct (decide (h' = h)); [congruence|]. now rewrite IH.
Qed.

(** X14: removing a handler takes out its first registration only and
    keeps the others in order; removing a handler that is not
    registered changes nothing; registering a handler that was not
    registered and removing it again gives the list back, and a handler
    registered twice is still registered after one removal. *)
Theorem removeListener_first {H : Type} `{EqDecision H}
    (handlers : list H) (h : H) :
  (h ∉ handlers -> removeListener handlers h = handlers) /\
  (h ∉ handlers -> removeListener (addListener handlers h) h = handlers) /\
  (forall before after,
     handlers = before ++ h :: after -> h ∉ before ->
     removeListener handlers h = before ++ after) /\
  (h ∈ handlers -> S (length (removeListener handlers h)) = length handlers) /\
  (forall h', h' <> h -> h' ∈ removeListener handlers h <-> h' ∈ handlers) /\
  h ∈ removeListener (addListener (addListener handlers h) h) h.
Proof.
  assert (forall before after,
            h ∉ before -> removeListener (before ++ h :: after) h = before ++ after)
    as Hfirst.
  { intros before after Hnot. unfold removeListener.
    rewrite indexOf_first by exact Hnot. apply delete_middle. }
  assert (h ∉ handlers -> removeListener handlers h = handlers) as Habsent
    by (intros Hnot; unfold removeListener; now rewrite indexOf_absent).
  split; [exact Habsent|]. split; [|split; [|split; [|split]]].
  - intros Hnot. unfold addListener. rewrite Hfirst by exact Hnot.
    apply app_nil_r.
  - intros before after -> Hnot. now apply Hfirst.
  - intros Hin. apply list_elem_of_split_l in Hin as (before & after & -> & Hnot).
    rewrite Hfirst by exact Hnot. rewrite !length_app. simpl. lia.
  - intros h' Hne. destruct (decide (h ∈ handlers)) as [Hin|Hnot].
    + apply list_elem_of_split_l in Hin as (before & after & -> & Hnot).
      rewrite Hfirst by exact Hnot. rewrite !elem_of_app, elem_of_cons.
      intuition congruence.
    + now rewrite Habsent.
  - unfold addListener.
    destruct (decide (h ∈ handlers)) as [Hin|Hnot].
    + apply list_elem_of_split_l in Hin as (before & after & -> & Hnot).
      rewrite <- !app_assoc. simpl. rewrite Hfirst by exact Hnot.
      rewrite !elem_of_app, !elem_of_cons. tauto.
    + rewrite <- app_assoc. simpl. rewrite Hfirst by exact Hnot.
      rewrite elem_of_app, elem_of_cons. tauto.
Qed.

Lemma removeListener_first_witness :
  (3%nat ∉ [1%nat; 2%nat]) /\
  removeListener (addListener [1%nat; 2%nat] 3%nat) 3%nat = [1%nat; 2%nat].
Proof.
  assert (3%nat ∉ [1%nat; 2%nat]) as Hnot
    by (intros Hin; repeat (apply elem_of_cons in Hin as [Hin|Hin];
                            [discriminate|]); now apply elem_of_nil in Hin).
  split; [exact Hnot|].
  exact (proj1 (proj2 (removeListener_first [1%nat; 2%nat] 3%nat)) Hnot).
Defined.

(** ** Fresh maps and notifications *)

(** X15: a new map of positive size reads 0 at every coordinate and has
    notified nothing; a map of size 0 has no cell to read or to write. *)
Theorem new_map_flat (n row col : Z) (val : Q) :
  (0 < n -> Map.get (Map.new n) row col = Some 0) /\
  Map.changes (Map.new n) = [] /\
  Map.get (Map.new 0) row col = None /\
  Map.set (Map.new 0) row col val = None.
Proof.
  split; [|repeat split].
  intros Hn.
  destruct (get_in_grid (Map.new n) row col Hn (new_square_grid n))
    as (cells & v & Hcells & Hv & ->).
  simpl in Hcells, Hv.
  apply lookup_replicate in Hcells as [-> _].
  apply lookup_replicate in Hv as [-> _]. reflexivity.
Qed.

Lemma new_map_flat_witness :
  0 < mapSize /\ Map.get (Map.new mapSize) (-1) 40 = Some 0.
Proof.
  assert (0 < mapSize) as Hn by reflexivity.
  split; [exact Hn|].
  exact (proj1 (new_map_flat mapSize (-1) 40 0) Hn).
Defined.

(** X16: on a square map a write notifies the handlers once, with the
    coordinates reduced modulo the size and the value rounded down; of
    two writes to the same cell the second is the one read back, and
    both are notified, in order. *)
Theorem set_notifies (m : Map.t) (row col : Z) (val val' : Q) :
  0 < Map.size m ->
  Map.square_grid m ->
  exists m' m'',
    Map.set m row col val = Some m' /\
    Map.changes m'
    = Map.changes m ++ [(row mod Map.size m, col mod Map.size m, Qfloor val)] /\
    Map.set m' (row + Map.size m) col val' = Some m'' /\
    Map.changes m''
    = Map.changes m
      ++ [(row mod Map.size m, col mod Map.size m, Qfloor val);
          (row mod Map.size m, col mod Map.size m, Qfloor val')] /\
    Map.get m'' row col = Some (Qfloor val').
Proof.
  intros Hn Hgrid.
  destruct (set_in_grid m row col val Hn Hgrid) as (cells & Hcells & E).
  destruct (set_square_grid m _ row col val Hn Hgrid E) as [_ Hgrid'].
  remember {| Map.size := Map.size m;
              Map.map := <[Z.to_nat (row mod Map.size m) :=
                             <[Z.to_nat (col mod Map.size m) := Qfloor val]>
                               cells]> (Map.map m);
              Map.changes := Map.changes m
                             ++ [(row mod Map.size m, col mod Map.size m,
                                  Qfloor val)] |} as m1 eqn:Hm1.
  assert (Map.size m1 = Map.size m) as Hsize by (subst m1; reflexivity).
  assert (Map.changes m1
          = Map.changes m
            ++ [(row mod Map.size m, col mod Map.size m, Qfloor val)])
    as Hchanges by (subst m1; reflexivity).
  assert (0 < Map.size m1) as Hn' by lia.
  destruct (set_in_grid m1 (row + Map.size m) col val' Hn' Hgrid')
    as (cells' & Hcells' & E').
  pose proof (get_set m1 _ (row + Map.size m) col row col val' Hn' Hgrid' E')
    as Hread.
  eexists m1, _. split; [exact E|]. split; [exact Hchanges|].
  split; [exact E'|]. split.
  - cbn [Map.changes]. rewrite Hchanges, Hsize, Zmod_shift, <- app_assoc.
    reflexivity.
  - rewrite Hread, Hsize, Zmod_shift, !Z.eqb_refl. reflexivity.
Qed.

Lemma set_notifies_witness :
  0 < Map.size (Map.new mapSize) /\
  Map.square_grid (Map.new mapSize) /\
  exists m' m'',
    Map.set (Map.new mapSize) 17 (-1) (7 # 2) = Some m' /\
    Map.changes m'
    = Map.changes (Map.new mapSize)
      ++ [(17 mod Map.size (Map.new mapSize),
           (-1) mod Map.size (Map.new mapSize), Qfloor (7 # 2))] /\
    Map.set m' (17 + Map.size (Map.new mapSize)) (-1) (9 # 1) = Some m'' /\
    Map.changes m''
    = Map.changes (Map.new mapSize)
      ++ [(17 mod Map.size (Map.new mapSize),
           (-1) mod Map.size (Map.new mapSize), Qfloor (7 # 2));
          (17 mod Map.size (Map.new mapSize),
           (-1) mod Map.size (Map.new mapSize), Qfloor (9 # 1))] /\
    Map.get m'' 17 (-1) = Some (Qfloor (9 # 1)).
Proof.
  assert (0 < Map.size (Map.new mapSize)) as Hn by reflexivity.
  pose proof (new_square_grid mapSize) as Hgrid.
  split; [exact Hn|]. split; [exact Hgrid|].
  exact (set_notifies (Map.new mapSize) 17 (-1) (7 # 2) (9 # 1) Hn Hgrid).
Defined.

(** ** A whole frame *)

Lemma forEach_steps (P : Memo * Viewport -> Prop)
    (Q : Z -> Memo * Viewport -> Prop) (values : list Z) (body : Z -> FrameStep) :
  (forall i s, i ∈ values -> P s ->
     exists s', body i s = Some s' /\ P s' /\ Q i s' /\
                forall j, Q j s -> Q j s') ->
  forall s, P s ->
    exists s', forEach values body s = Some s' /\ P s' /\
               (forall i, i ∈ values -> Q i s') /\
               forall j, Q j s -> Q j s'.
Proof.
  induction values as [|i values IH]; intros Hbody s Hs.
  - exists s. split; [reflexivity|]. split; [exact Hs|].
    split; [intros i Hi; now apply elem_of_nil in Hi|auto].
  - destruct (Hbody i s ltac:(left) Hs) as (s1 & E1 & P1 & Q1 & K1).
    destruct (IH (fun j t Hj => Hbody j t ltac:(now right)) s1 P1)
      as (s2 & E2 & P2 & Q2 & K2).
    exists s2. split; [simpl; unfold thenStep; now rewrite E1|].
    split; [exact P2|]. split; [|auto].
    intros j Hj. apply elem_of_cons in Hj as [->|Hj]; auto.
Qed.

Lemma refinesStep_thenStep (a a' b b' : FrameStep) :
  refinesStep a a' -> refinesStep b b' ->
  refinesStep (thenStep a b) (thenStep a' b').
Proof.
  intros Ha Hb s r. unfold thenStep.
  destruct (a s) as [s'|] eqn:E; [|discriminate].
  rewrite (Ha _ _ E). apply Hb.
Qed.

Lemma refinesStep_forEach (values : list Z) (body body' : Z -> FrameStep) :
  (forall i, refinesStep (body i) (body' i)) ->
  refinesStep (forEach values body) (forEach values body').
Proof.
  intros Hbody. induction values as [|i values IH]; [intros s r E; exact E|].
  simpl. now apply refinesStep_thenStep.
Qed.

Lemma refinesStep_refl (a : FrameStep) : refinesStep a a.
Proof. intros s r E. exact E. Qed.

Section FrameFacts.

Context `{TrigTables} `{Engine} (built : TablesBuilt).
Context (verticalOffset : Z) (map : Map.t) (ship : Valkyrie.t).
Context (Hn : 0 < Map.size map) (Hgrid : Map.square_grid map).
Context (vp0 : Viewport) (Hwidth : 0 <= width vp0 < 2 ^ 30).
Context (xMap yMap : Z).

Lemma interpolateFromMemo_mono (fuel fuel' : nat) (x1 y1 x2 y2 : Z) :
  (fuel <= fuel')%nat ->
  refinesStep (interpolateFromMemo fuel map x1 y1 x2 y2)
              (interpolateFromMemo fuel' map x1 y1 x2 y2).
Proof.
  intros Hle [memo vp] r. unfold interpolateFromMemo.
  destruct (memo x1 y1) as [m1|]; [|discriminate].
  destruct (memo x2 y2) as [m2|]; [|discriminate].
  destruct (Map.get map x1 y1) as [e1|]; [|discriminate].
  destruct (Map.get map x2 y2) as [e2|]; [|discriminate].
  destruct (interpolate fuel vp e1 e2 _ _ _ _ 0) as [vp'|] eqn:E;
    [|discriminate].
  now rewrite (interpolate_mono fuel fuel' _ _ _ _ _ _ _ _ _ Hle E).
Qed.

Lemma ring_mono (fuel fuel' : nat) (dist : Z) :
  (fuel <= fuel')%nat ->
  refinesStep (ring fuel verticalOffset map ship xMap yMap dist)
              (ring fuel' verticalOffset map ship xMap yMap dist).
Proof.
  intros Hle. unfold ring.
  repeat first
    [ apply refinesStep_thenStep
    | apply refinesStep_forEach; intros ?
    | apply interpolateFromMemo_mono; exact Hle
    | apply refinesStep_refl ].
Qed.

Lemma known_framed (d : Z) (s : Memo * Viewport) (a b : Z) :
  framed vp0 xMap yMap d s -> - d <= a <= d -> - d <= b <= d ->
  known (JS.sar (width vp0) 1 - 360) (JS.sar (width vp0) 1 + 360)
        (fst s) (xMap + a) (yMap + b).
Proof. intros [_ Hknown]. apply Hknown. Qed.

Lemma project_step (d x y : Z) (s : Memo * Viewport) :
  framed vp0 xMap yMap d s ->
  exists s',
    project verticalOffset map ship x y s = Some s' /\
    framed vp0 xMap yMap d s' /\
    known (JS.sar (width vp0) 1 - 360) (JS.sar (width vp0) 1 + 360) (fst s') x y /\
    forall x' y',
      known (JS.sar (width vp0) 1 - 360) (JS.sar (width vp0) 1 + 360)
            (fst s) x' y' ->
      known (JS.sar (width vp0) 1 - 360) (JS.sar (width vp0) 1 + 360)
            (fst s') x' y'.
Proof.
  destruct s as [memo vp]. intros [Hvp Hknown]. simpl in *.
  destruct (computeScreenCoordinatesFor_runs built vp verticalOffset map ship
              x y memo Hn Hgrid)
    as (col & row & memo' & E & Hxy & Hother & Hcol & _).
  assert (width vp = width vp0) as Hw by apply Hvp. rewrite Hw in Hcol.
  assert (forall x' y',
            known (JS.sar (width vp0) 1 - 360) (JS.sar (width vp0) 1 + 360)
                  memo x' y' ->
            known (JS.sar (width vp0) 1 - 360) (JS.sar (width vp0) 1 + 360)
                  memo' x' y') as Hkeep.
  { intros x' y' Hk.
    destruct (Z.eq_dec x' x) as [->|Hx]; [destruct (Z.eq_dec y' y) as [->|Hy]|].
    - exists col, row. now split.
    - destruct Hk as (c & r & Ek & Bk). exists c, r.
      split; [rewrite Hother by (now right); exact Ek|exact Bk].
    - destruct Hk as (c & r & Ek & Bk). exists c, r.
      split; [rewrite Hother by (now left); exact Ek|exact Bk]. }
  exists (memo', vp). rewrite E. split; [reflexivity|].
  split; [split; [exact Hvp|intros a b Ha Hb; now apply Hkeep, Hknown]|].
  split; [exists col, row; now split|exact Hkeep].
Qed.

Lemma interpolateFromMemo_step (fuel : nat) (d x1 y1 x2 y2 : Z)
    (s : Memo * Viewport) :
  (720 < fuel)%nat ->
  framed vp0 xMap yMap d s ->
  known (JS.sar (width vp0) 1 - 360) (JS.sar (width vp0) 1 + 360) (fst s) x1 y1 ->
  known (JS.sar (width vp0) 1 - 360) (JS.sar (width vp0) 1 + 360) (fst s) x2 y2 ->
  exists s',
    interpolateFromMemo fuel map x1 y1 x2 y2 s = Some s' /\
    framed vp0 xMap yMap d s' /\ fst s' = fst s.
Proof.
  destruct s as [memo vp]. intros Hfuel [Hvp Hknown] (c1 & r1 & E1 & B1)
    (c2 & r2 & E2 & B2). simpl in *.
  assert (JS.sar (width vp0) 1 = width vp0 / 2) as Hhalf by (apply sar_1; lia).
  rewrite Hhalf in B1, B2.
  assert (0 <= width vp0 / 2 < 2 ^ 29) as Hmiddle
    by (Z.div_mod_to_equations; lia).
  destruct (get_in_grid map x1 y1 Hn Hgrid) as (_ & e1 & _ & _ & G1).
  destruct (get_in_grid map x2 y2 Hn Hgrid) as (_ & e2 & _ & _ & G2).
  destruct (interpolate_runs fuel vp e1 e2 c1 c2 r1 r2 0)
    as (vp' & Hrun & Hdrawn); try lia.
  exists (memo, vp'). unfold interpolateFromMemo.
  rewrite E1, E2, G1, G2. simpl. rewrite Hrun.
  split; [reflexivity|]. split; [|reflexivity]. split; [|exact Hknown].
  simpl.
  apply (redrawnBetween_trans (- 2 ^ 30 - 1) (2 ^ 30) (Z.min c1 c2) (Z.max c1 c2)
           _ _ vp0 vp vp'); try lia; assumption.
Qed.

Lemma drawMountainColumnFromMemo_step (d x y : Z) (s : Memo * Viewport) :
  framed vp0 xMap yMap d s ->
  known (JS.sar (width vp0) 1 - 360) (JS.sar (width vp0) 1 + 360) (fst s) x y ->
  exists s',
    drawMountainColumnFromMemo x y s = Some s' /\
    framed vp0 xMap yMap d s' /\ fst s' = fst s.
Proof.
  destruct s as [memo vp]. intros [Hvp Hknown] (c & r & E & B). simpl in *.
  assert (JS.sar (width vp0) 1 = width vp0 / 2) as Hhalf by (apply sar_1; lia).
  rewrite Hhalf in B.
  assert (0 <= width vp0 / 2 < 2 ^ 29) as Hmiddle
    by (Z.div_mod_to_equations; lia).
  exists (memo, drawMountainColumn vp c r). unfold drawMountainColumnFromMemo.
  rewrite E. simpl. split; [reflexivity|]. split; [|reflexivity].
  split; [|exact Hknown]. simpl.
  apply (redrawnBetween_trans (- 2 ^ 30 - 1) (2 ^ 30) (- 2 ^ 30 - 1) (2 ^ 30)
           _ _ vp0 vp _); try lia; [exact Hvp|].
  apply drawMountainColumn_redrawn. lia.
Qed.

End FrameFacts.

Lemma thenStep_Some (first next : FrameStep) (s s1 s2 : Memo * Viewport) :
  first s = Some s1 -> next s1 = Some s2 -> thenStep first next s = Some s2.
Proof. intros E1 E2. unfold thenStep. now rewrite E1. Qed.

Section RingFacts.

Context `{TrigTables} `{Engine} (built : TablesBuilt).
Context (verticalOffset : Z) (map : Map.t) (ship : Valkyrie.t).
Context (Hn : 0 < Map.size map) (Hgrid : Map.square_grid map).
Context (vp0 : Viewport) (Hwidth : 0 <= width vp0 < 2 ^ 30).
Context (xMap yMap : Z).
Context (fuel : nat) (Hfuel : (720 < fuel)%nat).

Local Ltac known_in_frame d :=
  match goal with
  | |- known _ _ _ ?x ?y =>
    replace x with (xMap + (x - xMap)) by ring;
    replace y with (yMap + (y - yMap)) by ring;
    apply (known_framed vp0 xMap yMap d); [assumption|lia|lia]
  end.

Lemma interpolate4_step (d x1 y1 x1' y1' x2 y2 x2' y2' x3 y3 x3' y3'
                           x4 y4 x4' y4' : Z) (s : Memo * Viewport) :
  framed vp0 xMap yMap d s ->
  (forall t, framed vp0 xMap yMap d t ->
     let k := known (JS.sar (width vp0) 1 - 360) (JS.sar (width vp0) 1 + 360)
                    (fst t) in
     k x1 y1 /\ k x1' y1' /\ k x2 y2 /\ k x2' y2' /\
     k x3 y3 /\ k x3' y3' /\ k x4 y4 /\ k x4' y4') ->
  exists s',
    thenStep (interpolateFromMemo fuel map x1 y1 x1' y1')
      (thenStep (interpolateFromMemo fuel map x2 y2 x2' y2')
         (thenStep (interpolateFromMemo fuel map x3 y3 x3' y3')
            (interpolateFromMemo fuel map x4 y4 x4' y4'))) s = Some s' /\
    framed vp0 xMap yMap d s'.
Proof.
  intros Hs Hkeys.
  destruct (interpolateFromMemo_step map Hn Hgrid vp0 Hwidth xMap yMap fuel d
              x1 y1 x1' y1' s Hfuel Hs) as (s1 & E1 & F1 & _);
    [apply (Hkeys s Hs)..|].
  destruct (interpolateFromMemo_step map Hn Hgrid vp0 Hwidth xMap yMap fuel d
              x2 y2 x2' y2' s1 Hfuel F1) as (s2 & E2 & F2 & _);
    [apply (Hkeys s1 F1)..|].
  destruct (interpolateFromMemo_step map Hn Hgrid vp0 Hwidth xMap yMap fuel d
              x3 y3 x3' y3' s2 Hfuel F2) as (s3 & E3 & F3 & _);
    [apply (Hkeys s2 F2)..|].
  destruct (interpolateFromMemo_step map Hn Hgrid vp0 Hwidth xMap yMap fuel d
              x4 y4 x4' y4' s3 Hfuel F3) as (s4 & E4 & F4 & _);
    [apply (Hkeys s3 F3)..|].
  exists s4. split; [|exact F4].
  repeat (eapply thenStep_Some; [eassumption|]). exact E4.
Qed.

Lemma ring_step (d : Z) (s : Memo * Viewport) :
  1 <= d ->
  framed vp0 xMap yMap (d - 1) s ->
  exists s',
    ring fuel verticalOffset map ship xMap yMap d s = Some s' /\
    framed vp0 xMap yMap d s'.
Proof.
  intros Hd Hs. unfold ring.
  set (k := known (JS.sar (width vp0) 1 - 360) (JS.sar (width vp0) 1 + 360)).
  (* the new summits *)
  destruct (forEach_steps (framed vp0 xMap yMap (d - 1))
              (fun i t => k (fst t) (xMap - d) (yMap + i) /\
                          k (fst t) (xMap + d) (yMap + i) /\
                          k (fst t) (xMap + i) (yMap - d) /\
                          k (fst t) (xMap + i) (yMap + d))
              (seqZ (- d) (2 * d + 1))
              (fun i =>
                 thenStep (project verticalOffset map ship (xMap - d) (yMap + i))
                (thenStep (project verticalOffset map ship (xMap + d) (yMap + i))
                (thenStep (project verticalOffset map ship (xMap + i) (yMap - d))
                          (project verticalOffset map ship (xMap + i) (yMap + d))))))
    with (s := s) as (s1 & E1 & F1 & Q1 & _); [|exact Hs|].
  { intros i t _ Ht.
    destruct (project_step built verticalOffset map ship Hn Hgrid vp0 xMap yMap
                (d - 1) (xMap - d) (yMap + i) t Ht) as (t1 & Ea & Fa & Ka & Ma).
    destruct (project_step built verticalOffset map ship Hn Hgrid vp0 xMap yMap
                (d - 1) (xMap + d) (yMap + i) t1 Fa) as (t2 & Eb & Fb & Kb & Mb).
    destruct (project_step built verticalOffset map ship Hn Hgrid vp0 xMap yMap
                (d - 1) (xMap + i) (yMap - d) t2 Fb) as (t3 & Ec & Fc & Kc & Mc).
    destruct (project_step built verticalOffset map ship Hn Hgrid vp0 xMap yMap
                (d - 1) (xMap + i) (yMap + d) t3 Fc) as (t4 & Ed & Fd & Kd & Md).
    exists t4. split; [repeat (eapply thenStep_Some; [eassumption|]); exact Ed|].
    split; [exact Fd|]. split.
    - unfold k. auto 10.
    - intros j (Ja & Jb & Jc & Jd). unfold k in *. auto 10. }
  assert (framed vp0 xMap yMap d s1) as G1.
  { split; [apply F1|]. intros a b Ha Hb.
    assert (forall i, - d <= i <= d -> i ∈ seqZ (- d) (2 * d + 1)) as Hin
      by (intros i Hi; apply elem_of_seqZ; lia).
    destruct (Z.eq_dec a (- d)) as [->|Ha1].
    { replace (xMap + - d) with (xMap - d) by ring. apply (Q1 b (Hin b Hb)). }
    destruct (Z.eq_dec a d) as [->|Ha2]; [apply (Q1 b (Hin b Hb))|].
    destruct (Z.eq_dec b (- d)) as [->|Hb1].
    { replace (yMap + - d) with (yMap - d) by ring. apply (Q1 a (Hin a Ha)). }
    destruct (Z.eq_dec b d) as [->|Hb2]; [apply (Q1 a (Hin a Ha))|].
    apply (known_framed vp0 xMap yMap (d - 1)); [exact F1|lia|lia]. }
  (* between the previous ring and the new one *)
  destruct (forEach_steps (framed vp0 xMap yMap d) (fun _ _ => True)
              (seqZ (- d + 1) (2 * d - 1))
              (fun i =>
                 thenStep (interpolateFromMemo fuel map (xMap - d + 1) (yMap + i)
                             (xMap - d) (yMap + i))
                (thenStep (interpolateFromMemo fuel map (xMap + d - 1) (yMap + i)
                             (xMap + d) (yMap + i))
                (thenStep (interpolateFromMemo fuel map (xMap + i) (yMap - d + 1)
                             (xMap + i) (yMap - d))
                          (interpolateFromMemo fuel map (xMap + i) (yMap + d - 1)
                             (xMap + i) (yMap + d))))))
    with (s := s1) as (s2 & E2 & F2 & _); [|exact G1|].
  { intros i t Hi Ht. apply elem_of_seqZ in Hi.
    destruct (interpolate4_step d (xMap - d + 1) (yMap + i) (xMap - d) (yMap + i)
                (xMap + d - 1) (yMap + i) (xMap + d) (yMap + i)
                (xMap + i) (yMap - d + 1) (xMap + i) (yMap - d)
                (xMap + i) (yMap + d - 1) (xMap + i) (yMap + d) t Ht)
      as (t' & Et & Ft).
    - intros u Hu. cbv zeta. repeat split; known_in_frame d.
    - exists t'. auto. }
  (* along the new ring *)
  destruct (forEach_steps (framed vp0 xMap yMap d) (fun _ _ => True)
              (seqZ (- d) (2 * d))
              (fun i =>
                 thenStep (interpolateFromMemo fuel map (xMap - d) (yMap + i)
                             (xMap - d) (yMap + i + 1))
                (thenStep (interpolateFromMemo fuel map (xMap + d) (yMap + i)
                             (xMap + d) (yMap + i + 1))
                (thenStep (interpolateFromMemo fuel map (xMap + i) (yMap - d)
                             (xMap + i + 1) (yMap - d))
                          (interpolateFromMemo fuel map (xMap + i) (yMap + d)
                             (xMap + i + 1) (yMap + d))))))
    with (s := s2) as (s3 & E3 & F3 & _); [|exact F2|].
  { intros i t Hi Ht. apply elem_of_seqZ in Hi.
    destruct (interpolate4_step d (xMap - d) (yMap + i) (xMap - d) (yMap + i + 1)
                (xMap + d) (yMap + i) (xMap + d) (yMap + i + 1)
                (xMap + i) (yMap - d) (xMap + i + 1) (yMap - d)
                (xMap + i) (yMap + d) (xMap + i + 1) (yMap + d) t Ht)
      as (t' & Et & Ft).
    - intros u Hu. cbv zeta. repeat split; known_in_frame d.
    - exists t'. auto. }
  (* the new summits themselves *)
  destruct (forEach_steps (framed vp0 xMap yMap d) (fun _ _ => True)
              (seqZ (- d) (2 * d + 1))
              (fun i =>
                 thenStep (drawMountainColumnFromMemo (xMap - d) (yMap + i))
                (thenStep (drawMountainColumnFromMemo (xMap + d) (yMap + i))
                (thenStep (drawMountainColumnFromMemo (xMap + i) (yMap - d))
                          (drawMountainColumnFromMemo (xMap + i) (yMap + d))))))
    with (s := s3) as (s4 & E4 & F4 & _); [|exact F3|].
  { intros i t Hi Ht. apply elem_of_seqZ in Hi.
    destruct (drawMountainColumnFromMemo_step vp0 Hwidth xMap yMap d
                (xMap - d) (yMap + i) t Ht) as (t1 & Ea & Fa & _);
      [known_in_frame d|].
    destruct (drawMountainColumnFromMemo_step vp0 Hwidth xMap yMap d
                (xMap + d) (yMap + i) t1 Fa) as (t2 & Eb & Fb & _);
      [known_in_frame d|].
    destruct (drawMountainColumnFromMemo_step vp0 Hwidth xMap yMap d
                (xMap + i) (yMap - d) t2 Fb) as (t3 & Ec & Fc & _);
      [known_in_frame d|].
    destruct (drawMountainColumnFromMemo_step vp0 Hwidth xMap yMap d
                (xMap + i) (yMap + d) t3 Fc) as (t4 & Ed & Fd & _);
      [known_in_frame d|].
    exists t4. split; [repeat (eapply thenStep_Some; [eassumption|]); exact Ed|].
    auto. }
  exists s4. split; [|exact F4].
  repeat (eapply thenStep_Some; [eassumption|]). exact E4.
Qed.

End RingFacts.

(** X17: with the tables built, on a square map and for a viewport
    narrower than 2^30 columns, drawing a frame always completes,
    whatever the ship and the rounding: every summit the loops look up
    in the memo has been projected before, every map cell exists and
    every interpolation returns; any fuel above 720 gives the same
    viewport.  The frame keeps the dimensions and the law of the
    viewport and leaves an occlusion buffer of one entry per column. *)
Theorem draw_completes `{TrigTables} `{Engine} (built : TablesBuilt)
    (verticalOffset : Z) (map : Map.t) (ship : Valkyrie.t) (vp : Viewport) :
  0 < Map.size map ->
  Map.square_grid map ->
  0 <= width vp < 2 ^ 30 ->
  exists vp',
    (forall fuel, (720 < fuel)%nat ->
       draw fuel verticalOffset map ship vp = Some vp') /\
    width vp' = width vp /\
    height vp' = height vp /\
    scalePowerOfTwo vp' = scalePowerOfTwo vp /\
    interpolation vp' = interpolation vp /\
    length (topHeights vp') = Z.to_nat (width vp).
Proof.
  intros Hn Hgrid Hwidth.
  set (xMap := JS.sar (Valkyrie.x ship) bitsBetweenTops).
  set (yMap := JS.sar (Valkyrie.y ship) bitsBetweenTops).
  set (vp0 := clearFrame vp).
  assert (0 <= width vp0 < 2 ^ 30) as Hwidth0 by exact Hwidth.
  assert (framed vp0 xMap yMap (-1) (emptyMemo, vp0)) as F
    by (split; [apply redrawnBetween_refl|intros a b Ha Hb; lia]).
  destruct (project_step built verticalOffset map ship Hn Hgrid vp0 xMap yMap
              (-1) xMap yMap _ F) as (s0 & E0 & [V0 _] & K0 & M0).
  assert (framed vp0 xMap yMap (1 - 1) s0) as F0.
  { split; [exact V0|]. intros a b Ha Hb.
    replace a with 0 by lia. replace b with 0 by lia.
    now rewrite !Z.add_0_r. }
  pose proof (Nat.lt_succ_diag_r 720) as Hfuel.
  destruct (ring_step built verticalOffset map ship Hn Hgrid vp0 Hwidth0
              xMap yMap 721 Hfuel 1 s0 ltac:(lia) F0) as (s1 & E1 & F1).
  destruct (ring_step built verticalOffset map ship Hn Hgrid vp0 Hwidth0
              xMap yMap 721 Hfuel 2 s1 ltac:(lia) F1) as (s2 & E2 & F2).
  destruct (ring_step built verticalOffset map ship Hn Hgrid vp0 Hwidth0
              xMap yMap 721 Hfuel 3 s2 ltac:(lia) F2) as (s3 & E3 & F3).
  destruct (ring_step built verticalOffset map ship Hn Hgrid vp0 Hwidth0
              xMap yMap 721 Hfuel 4 s3 ltac:(lia) F3) as (s4 & E4 & F4).
  destruct s4 as [memo4 vp4].
  destruct F4 as [(W & Hh & S & I & L & _) _].
  cbn [snd] in W, Hh, S, I, L.
  exists vp4. split; [|repeat split; try assumption].
  - intros fuel Hlt.
    assert (thenStep (project verticalOffset map ship xMap yMap)
              (forEach (seqZ 1 (viewDistance - 1))
                 (ring 721 verticalOffset map ship xMap yMap))
              (emptyMemo, vp0) = Some (memo4, vp4)) as Hrun.
    { eapply thenStep_Some; [exact E0|].
      change (seqZ 1 (viewDistance - 1)) with [1; 2; 3; 4]. simpl.
      repeat (eapply thenStep_Some; [eassumption|]). reflexivity. }
    unfold draw. fold xMap yMap vp0.
    assert (refinesStep
              (thenStep (project verticalOffset map ship xMap yMap)
                 (forEach (seqZ 1 (viewDistance - 1))
                    (ring 721 verticalOffset map ship xMap yMap)))
              (thenStep (project verticalOffset map ship xMap yMap)
                 (forEach (seqZ 1 (viewDistance - 1))
                    (ring fuel verticalOffset map ship xMap yMap)))) as Hmono.
    { apply refinesStep_thenStep; [apply refinesStep_refl|].
      apply refinesStep_forEach. intros d. apply ring_mono. lia. }
    now rewrite (Hmono _ _ Hrun).
  - rewrite L. apply length_replicate.
Qed.

Lemma draw_completes_witness :
  TablesBuilt /\
  0 < Map.size (Map.new mapSize) /\
  Map.square_grid (Map.new mapSize) /\
  0 <= width pageViewport < 2 ^ 30 /\
  exists vp',
    (forall fuel, (720 < fuel)%nat ->
       draw fuel viewportVerticalOffset (Map.new mapSize) pageShip pageViewport
       = Some vp') /\
    width vp' = width pageViewport /\
    height vp' = height pageViewport /\
    scalePowerOfTwo vp' = scalePowerOfTwo pageViewport /\
    interpolation vp' = interpolation pageViewport /\
    length (topHeights vp') = Z.to_nat (width pageViewport).
Proof.
  assert (0 < Map.size (Map.new mapSize)) as Hn by reflexivity.
  pose proof (new_square_grid mapSize) as Hgrid.
  assert (0 <= width pageViewport < 2 ^ 30) as Hwidth
    by (split; [discriminate|reflexivity]).
  split; [exact reference_tables_built|]. split; [exact Hn|].
  split; [exact Hgrid|]. split; [exact Hwidth|].
  exact (draw_completes reference_tables_built viewportVerticalOffset
           (Map.new mapSize) pageShip pageViewport Hn Hgrid Hwidth).
Defined.

(** ** Footprint of one column *)

Local Ltac painted_column Hpaint Hnn :=
  match goal with
  | |- context [paintColumn ?vp ?x ?top ?calls] =>
    destruct (Hpaint calls Hnn) as (Hw & Hh & Hl & Hc);
    split; [exact Hw|]; split; [exact Hh|]; split; [exact Hl|];
    split; [exact Hc|];
    exists calls; split; [reflexivity|];
    split; [now right|]; repeat constructor
  end.

(** X18: a submission for a column outside the viewport does nothing.
    Any submission keeps the dimensions of the viewport and the length
    of the occlusion buffer, leaves the recorded height of every other
    column alone, and appends to the canvas either nothing or two
    calls, both one logical pixel wide at the submitted column. *)
Theorem drawMountainColumn_footprint (vp : Viewport) (xScreen mountainTop : Z) :
  (xScreen < 0 \/ width vp <= xScreen ->
   drawMountainColumn vp xScreen mountainTop = vp) /\
  width (drawMountainColumn vp xScreen mountainTop) = width vp /\
  height (drawMountainColumn vp xScreen mountainTop) = height vp /\
  length (topHeights (drawMountainColumn vp xScreen mountainTop))
  = length (topHeights vp) /\
  (forall c, c <> xScreen ->
     JS.index (topHeights (drawMountainColumn vp xScreen mountainTop)) c
     = JS.index (topHeights vp) c) /\
  exists calls,
    context (drawMountainColumn vp xScreen mountainTop) = context vp ++ calls /\
    (calls = [] \/ length calls = 2%nat) /\
    Forall (fun call => dx call = JS.shl xScreen (scalePowerOfTwo vp) /\
                        dWidth call = JS.shl 1 (scalePowerOfTwo vp)) calls.
Proof.
  assert (forall calls,
            0 <= xScreen ->
            width (paintColumn vp xScreen mountainTop calls) = width vp /\
            height (paintColumn vp xScreen mountainTop calls) = height vp /\
            length (topHeights (paintColumn vp xScreen mountainTop calls))
            = length (topHeights vp) /\
            (forall c, c <> xScreen ->
               JS.index (topHeights (paintColumn vp xScreen mountainTop calls)) c
               = JS.index (topHeights vp) c)) as Hpaint.
  { intros calls Hx. simpl. repeat split; try reflexivity.
    - apply length_insert.
    - intros c Hc. apply index_insert_other; [exact Hx|congruence]. }
  unfold drawMountainColumn.
  destruct (Z.ltb_spec xScreen 0) as [Hneg|Hnn]; simpl.
  { repeat split; try reflexivity. exists []. rewrite app_nil_r. auto. }
  destruct (Z.geb_spec xScreen (width vp)) as [Hout|Hin].
  { repeat split; try reflexivity. exists []. rewrite app_nil_r. auto. }
  split; [intros [?|?]; lia|].
  destruct (JS.index (topHeights vp) xScreen) as [topHeight|].
  - destruct (topHeight =? undrawn); [|destruct (mountainTop >? topHeight)].
    + painted_column Hpaint Hnn.
    + painted_column Hpaint Hnn.
    + repeat split; try reflexivity. exists []. rewrite app_nil_r. auto.
  - repeat split; try reflexivity. exists []. rewrite app_nil_r. auto.
Qed.

Lemma drawMountainColumn_footprint_witness :
  (160 < 0 \/ width (resetTopHeights pageViewport) <= 160) /\
  drawMountainColumn (resetTopHeights pageViewport) 160 20
  = resetTopHeights pageViewport.
Proof.
  assert (160 < 0 \/ width (resetTopHeights pageViewport) <= 160) as Hout
    by (right; lazy; discriminate).
  split; [exact Hout|].
  exact (proj1 (drawMountainColumn_footprint (resetTopHeights pageViewport)
                  160 20) Hout).
Defined.

(** ** The laws on their operating range *)

(** X19: for elevations, rows and columns of [-2^30, 2^30) and a depth
    of 0 to 29, the linear law answers values between its two inputs,
    the row of the fractal law is at most [|x2 - x1| / 2^(depth + 2)]
    away from the linear one, and neither law depends on the order in
    which the two ends are given. *)
Theorem interpolation_between
    (yMountain1 yMountain2 xScreen1 xScreen2 yScreen1 yScreen2 bisections : Z) :
  - 2 ^ 30 <= yMountain1 < 2 ^ 30 -> - 2 ^ 30 <= yMountain2 < 2 ^ 30 ->
  - 2 ^ 30 <= xScreen1 < 2 ^ 30 -> - 2 ^ 30 <= xScreen2 < 2 ^ 30 ->
  - 2 ^ 30 <= yScreen1 < 2 ^ 30 -> - 2 ^ 30 <= yScreen2 < 2 ^ 30 ->
  0 <= bisections <= 29 ->
  Z.min yMountain1 yMountain2
  <= fst (linearInterpolation yMountain1 yMountain2 xScreen1 xScreen2
            yScreen1 yScreen2 bisections)
  <= Z.max yMountain1 yMountain2 /\
  Z.min yScreen1 yScreen2
  <= snd (linearInterpolation yMountain1 yMountain2 xScreen1 xScreen2
            yScreen1 yScreen2 bisections)
  <= Z.max yScreen1 yScreen2 /\
  Z.abs (snd (fractalInterpolation yMountain1 yMountain2 xScreen1 xScreen2
                yScreen1 yScreen2 bisections)
         - snd (linearInterpolation yMountain1 yMountain2 xScreen1 xScreen2
                  yScreen1 yScreen2 bisections))
  <= Z.abs (xScreen2 - xScreen1) / 2 ^ (bisections + 2) /\
  linearInterpolation yMountain2 yMountain1 xScreen2 xScreen1 yScreen2 yScreen1
    bisections
  = linearInterpolation yMountain1 yMountain2 xScreen1 xScreen2 yScreen1
      yScreen2 bisections /\
  fractalInterpolation yMountain2 yMountain1 xScreen2 xScreen1 yScreen2 yScreen1
    bisections
  = fractalInterpolation yMountain1 yMountain2 xScreen1 xScreen2 yScreen1
      yScreen2 bisections.
Proof.
  intros Hm1 Hm2 Hx1 Hx2 Hs1 Hs2 Hb.
  assert (screenDisplacement xScreen1 xScreen2 bisections
          = Z.abs (xScreen2 - xScreen1) / 2 ^ (bisections + 2)) as Hsd.
  { unfold screenDisplacement.
    assert ((if xScreen2 >? xScreen1 then xScreen2 - xScreen1
             else xScreen1 - xScreen2) = Z.abs (xScreen2 - xScreen1)) as ->
      by (destruct (Z.gtb_spec xScreen2 xScreen1); lia).
    change displacementAttenuationPower with 2. apply sar_small; lia. }
  assert (screenDisplacement xScreen2 xScreen1 bisections
          = screenDisplacement xScreen1 xScreen2 bisections) as Hsym.
  { unfold screenDisplacement. f_equal.
    destruct (Z.gtb_spec xScreen1 xScreen2); destruct (Z.gtb_spec xScreen2 xScreen1);
      lia. }
  assert (0 <= Z.abs (xScreen2 - xScreen1) / 2 ^ (bisections + 2)) as Hnn
    by (apply Z.div_pos; [lia|apply Z.pow_pos_nonneg; lia]).
  unfold fractalInterpolation, linearInterpolation.
  rewrite Hsym, Hsd. unfold byteSum.
  rewrite (Z.add_comm (JS.and yMountain2 255)).
  rewrite (Z.add_comm yMountain2), (Z.add_comm yScreen2).
  rewrite !sar_1 by lia.
  split; [simpl; Z.div_mod_to_equations; lia|].
  split; [simpl; Z.div_mod_to_equations; lia|].
  split; [|split; reflexivity].
  destruct (JS.and yMountain1 255 + JS.and yMountain2 255 >? 255); simpl.
  - rewrite Z.sub_diag. simpl. exact Hnn.
  - destruct (negb (JS.and (JS.and yMountain1 255 + JS.and yMountain2 255) 128
                    =? 0)); simpl; lia.
Qed.

Lemma interpolation_between_witness :
  - 2 ^ 30 <= 100 < 2 ^ 30 /\ - 2 ^ 30 <= 20 < 2 ^ 30 /\
  - 2 ^ 30 <= 0 < 2 ^ 30 /\ - 2 ^ 30 <= 64 < 2 ^ 30 /\
  - 2 ^ 30 <= 10 < 2 ^ 30 /\ 0 <= 1 <= 29 /\
  fractalInterpolation 20 100 64 0 20 10 1
  = fractalInterpolation 100 20 0 64 10 20 1.
Proof.
  assert (- 2 ^ 30 <= 100 < 2 ^ 30) as H100 by lia.
  assert (- 2 ^ 30 <= 20 < 2 ^ 30) as H20 by lia.
  assert (- 2 ^ 30 <= 0 < 2 ^ 30) as H0 by lia.
  assert (- 2 ^ 30 <= 64 < 2 ^ 30) as H64 by lia.
  assert (- 2 ^ 30 <= 10 < 2 ^ 30) as H10 by lia.
  assert (0 <= 1 <= 29) as Hb by lia.
  repeat (split; [assumption|]).
  exact (proj2 (proj2 (proj2 (proj2
           (interpolation_between 100 20 0 64 10 20 1 H100 H20 H0 H64 H10 H20
              Hb))))).
Defined.

(** ** Colours *)

(** X20: for an elevation of [0, maxHeight] the colour of the overhead
    map has red [104 + val / 32], green [96 + val / 64] and blue
    [val / 64], rounded down: every channel is a byte, and no channel
    decreases when the elevation grows. *)
Theorem elevationColor_bytes (val val' : Z) :
  0 <= val <= val' -> val' <= maxHeight ->
  elevationColor val = (104 + val / 32, 96 + val / 64, val / 64) /\
  0 <= 104 + val / 32 <= 255 /\
  0 <= 96 + val / 64 <= 255 /\
  0 <= val / 64 <= 255 /\
  104 + val / 32 <= 104 + val' / 32 /\
  96 + val / 64 <= 96 + val' / 64 /\
  val / 64 <= val' / 64.
Proof.
  intros Hval Hmax. rewrite maxHeight_eq in Hmax.
  split; [|repeat split; Z.div_mod_to_equations; lia].
  unfold elevationColor, Qfloor, Qplus, Qdiv, Qmult, Qinv, inject_Z.
  rewrite maxHeight_eq. cbn [Qnum Qden].
  change (Z.pos (1 * 4096)) with 4096.
  change (Z.pos (1 * (1 * 4096))) with 4096.
  f_equal; [f_equal|]; Z.div_mod_to_equations; lia.
Qed.

Lemma elevationColor_bytes_witness :
  0 <= 1000 <= 4096 /\ 4096 <= maxHeight /\
  elevationColor 1000 = (104 + 1000 / 32, 96 + 1000 / 64, 1000 / 64).
Proof.
  assert (0 <= 1000 <= 4096) as Hval by lia.
  assert (4096 <= maxHeight) as Hmax by discriminate.
  split; [exact Hval|]. split; [exact Hmax|].
  exact (proj1 (elevationColor_bytes 1000 4096 Hval Hmax)).
Defined.

(** ** Test terrains *)

Lemma get_small (m : Map.t) (row col : Z) :
  0 <= row < Map.size m -> 0 <= col < Map.size m ->
  row mod Map.size m = row /\ col mod Map.size m = col.
Proof. intros Hr Hc. split; apply Z.mod_small; assumption. Qed.

(** One row of writes. *)
Lemma fill_row (v : Z -> Q) (N x : Z) (ys : list Z) (m : Map.t) (n : nat) :
  0 < N -> Map.size m = N -> Map.square_grid m ->
  0 <= x < N -> Forall (fun y => 0 <= y < N) ys -> NoDup ys ->
  exists m',
    forEachGen ys (fun y => this_set x y (v y)) (m, n) = Some (tt, (m', n)) /\
    Map.size m' = N /\ Map.square_grid m' /\
    (forall c, c ∈ ys -> Map.get m' x c = Some (Qfloor (v c))) /\
    (forall r c, 0 <= r < N -> 0 <= c < N -> r <> x \/ c ∉ ys ->
                 Map.get m' r c = Map.get m r c) /\
    length (Map.changes m') = (length (Map.changes m) + length ys)%nat.
Proof.
  intros HN. revert m.
  induction ys as [|y ys IH]; intros m Hsize Hgrid Hx Hys Hdup.
  - exists m. simpl. split; [reflexivity|]. split; [exact Hsize|].
    split; [exact Hgrid|]. split; [intros c Hc; now apply elem_of_nil in Hc|].
    split; [reflexivity|lia].
  - apply Forall_cons in Hys as [Hy Hys]. apply NoDup_cons in Hdup as [Hnew Hdup].
    assert (0 < Map.size m) as Hn by lia.
    destruct (set_in_grid m x y (v y) Hn Hgrid) as (cells & _ & E).
    destruct (set_square_grid m _ x y (v y) Hn Hgrid E) as [Hsize1 Hgrid1].
    pose proof (fun r c => get_set m _ x y r c (v y) Hn Hgrid E) as Hread.
    remember {| Map.size := Map.size m;
                Map.map := <[Z.to_nat (x mod Map.size m) :=
                               <[Z.to_nat (y mod Map.size m) := Qfloor (v y)]>
                                 cells]> (Map.map m);
                Map.changes := Map.changes m
                               ++ [(x mod Map.size m, y mod Map.size m,
                                    Qfloor (v y))] |} as m1 eqn:Hm1.
    assert (length (Map.changes m1) = S (length (Map.changes m))) as Hlen
      by (subst m1; simpl; rewrite length_app; simpl; lia).
    destruct (IH m1 ltac:(lia) Hgrid1 Hx Hys Hdup)
      as (m' & Hrun & Hsize' & Hgrid' & Hin & Hout & Hlen').
    exists m'. split.
    { simpl. unfold bind, this_set at 1. rewrite E. exact Hrun. }
    split; [exact Hsize'|]. split; [exact Hgrid'|].
    assert (forall r c, 0 <= r < N -> 0 <= c < N ->
              Map.get m1 r c
              = if (r =? x) && (c =? y) then Some (Qfloor (v y))
                else Map.get m r c) as Hread1.
    { intros r c Hr Hc. rewrite Hread, Hsize.
      now rewrite !Z.mod_small by lia. }
    split; [|split].
    + intros c Hc. apply elem_of_cons in Hc as [->|Hc]; [|now apply Hin].
      rewrite Hout by (try lia; now right).
      rewrite Hread1 by lia. now rewrite !Z.eqb_refl.
    + intros r c Hr Hc Hother.
      rewrite Hout; [|exact Hr|exact Hc|].
      * rewrite Hread1 by lia.
        destruct (Z.eqb_spec r x) as [->|]; [|reflexivity].
        destruct (Z.eqb_spec c y) as [->|]; [|reflexivity].
        destruct Hother as [?|Hnot]; [lia|]. exfalso. apply Hnot. now left.
      * destruct Hother as [?|Hnot]; [now left|]. right. intros Hc'.
        apply Hnot. now right.
    + simpl. lia.
Qed.

(** Rows of writes, one after the other. *)
Lemma fill_rows (v : Z -> Z -> Q) (N : Z) (xs : list Z) (m : Map.t) (n : nat) :
  0 < N -> Map.size m = N -> Map.square_grid m ->
  Forall (fun x => 0 <= x < N) xs -> NoDup xs ->
  exists m',
    forEachGen xs (fun x =>
      forEachGen (seqZ 0 N) (fun y => this_set x y (v x y))) (m, n)
    = Some (tt, (m', n)) /\
    Map.size m' = N /\ Map.square_grid m' /\
    (forall r c, r ∈ xs -> 0 <= c < N ->
                 Map.get m' r c = Some (Qfloor (v r c))) /\
    (forall r c, 0 <= r < N -> 0 <= c < N -> r ∉ xs ->
                 Map.get m' r c = Map.get m r c) /\
    length (Map.changes m')
    = (length (Map.changes m) + length xs * Z.to_nat N)%nat.
Proof.
  intros HN. revert m.
  induction xs as [|x xs IH]; intros m Hsize Hgrid Hxs Hdup.
  - exists m. simpl. split; [reflexivity|]. split; [exact Hsize|].
    split; [exact Hgrid|]. split; [intros r c Hr; now apply elem_of_nil in Hr|].
    split; [reflexivity|lia].
  - apply Forall_cons in Hxs as [Hx Hxs]. apply NoDup_cons in Hdup as [Hnew Hdup].
    assert (Forall (fun y => 0 <= y < N) (seqZ 0 N)) as Hcols
      by (apply Forall_forall; intros y Hy; apply elem_of_seqZ in Hy; lia).
    destruct (fill_row (v x) N x (seqZ 0 N) m n HN Hsize Hgrid Hx Hcols
                (NoDup_seqZ 0 N))
      as (m1 & Hrun1 & Hsize1 & Hgrid1 & Hin1 & Hout1 & Hlen1).
    destruct (IH m1 Hsize1 Hgrid1 Hxs Hdup)
      as (m' & Hrun & Hsize' & Hgrid' & Hin & Hout & Hlen).
    exists m'. split.
    { simpl. unfold bind at 1. rewrite Hrun1. exact Hrun. }
    split; [exact Hsize'|]. split; [exact Hgrid'|].
    rewrite length_seqZ in Hlen1.
    split; [|split].
    + intros r c Hr Hc. apply elem_of_cons in Hr as [->|Hr]; [|now apply Hin].
      rewrite Hout by assumption. apply Hin1. apply elem_of_seqZ. lia.
    + intros r c Hr Hc Hnot.
      rewrite Hout; [|exact Hr|exact Hc|].
      * apply Hout1; [exact Hr|exact Hc|]. left. intros ->. apply Hnot. now left.
      * intros Hr'. apply Hnot. now right.
    + simpl. lia.
Qed.

(** X21: on a square map of size [N] (0 < N < 2^30, so that [N << 1]
    is [2N]) both test terrains run to completion without drawing
    random numbers.  They write every cell
    once, [N * N] notifications in all, keep the grid square, and leave
    at every coordinate the elevation [Math.floor(maxHeight * rise /
    run)] of its cell: rise [N - x] over run [N] for the west to east
    slope, which is therefore constant along [y], and rise [2N - x - y]
    over run [2N] for the double slope. *)
Theorem test_terrains_fill `{Engine} (m : Map.t) (n : nat) :
  0 < Map.size m < 2 ^ 30 ->
  Map.square_grid m ->
  (exists m',
     generateWestToEastSlope (m, n) = Some (tt, (m', n)) /\
     Map.size m' = Map.size m /\ Map.square_grid m' /\
     length (Map.changes m')
     = (length (Map.changes m) + Z.to_nat (Map.size m) * Z.to_nat (Map.size m))%nat /\
     forall x y,
       Map.get m' x y
       = Some (slopeElevation (Map.size m - x mod Map.size m) (Map.size m))) /\
  (exists m',
     generateWestToEastAndNorthToSouthSlope (m, n) = Some (tt, (m', n)) /\
     Map.size m' = Map.size m /\ Map.square_grid m' /\
     length (Map.changes m')
     = (length (Map.changes m) + Z.to_nat (Map.size m) * Z.to_nat (Map.size m))%nat /\
     forall x y,
       Map.get m' x y
       = Some (slopeElevation
                 (2 * Map.size m - x mod Map.size m - y mod Map.size m)
                 (2 * Map.size m))).
Proof.
  intros [Hn Hsmall] Hgrid.
  assert (JS.shl (Map.size m) 1 = 2 * Map.size m) as Hshl
    by (rewrite shl_small; lia).
  assert (Forall (fun x => 0 <= x < Map.size m) (seqZ 0 (Map.size m))) as Hrows
    by (apply Forall_forall; intros x Hx; apply elem_of_seqZ in Hx; lia).
  assert (forall v : Z -> Z -> Z,
            exists m',
              forEachGen (seqZ 0 (Map.size m)) (fun x =>
                forEachGen (seqZ 0 (Map.size m)) (fun y =>
                  this_set x y (inject_Z (v x y)))) (m, n)
              = Some (tt, (m', n)) /\
              Map.size m' = Map.size m /\ Map.square_grid m' /\
              length (Map.changes m')
              = (length (Map.changes m)
                 + Z.to_nat (Map.size m) * Z.to_nat (Map.size m))%nat /\
              forall x y,
                Map.get m' x y
                = Some (v (x mod Map.size m) (y mod Map.size m))) as Hfill.
  { intros v.
    destruct (fill_rows (fun x y => inject_Z (v x y)) (Map.size m)
                (seqZ 0 (Map.size m)) m n Hn eq_refl Hgrid Hrows
                (NoDup_seqZ 0 (Map.size m)))
      as (m' & Hrun & Hsize & Hgrid' & Hin & _ & Hlen).
    exists m'. split; [exact Hrun|]. split; [exact Hsize|].
    split; [exact Hgrid'|]. rewrite length_seqZ in Hlen.
    split; [exact Hlen|].
    intros x y. rewrite <- (get_reduced m' x y) by lia. rewrite Hsize.
    pose proof (Z.mod_pos_bound x (Map.size m) Hn).
    pose proof (Z.mod_pos_bound y (Map.size m) Hn).
    rewrite Hin by (try apply elem_of_seqZ; lia).
    now rewrite Qfloor_Z. }
  split.
  - destruct (Hfill (fun x y => slopeElevation (Map.size m - x) (Map.size m)))
      as (m' & Hrun & Hrest).
    exists m'. split; [|exact Hrest].
    unfold generateWestToEastSlope, bind, this_size. exact Hrun.
  - destruct (Hfill (fun x y =>
                       slopeElevation (2 * Map.size m - x - y) (2 * Map.size m)))
      as (m' & Hrun & Hrest).
    exists m'. split; [|exact Hrest].
    unfold generateWestToEastAndNorthToSouthSlope, bind, this_size.
    rewrite Hshl. exact Hrun.
Qed.

Lemma test_terrains_fill_witness :
  0 < Map.size (Map.new mapSize) < 2 ^ 30 /\
  Map.square_grid (Map.new mapSize) /\
  exists m',
    generateWestToEastSlope (Map.new mapSize, 0%nat) = Some (tt, (m', 0%nat)) /\
    Map.size m' = Map.size (Map.new mapSize) /\ Map.square_grid m' /\
    length (Map.changes m')
    = (length (Map.changes (Map.new mapSize))
       + Z.to_nat (Map.size (Map.new mapSize))
         * Z.to_nat (Map.size (Map.new mapSize)))%nat /\
    forall x y,
      Map.get m' x y
      = Some (slopeElevation
                (Map.size (Map.new mapSize) - x mod Map.size (Map.new mapSize))
                (Map.size (Map.new mapSize))).
Proof.
  assert (0 < Map.size (Map.new mapSize) < 2 ^ 30) as Hn
    by (split; reflexivity).
  pose proof (new_square_grid mapSize) as Hgrid.
  split; [exact Hn|]. split; [exact Hgrid|].
  exact (proj1 (test_terrains_fill (Map.new mapSize) 0%nat Hn Hgrid)).
Defined.

(** X22: when the rounding of the division is monotone and exact on 0
    and on [maxHeight], as rounding to the nearest double is, the
    elevations of the west to east slope lie in [0, maxHeight] and do
    not increase eastwards. *)
Theorem slopeElevation_descends `{Engine} (N x x' : Z) :
  (forall p q : Q, p <= q -> fl p <= fl q)%Q ->
  (fl 0 == 0)%Q ->
  (fl (inject_Z maxHeight) == inject_Z maxHeight)%Q ->
  0 < N -> 0 <= x <= x' -> x' < N ->
  0 <= slopeElevation (N - x') N
  /\ slopeElevation (N - x') N <= slopeElevation (N - x) N
  /\ slopeElevation (N - x) N <= maxHeight.
Proof.
  intros Hmono Hzero Htop HN Hx Hx'. unfold slopeElevation.
  rewrite maxHeight_eq in *.
  assert (0 < inject_Z N)%Q as HNq
    by (change 0%Q with (inject_Z 0); now rewrite <- Zlt_Qlt).
  assert (0 <= inject_Z (4096 * (N - x')) / inject_Z N)%Q as Hlow.
  { apply Qle_shift_div_l; [exact HNq|]. rewrite Qmult_0_l.
    change 0%Q with (inject_Z 0). rewrite <- Zle_Qle. lia. }
  assert (inject_Z (4096 * (N - x')) / inject_Z N
          <= inject_Z (4096 * (N - x)) / inject_Z N)%Q as Hmid.
  { unfold Qdiv. apply Qmult_le_compat_r; [rewrite <- Zle_Qle; lia|].
    apply Qinv_le_0_compat. now apply Qlt_le_weak. }
  assert (inject_Z (4096 * (N - x)) / inject_Z N <= inject_Z 4096)%Q as Hhigh.
  { apply Qle_shift_div_r; [exact HNq|].
    rewrite <- inject_Z_mult, <- Zle_Qle. nia. }
  apply Hmono, Qfloor_resp_le in Hlow, Hmid, Hhigh.
  rewrite Hzero in Hlow. rewrite Htop, Qfloor_Z in Hhigh.
  change (Qfloor 0) with 0 in Hlow. lia.
Qed.

Lemma slopeElevation_descends_witness :
  (forall p q : Q, p <= q -> fl p <= fl q)%Q /\
  (fl 0 == 0)%Q /\
  (fl (inject_Z maxHeight) == inject_Z maxHeight)%Q /\
  0 < mapSize /\ 0 <= 3 <= 12 /\ 12 < mapSize /\
  0 <= slopeElevation (mapSize - 12) mapSize
  /\ slopeElevation (mapSize - 12) mapSize <= slopeElevation (mapSize - 3) mapSize
  /\ slopeElevation (mapSize - 3) mapSize <= maxHeight.
Proof.
  assert (forall p q : Q, p <= q -> fl p <= fl q)%Q as Hmono
    by (intros p q Hpq; exact Hpq).
  assert (fl 0 == 0)%Q as Hzero by reflexivity.
  assert (fl (inject_Z maxHeight) == inject_Z maxHeight)%Q as Htop by reflexivity.
  assert (0 < mapSize) as HN by reflexivity.
  assert (0 <= 3 <= 12) as Hx by lia.
  assert (12 < mapSize) as Hx' by reflexivity.
  repeat (split; [assumption|]).
  exact (slopeElevation_descends mapSize 3 12 Hmono Hzero Htop HN Hx Hx').
Defined.
